(** * ALBEF pre-training model (lavis/models/albef_models/albef_pretrain.py)

    A shallow embedding of [AlbefPretrain]: the ramp-up schedule, the
    token-masking routine [mask], the training step [forward], and the
    construction of the model by [__init__] and [_build_from_cfg].

    Conventions of the embedding.
    - Python integers are [Z]; the quotient of two integers (Python's [/])
      is the exact rational it denotes ([Q]).
    - Floating-point tensors are read as tensors of real numbers ([R]).
    - Integer and boolean tensors that the code updates in place live in a
      store ([gmap] from locations to tensor values); a Python variable
      bound to such a tensor is a location, so that two names of one tensor
      are one location.
    - Random draws are an explicit argument: the uniform samples behind
      [torch.bernoulli] and [torch.multinomial] and the integers returned
      by [torch.randint].
    - A raised Python exception is [None]. *)

From Stdlib Require Import ZArith QArith Qminmax Reals Lra Lia.
From stdpp Require Import base option list gmap strings.

(** ** Schedule: [_rampup_factor] *)

Module Schedule.

(** Python's [min(a, b)]: the second argument only when it is strictly
    smaller. *)
Definition py_min (a b : Q) : Q := if Qle_bool a b then a else b.

(** Python's [a / b] on integers; [ZeroDivisionError] is [None]. *)
Definition true_div (a b : Z) : option Q :=
  if (b =? 0)%Z then None else Some (inject_Z a / inject_Z b)%Q.

Definition _rampup_factor (epoch iters num_iters_per_epoch : Z) : option Q :=
  q ← true_div (epoch * num_iters_per_epoch + iters) (2 * num_iters_per_epoch);
  Some (py_min 1%Q q).

End Schedule.
Export Schedule.

(** ** Two-dimensional tensors *)

Module Tensor.

(** A tensor of shape [(rows, cols)] is the list of its rows. *)
Abbreviation tensor A := (list (list A)) (only parsing).

Section Ops.
Context {A B C : Type}.

Definition shape (t : tensor A) : list nat := length <$> t.

Definition tget (t : tensor A) (i j : nat) : option A :=
  t !! i ≫= λ row, row !! j.

Definition tmap (f : A → B) (t : tensor A) : tensor B :=
  (λ row : list A, f <$> row) <$> t.

Definition tzip (f : A → B → C) (a : tensor A) (b : tensor B) : tensor C :=
  zip_with (zip_with f) a b.

(** The tensor of shape [s] whose element at [(i, j)] is [g i j]. *)
Definition tabulate (g : nat → nat → A) (s : list nat) : tensor A :=
  imap (λ i n, g i <$> seq 0 n) s.

(** [torch.full(shape, v)] *)
Definition full (s : list nat) (v : A) : tensor A := (λ n, replicate n v) <$> s.
End Ops.

Definition same_shape {A B} (a : tensor A) (b : tensor B) : bool :=
  bool_decide (shape a = shape b).

(** [t[index] = v] for a boolean [index]: torch requires the index to have
    the shape of [t]. *)
Definition index_put {A} (t : tensor A) (index : tensor bool) (v : A)
  : option (tensor A) :=
  if same_shape t index
  then Some (tzip (λ x (b : bool), if b then v else x) t index)
  else None.

(** [t[index] = src[index]] *)
Definition index_copy {A} (t : tensor A) (index : tensor bool) (src : tensor A)
  : option (tensor A) :=
  if same_shape t index && same_shape src index
  then Some (tzip (λ x (bv : bool * A), if bv.1 then bv.2 else x) t
                  (tzip pair index src))
  else None.

(** [t == v], [~t] and [a & b], all elementwise *)
Definition teq (t : tensor Z) (v : Z) : tensor bool := tmap (λ x, (x =? v)%Z) t.
Definition tnot (t : tensor bool) : tensor bool := tmap negb t.
Definition tand (a b : tensor bool) : tensor bool := tzip andb a b.

(** [torch.bernoulli(p).bool()]: element [(i, j)] is one when the uniform
    sample [u i j] falls below [p i j]; a probability outside [0, 1] is
    rejected. *)
Definition is_prob (p : Q) : bool := Qle_bool 0 p && Qle_bool p 1.
Definition Qltb (a b : Q) : bool := negb (Qle_bool b a).
Definition bernoulli (p : tensor Q) (u : nat → nat → Q) : option (tensor bool) :=
  if forallb (forallb is_prob) p
  then Some (tzip Qltb (tabulate u (shape p)) p)
  else None.

(** [torch.randint(high, shape)]: needs [0 < high]. *)
Definition randint (high : Z) (s : list nat) (w : nat → nat → Z)
  : option (tensor Z) :=
  if (0 <? high)%Z then Some (tabulate w s) else None.

End Tensor.
Export Tensor.

(** ** The store of integer and boolean tensors *)

Module Store.

Abbreviation loc := positive (only parsing).

Inductive tval :=
| TLong (t : tensor Z)
| TBool (t : tensor bool).

Abbreviation heap := (gmap loc tval) (only parsing).

(** State and exception monad over the store. *)
Definition M (A : Type) : Type := heap → option (A * heap).

#[global] Instance M_ret : MRet M := λ A a h, Some (a, h).
#[global] Instance M_bind : MBind M := λ A B f m h,
  match m h with
  | Some (a, h') => f a h'
  | None => None
  end.

Definition lift {A} (o : option A) : M A := λ h,
  match o with Some a => Some (a, h) | None => None end.

Definition alloc (v : tval) : M loc := λ h,
  let l := fresh (dom h) in Some (l, <[l := v]> h).

Definition load_long (l : loc) : M (tensor Z) := λ h,
  match h !! l with Some (TLong t) => Some (t, h) | _ => None end.

Definition load_bool (l : loc) : M (tensor bool) := λ h,
  match h !! l with Some (TBool t) => Some (t, h) | _ => None end.

Definition store (l : loc) (v : tval) : M unit := λ h, Some (tt, <[l := v]> h).

(** [t.clone()] *)
Definition clone (l : loc) : M loc := t ← load_long l; alloc (TLong t).

End Store.
Export Store.

(** ** The masking routine: [AlbefPretrain.mask] *)

Module Masking.

(** The three special ids of the tokenizer. *)
Record tokenizer_ids := {
  pad_token_id : Z;
  cls_token_id : Z;
  mask_token_id : Z;
}.

(** The random draws of one call of [mask], by position. *)
Record mask_draws := {
  u_masked : nat → nat → Q;
  u_replaced : nat → nat → Q;
  u_random : nat → nat → Q;
  word : nat → nat → Z;
}.

(** The draws a random generator can produce: uniform samples in [[0, 1)]
    and words in [[0, vocab_size)]. *)
Definition valid_draws (V : Z) (ω : mask_draws) : Prop :=
  ∀ i j,
    (0 <= u_masked ω i j < 1)%Q ∧ (0 <= u_replaced ω i j < 1)%Q
    ∧ (0 <= u_random ω i j < 1)%Q ∧ (0 ≤ word ω i j < V)%Z.

(** The local variables of [mask] when it returns. *)
Record mask_locals := {
  masked_indices : loc;
  indices_replaced : tensor bool;
  indices_random : tensor bool;
  random_words : tensor Z;
}.

(** The body of [mask], statement by statement. The embedding covers the
    calls whose [input_ids] and [targets] are integer tensors and whose
    [masked_indices] is a boolean tensor, as [forward] and the signature
    intend; a tensor of another type is read as [None] here, whatever
    torch's indexing would make of it. *)
Definition mask_body (tok : tokenizer_ids) (input_ids : loc) (vocab_size : Z)
    (targets : option loc) (masked_indices : option loc)
    (probability_matrix : option (tensor Q)) (ω : mask_draws)
  : M (mask_locals * (loc * option loc)) :=
  masked_indices ←
    match masked_indices with
    | Some l => mret l
    | None =>
        p ← lift probability_matrix;
        b ← lift (bernoulli p (u_masked ω));
        alloc (TBool b)
    end;
  (* masked_indices[input_ids == pad_token_id] = False *)
  ids ← load_long input_ids;
  m ← load_bool masked_indices;
  m ← lift (index_put m (teq ids (pad_token_id tok)) false);
  _ ← store masked_indices (TBool m);
  (* masked_indices[input_ids == cls_token_id] = False *)
  ids ← load_long input_ids;
  m ← load_bool masked_indices;
  m ← lift (index_put m (teq ids (cls_token_id tok)) false);
  _ ← store masked_indices (TBool m);
  (* targets[~masked_indices] = -100 *)
  _ ← match targets with
      | Some t =>
          lab ← load_long t;
          m ← load_bool masked_indices;
          lab ← lift (index_put lab (tnot m) (-100)%Z);
          store t (TLong lab)
      | None => mret tt
      end;
  (* indices_replaced = bernoulli(full(shape, 0.8)).bool() & masked_indices *)
  ids ← load_long input_ids;
  b ← lift (bernoulli (full (shape ids) (8 # 10)) (u_replaced ω));
  m ← load_bool masked_indices;
  let indices_replaced := tand b m in
  (* input_ids[indices_replaced] = mask_token_id *)
  ids ← lift (index_put ids indices_replaced (mask_token_id tok));
  _ ← store input_ids (TLong ids);
  (* indices_random = bernoulli(full(shape, 0.5)).bool() & masked_indices
                      & ~indices_replaced *)
  ids ← load_long input_ids;
  b ← lift (bernoulli (full (shape ids) (5 # 10)) (u_random ω));
  m ← load_bool masked_indices;
  let indices_random := tand (tand b m) (tnot indices_replaced) in
  (* random_words = randint(vocab_size, shape) *)
  random_words ← lift (randint vocab_size (shape ids) (word ω));
  (* input_ids[indices_random] = random_words[indices_random] *)
  ids ← lift (index_copy ids indices_random random_words);
  _ ← store input_ids (TLong ids);
  mret ({| masked_indices := masked_indices;
           indices_replaced := indices_replaced;
           indices_random := indices_random;
           random_words := random_words |},
        (input_ids, targets)).

(** What the caller sees: [input_ids, targets], or [input_ids] alone when
    [targets] is [None]. *)
Definition mask (tok : tokenizer_ids) (input_ids : loc) (vocab_size : Z)
    (targets : option loc) (masked_indices : option loc)
    (probability_matrix : option (tensor Q)) (ω : mask_draws)
  : M (loc * option loc) :=
  r ← mask_body tok input_ids vocab_size targets masked_indices
                probability_matrix ω;
  mret r.2.

(** *** The effect of [mask] at one position

    [x] is the token id on entry, [b] the bit of [masked_indices] on
    entry (drawn or supplied), [(i, j)] the position. *)

(** the bit of [masked_indices] after the two force-clears *)
Definition cleared (tok : tokenizer_ids) (x : Z) (b : bool) : bool :=
  b && negb (x =? pad_token_id tok)%Z && negb (x =? cls_token_id tok)%Z.

(** the bits of [indices_replaced] and [indices_random], [f] being the
    cleared mask bit *)
Definition replaced (ω : mask_draws) (i j : nat) (f : bool) : bool :=
  Qltb (u_replaced ω i j) (8 # 10) && f.

Definition randomized (ω : mask_draws) (i j : nat) (f : bool) : bool :=
  Qltb (u_random ω i j) (5 # 10) && f && negb (replaced ω i j f).

(** the token id on return, [x] being the id held just before the two
    replacements *)
Definition corrupted (tok : tokenizer_ids) (ω : mask_draws) (i j : nat)
    (f : bool) (x : Z) : Z :=
  if replaced ω i j f then mask_token_id tok
  else if randomized ω i j f then word ω i j
  else x.

End Masking.
Export Masking.

(** ** Real-valued vectors and matrices *)

Module Numeric.

Local Open Scope R_scope.

#[global] Instance Rle_decision : RelDecision Rle := Rle_dec.
#[global] Instance Rlt_decision : RelDecision Rlt := Rlt_dec.

Definition rsum (l : list R) : R := foldr Rplus 0 l.

(** [t.mean()] *)
Definition mean (l : list R) : R := rsum l / INR (length l).

Definition dot (a b : list R) : R := rsum (zip_with Rmult a b).

(** [F.normalize(v, dim=-1)]: [v / max(‖v‖₂, 1e-12)] *)
Definition normalize (v : list R) : list R :=
  let n := sqrt (rsum ((λ x, x * x) <$> v)) in
  (λ x, x / Rmax n 1e-12) <$> v.

(** [F.softmax(row)] and [F.log_softmax(row)] along the last dimension *)
Definition softmax (row : list R) : list R :=
  let s := rsum (exp <$> row) in (λ x, exp x / s) <$> row.

Definition log_softmax (row : list R) : list R :=
  let s := rsum (exp <$> row) in (λ x, x - ln s) <$> row.

(** [x.clamp(lo, hi)] *)
Definition clamp (x lo hi : R) : R := Rmin (Rmax x lo) hi.

(** [a @ b], [a] given by its rows and [b] (of shape [(embed_dim, n)]) by
    its [n] columns. *)
Definition matmul (a : list (list R)) (b_cols : list (list R)) : list (list R) :=
  (λ row, dot row <$> b_cols) <$> a.

(** [m / c] and [c * m] for a scalar [c] *)
Definition mdiv (m : list (list R)) (c : R) : list (list R) := tmap (λ x, x / c) m.
Definition mscale (c : R) (m : list (list R)) : list (list R) := tmap (λ x, c * x) m.

(** [a + b]: the shapes must agree. *)
Definition madd (a b : list (list R)) : option (list (list R)) :=
  if same_shape a b then Some (tzip Rplus a b) else None.

(** [torch.zeros(m.size())] and [m.fill_diagonal_(v)] *)
Definition zeros_like (m : list (list R)) : list (list R) := tmap (λ _, 0) m.
Definition fill_diagonal (m : list (list R)) (v : R) : list (list R) :=
  imap (λ i row, <[i := v]> row) m.

(** [-torch.sum(F.log_softmax(sim, dim=1) * targets, dim=1).mean()] *)
Definition soft_cross_entropy (sim targets : list (list R)) : R :=
  - mean ((λ row, rsum row) <$> tzip Rmult (log_softmax <$> sim) targets).

(** [F.cross_entropy(logits, labels)] with the default mean reduction: the
    batch sizes must agree and a label must index a class. *)
Definition cross_entropy (logits : list (list R)) (labels : list Z)
  : option R :=
  if bool_decide (length logits = length labels) then
    nll ← mapM (λ zl : list R * Z,
                  if (zl.2 <? 0)%Z then None
                  else x ← log_softmax zl.1 !! Z.to_nat zl.2; Some (- x))
               (zip logits labels);
    Some (mean nll)
  else None.

(** [torch.multinomial(w, 1).item()]: an index drawn with probability
    proportional to its weight, by inversion of the uniform sample [u].
    Weights must be non-negative with a positive sum. *)
Fixpoint pick (w : list R) (t : R) : nat :=
  match w with
  | [] => 0%nat
  | x :: w' => if Rlt_dec t x then 0%nat else S (pick w' (t - x))
  end.

Definition multinomial (w : list R) (u : R) : option nat :=
  if decide (Forall (λ x, 0 <= x) w ∧ 0 < rsum w)
  then Some (pick w (u * rsum w))
  else None.

(** [torch.stack(l, dim=0)] rejects an empty list. *)
Definition stack {A} (l : list A) : option (list A) :=
  match l with [] => None | _ => Some l end.

End Numeric.
Export Numeric.

(** ** The model: [AlbefPretrain] *)

Module Model.

Local Open Scope R_scope.

(** The collaborators of the model, which this file takes as given: the
    vision transformer, the BERT text and fusion encoder with its
    masked-language-modelling head, the tokenizer and the linear layers.
    Encoders act on each sample of the batch on its own. A module's
    parameters are a vector of reals. *)
Class Backbone := {
  image_t : Type;
  caption_t : Type;
  (** the hidden states of one sample, and its first token [h[0, :]] *)
  states : Type;
  first_token : states → list R;
  (** [tokenizer(caption, padding="max_length", truncation=True,
      max_length=n)]: [input_ids] and [attention_mask] of one caption *)
  tok : tokenizer_ids;
  tokenize : nat → caption_t → list Z * list Z;
  (** [text_encoder.config.vocab_size] *)
  vocab_size : Z;
  vit : list R → image_t → states;
  linear : list R → list R → list R;
  (** [bert(input_ids, attention_mask, mode="text")] *)
  bert_text : list R → list Z → list Z → states;
  (** [bert(encoder_embeds, attention_mask, encoder_hidden_states,
      mode="fusion")], the image attention mask being all ones *)
  bert_fusion : list R → states → list Z → states → states;
  (** [itm_head]: a linear layer with two outputs *)
  linear2 : list R → list R → R * R;
  (** [BertForMaskedLM(..., return_logits=True)] and
      [BertForMaskedLM(..., labels, soft_labels, alpha).loss] *)
  mlm_logits : list R → tensor Z → tensor Z → list states → tensor (list R);
  mlm_loss : list R → tensor Z → tensor Z → list states → tensor Z
             → tensor (list R) → R → R;
}.

(** The fields of [self] that [forward] reads or writes. A queue of shape
    [(embed_dim, queue_size)] is the list of its columns. *)
Record albef := {
  visual_encoder : list R;
  text_encoder : list R;
  vision_proj : list R;
  text_proj : list R;
  itm_head : list R;
  visual_encoder_m : list R;
  text_encoder_m : list R;
  vision_proj_m : list R;
  text_proj_m : list R;
  image_queue : list (list R);
  text_queue : list (list R);
  queue_ptr : nat;
  queue_size : nat;
  momentum : R;
  temp : R;
  alpha : R;
  max_txt_len : nat;
  mlm_probability : Q;
}.

Definition set_temp (self : albef) (t : R) : albef :=
  {| visual_encoder := visual_encoder self; text_encoder := text_encoder self;
     vision_proj := vision_proj self; text_proj := text_proj self;
     itm_head := itm_head self;
     visual_encoder_m := visual_encoder_m self;
     text_encoder_m := text_encoder_m self;
     vision_proj_m := vision_proj_m self; text_proj_m := text_proj_m self;
     image_queue := image_queue self; text_queue := text_queue self;
     queue_ptr := queue_ptr self; queue_size := queue_size self;
     momentum := momentum self; temp := t; alpha := alpha self;
     max_txt_len := max_txt_len self;
     mlm_probability := mlm_probability self |}.

(** Modelled from the spec: [MomentumDistilationMixin._momentum_update]
    (models/base_model.py is not among the sources). For every pair of a
    module and its teacher, every teacher parameter becomes
    [momentum * teacher + (1 - momentum) * online]. *)
Definition ema (m : R) (online teacher : list R) : list R :=
  zip_with (λ p_m p, m * p_m + (1 - m) * p) teacher online.

Definition _momentum_update (self : albef) : albef :=
  let m := momentum self in
  {| visual_encoder := visual_encoder self; text_encoder := text_encoder self;
     vision_proj := vision_proj self; text_proj := text_proj self;
     itm_head := itm_head self;
     visual_encoder_m := ema m (visual_encoder self) (visual_encoder_m self);
     text_encoder_m := ema m (text_encoder self) (text_encoder_m self);
     vision_proj_m := ema m (vision_proj self) (vision_proj_m self);
     text_proj_m := ema m (text_proj self) (text_proj_m self);
     image_queue := image_queue self; text_queue := text_queue self;
     queue_ptr := queue_ptr self; queue_size := queue_size self;
     momentum := momentum self; temp := temp self; alpha := alpha self;
     max_txt_len := max_txt_len self;
     mlm_probability := mlm_probability self |}.

(** Modelled from the spec: [SharedQueueMixin._dequeue_and_enqueue]
    (models/base_model.py is not among the sources). The teacher features
    of the batch are written as columns at the pointer, which then
    advances by the batch size modulo the capacity. *)
Definition _dequeue_and_enqueue (self : albef)
    (image_feat text_feat : list (list R)) : albef :=
  let ptr := queue_ptr self in
  {| visual_encoder := visual_encoder self; text_encoder := text_encoder self;
     vision_proj := vision_proj self; text_proj := text_proj self;
     itm_head := itm_head self;
     visual_encoder_m := visual_encoder_m self;
     text_encoder_m := text_encoder_m self;
     vision_proj_m := vision_proj_m self; text_proj_m := text_proj_m self;
     image_queue := list_inserts ptr image_feat (image_queue self);
     text_queue := list_inserts ptr text_feat (text_queue self);
     queue_ptr := ((ptr + length image_feat) mod queue_size self)%nat;
     queue_size := queue_size self;
     momentum := momentum self; temp := temp self; alpha := alpha self;
     max_txt_len := max_txt_len self;
     mlm_probability := mlm_probability self |}.

(** The batch handed to [forward]. *)
Record batch `{Backbone} := {
  image : list image_t;
  text_input : list caption_t;
  epoch : Z;
  iters : Z;
  num_iters_per_epoch : Z;
}.

(** The random draws of one call of [forward]: the uniform samples behind
    the two [torch.multinomial] calls of row [b], and the draws of [mask]. *)
Record forward_draws := {
  u_neg_image : nat → R;
  u_neg_text : nat → R;
  mlm_draws : mask_draws;
}.

(** The dictionary that [forward] returns. *)
Record losses := {
  loss : R;
  loss_ita : R;
  loss_itm : R;
  loss_mlm : R;
}.

(** Local variables of [forward] when it returns. *)
Record forward_locals `{Backbone} := {
  l_alpha : R;
  l_temp : R;
  l_image_embeds : list states;
  l_text_embeds : list states;
  l_attention_mask : tensor Z;
  l_image_feat : list (list R);
  l_text_feat : list (list R);
  l_image_feat_m : list (list R);
  l_text_feat_m : list (list R);
  l_image_feat_all : list (list R);
  l_text_feat_all : list (list R);
  l_sim_i2t_m : list (list R);
  l_sim_t2i_m : list (list R);
  l_sim_targets : list (list R);
  l_sim_i2t_targets : list (list R);
  l_sim_t2i_targets : list (list R);
  l_sim_i2t : list (list R);
  l_sim_t2i : list (list R);
  l_loss_i2t : R;
  l_loss_t2i : R;
  l_bs : nat;
  l_weights_i2t : list (list R);
  l_weights_t2i : list (list R);
  l_neg_image : list nat;
  l_neg_text : list nat;
  l_vl_embeddings : list (list R);
  l_itm_labels : list Z;
  l_text_input_ids : loc;
  l_input_ids : loc;
  l_labels : loc;
}.

Section Forward.
Context `{Backbone}.

(** One round of the loops
    [for b in range(bs): neg_idx = torch.multinomial(weights[b], 1).item()]:
    the index drawn for row [b]. *)
Definition draw_negative (weights : list (list R)) (u : nat → R) (b : nat)
  : option nat :=
  row ← weights !! b; multinomial row (u b).

Definition forward (self : albef) (samples : batch) (ω : forward_draws)
  : M (albef * forward_locals * losses) :=
  let caption := text_input samples in
  r ← lift (_rampup_factor (epoch samples) (iters samples)
                           (num_iters_per_epoch samples));
  let alpha := alpha self * Q2R r in
  (* self.temp.clamp_(0.001, 0.5) *)
  let self := set_temp self (clamp (temp self) 0.001 0.5) in
  let image_embeds := vit (visual_encoder self) <$> image samples in
  (* text = self.tokenizer(caption, ...) *)
  text_input_ids ←
    alloc (TLong ((λ c, (tokenize (max_txt_len self) c).1) <$> caption));
  let attention_mask := (λ c, (tokenize (max_txt_len self) c).2) <$> caption in
  let image_feat :=
    (λ e, normalize (linear (vision_proj self) (first_token e)))
      <$> image_embeds in
  ids ← load_long text_input_ids;
  let text_embeds :=
    zip_with (bert_text (text_encoder self)) ids attention_mask in
  let text_feat :=
    (λ e, normalize (linear (text_proj self) (first_token e)))
      <$> text_embeds in
  (* get momentum features *)
  let self := _momentum_update self in
  let image_embeds_m := vit (visual_encoder_m self) <$> image samples in
  let image_feat_m :=
    (λ e, normalize (linear (vision_proj_m self) (first_token e)))
      <$> image_embeds_m in
  let image_feat_all := image_feat_m ++ image_queue self in
  ids ← load_long text_input_ids;
  let text_feat_m :=
    (λ e, normalize (linear (text_proj_m self) (first_token e)))
      <$> zip_with (bert_text (text_encoder_m self)) ids attention_mask in
  let text_feat_all := text_feat_m ++ text_queue self in
  let sim_i2t_m := mdiv (matmul image_feat_m text_feat_all) (temp self) in
  let sim_t2i_m := mdiv (matmul text_feat_m image_feat_all) (temp self) in
  let sim_targets := fill_diagonal (zeros_like sim_i2t_m) 1 in
  sim_i2t_targets ←
    lift (madd (mscale alpha (softmax <$> sim_i2t_m))
               (mscale (1 - alpha) sim_targets));
  sim_t2i_targets ←
    lift (madd (mscale alpha (softmax <$> sim_t2i_m))
               (mscale (1 - alpha) sim_targets));
  let sim_i2t := mdiv (matmul image_feat text_feat_all) (temp self) in
  let sim_t2i := mdiv (matmul text_feat image_feat_all) (temp self) in
  let loss_i2t := soft_cross_entropy sim_i2t sim_i2t_targets in
  let loss_t2i := soft_cross_entropy sim_t2i sim_t2i_targets in
  let loss_ita := (loss_i2t + loss_t2i) / 2 in
  let self := _dequeue_and_enqueue self image_feat_m text_feat_m in
  (* forward the positive image-text pair *)
  let output_pos :=
    zip_with (λ ta e, bert_fusion (text_encoder self) ta.1 ta.2 e)
             (zip text_embeds attention_mask) image_embeds in
  let bs := length (image samples) in
  let weights_i2t := fill_diagonal (softmax <$> (take bs <$> sim_i2t)) 0 in
  let weights_t2i := fill_diagonal (softmax <$> (take bs <$> sim_t2i)) 0 in
  (* select a negative image for each text *)
  neg_image ← lift (mapM (draw_negative weights_t2i (u_neg_image ω)) (seq 0 bs));
  image_embeds_neg ← lift (mapM (λ neg_idx, image_embeds !! neg_idx) neg_image);
  image_embeds_neg ← lift (stack image_embeds_neg);
  (* select a negative text for each image *)
  neg_text ← lift (mapM (draw_negative weights_i2t (u_neg_text ω)) (seq 0 bs));
  text_embeds_neg ← lift (mapM (λ neg_idx, text_embeds !! neg_idx) neg_text);
  text_atts_neg ← lift (mapM (λ neg_idx, attention_mask !! neg_idx) neg_text);
  text_embeds_neg ← lift (stack text_embeds_neg);
  text_atts_neg ← lift (stack text_atts_neg);
  let text_embeds_all := text_embeds ++ text_embeds_neg in
  let text_atts_all := attention_mask ++ text_atts_neg in
  let image_embeds_all := image_embeds_neg ++ image_embeds in
  let output_neg :=
    zip_with (λ ta e, bert_fusion (text_encoder self) ta.1 ta.2 e)
             (zip text_embeds_all text_atts_all) image_embeds_all in
  let vl_embeddings :=
    (first_token <$> output_pos) ++ (first_token <$> output_neg) in
  let vl_output :=
    (λ e, let o := linear2 (itm_head self) e in [o.1; o.2]) <$> vl_embeddings in
  let itm_labels := replicate bs 1%Z ++ replicate (2 * bs) 0%Z in
  loss_itm ← lift (cross_entropy vl_output itm_labels);
  (* MLM *)
  input_ids ← clone text_input_ids;
  labels ← clone input_ids;
  lab ← load_long labels;
  let probability_matrix := full (shape lab) (mlm_probability self) in
  r ← mask tok input_ids vocab_size (Some labels) None
           (Some probability_matrix) (mlm_draws ω);
  match r with
  | (input_ids, Some labels) =>
      ids ← load_long input_ids;
      let logits_m :=
        mlm_logits (text_encoder_m self) ids attention_mask image_embeds_m in
      lab ← load_long labels;
      let loss_mlm :=
        mlm_loss (text_encoder self) ids attention_mask image_embeds lab
                 (tmap softmax logits_m) alpha in
      mret (self,
            {| l_alpha := alpha; l_temp := temp self;
               l_image_embeds := image_embeds; l_text_embeds := text_embeds;
               l_attention_mask := attention_mask;
               l_image_feat := image_feat; l_text_feat := text_feat;
               l_image_feat_m := image_feat_m; l_text_feat_m := text_feat_m;
               l_image_feat_all := image_feat_all;
               l_text_feat_all := text_feat_all;
               l_sim_i2t_m := sim_i2t_m; l_sim_t2i_m := sim_t2i_m;
               l_sim_targets := sim_targets;
               l_sim_i2t_targets := sim_i2t_targets;
               l_sim_t2i_targets := sim_t2i_targets;
               l_sim_i2t := sim_i2t; l_sim_t2i := sim_t2i;
               l_loss_i2t := loss_i2t; l_loss_t2i := loss_t2i;
               l_bs := bs;
               l_weights_i2t := weights_i2t; l_weights_t2i := weights_t2i;
               l_neg_image := neg_image; l_neg_text := neg_text;
               l_vl_embeddings := vl_embeddings; l_itm_labels := itm_labels;
               l_text_input_ids := text_input_ids;
               l_input_ids := input_ids; l_labels := labels |},
            {| loss := loss_ita + loss_itm + loss_mlm;
               loss_ita := loss_ita;
               loss_itm := loss_itm;
               loss_mlm := loss_mlm |})
  | (_, None) => lift None
  end.

(** Names for what [forward] computes: the two tensors that the
    tokenizer returns for the batch, and the first token of the fused
    representation of a text with an image. *)
Definition tokenized_ids (self : albef) (samples : batch) : list (list Z) :=
  (λ c, (tokenize (max_txt_len self) c).1) <$> text_input samples.
Definition tokenized_mask (self : albef) (samples : batch) : list (list Z) :=
  (λ c, (tokenize (max_txt_len self) c).2) <$> text_input samples.
Definition fused (self : albef) (ta : states * list Z) (e : states)
  : list R :=
  first_token (bert_fusion (text_encoder self) ta.1 ta.2 e).

End Forward.

End Model.
Export Model.

(** ** The losses as the specification words them *)

Module Spec.

Local Open Scope R_scope.

(** The identity (diagonal) matching matrix, of the shape of [m]. *)
Definition identity_like (m : list (list R)) : list (list R) :=
  imap (λ i row, imap (λ j _, if decide (i = j) then 1 else 0) row) m.

(** Soft targets: the combination, with weight [a], of the softmax of the
    teacher's similarities with the identity matching matrix. *)
Definition soft_targets (a : R) (teacher_sim : list (list R)) : list (list R) :=
  tzip (λ p e, a * p + (1 - a) * e)
       (softmax <$> teacher_sim) (identity_like teacher_sim).



(** The probability that the two-way head gives to class [c] (1 for a
    matching pair, 0 otherwise) on a fused example [e]. *)
Definition itm_prob (w : list R) (linear2 : list R → list R → R * R)
    (e : list R) (c : bool) : R :=
  let o := linear2 w e in
  if c then exp o.2 / (exp o.1 + exp o.2) else exp o.1 / (exp o.1 + exp o.2).

(** The draws a random generator can produce for [forward]. *)
Definition valid_forward_draws (ω : forward_draws) : Prop :=
  (∀ b, 0 <= u_neg_image ω b < 1) ∧ (∀ b, 0 <= u_neg_text ω b < 1).

(** A batch that [forward] accepts: a schedule with iterations, as many
    captions as images and at least two of them, queues of one capacity,
    a masking probability and a vocabulary that make sense, and draws that
    a generator can produce. *)
Definition well_formed `{Backbone} (self : albef) (samples : batch)
    (ω : forward_draws) : Prop :=
  num_iters_per_epoch samples ≠ 0%Z
  ∧ length (text_input samples) = length (image samples)
  ∧ (2 ≤ length (image samples))%nat
  ∧ length (image_queue self) = length (text_queue self)
  ∧ is_prob (mlm_probability self) = true
  ∧ (0 < vocab_size)%Z
  ∧ valid_forward_draws ω.

End Spec.
Export Spec.

(** ** Concrete inputs *)

Module Examples.

Local Open Scope R_scope.

(** The special ids of the BERT vocabulary. *)
Definition bert_ids : tokenizer_ids :=
  {| pad_token_id := 0; cls_token_id := 101; mask_token_id := 103 |}.

(** One caption, [[CLS] 2023 [PAD]], held as ids at location 1 and as
    labels at location 2. *)
Definition ex_heap : gmap positive tval :=
  <[1%positive := TLong [[101; 2023; 0]]%Z]>
    (<[2%positive := TLong [[101; 2023; 0]]%Z]> ∅).

Definition ex_probs : list (list Q) := [[15 # 100; 15 # 100; 15 # 100]]%Q.

(** Draws that mask every position and replace it by the mask token. *)
Definition ex_draws : mask_draws :=
  {| u_masked := λ _ _, 0%Q; u_replaced := λ _ _, 0%Q;
     u_random := λ _ _, 0%Q; word := λ _ _, 7%Z |}.

(** A single token, 2023, at location 1; labels that are not a copy of
    the ids at location 2; a mask, supplied by the caller, at location 3. *)
Definition cx_heap : gmap positive tval :=
  <[1%positive := TLong [[2023]]%Z]>
    (<[2%positive := TLong [[7]]%Z]>
       (<[3%positive := TBool [[true]]]> ∅)).

(** A toy instance of the collaborators: hidden states are one vector. *)
#[local] Instance toy : Backbone :=
  {| image_t := R;
     caption_t := Z;
     states := list R;
     first_token := λ s, s;
     tok := bert_ids;
     tokenize := λ _ c, ([101; c; 0]%Z, [1; 1; 0]%Z);
     vocab_size := 30522;
     vit := λ _ x, [x; 1];
     linear := λ _ v, v;
     bert_text := λ _ ids _, (λ z, IZR z) <$> ids;
     bert_fusion := λ _ t _ e, t ++ e;
     linear2 := λ _ e, (rsum e, 0);
     mlm_logits := λ _ ids _ _, tmap (λ _, [0; 0]) ids;
     mlm_loss := λ _ _ _ _ _ _ _, 0 |}.

Definition toy_model : albef :=
  {| visual_encoder := [1]; text_encoder := [1]; vision_proj := [1];
     text_proj := [1]; itm_head := [1];
     visual_encoder_m := [1]; text_encoder_m := [1]; vision_proj_m := [1];
     text_proj_m := [1];
     image_queue := [[1; 0]; [0; 1]]; text_queue := [[1; 0]; [0; 1]];
     queue_ptr := 0; queue_size := 2;
     momentum := 0.995; temp := 0.9; alpha := 0.4;
     max_txt_len := 3; mlm_probability := 15 # 100 |}.

Definition toy_batch : batch :=
  {| image := [0; 1]; text_input := [2023; 2024]%Z;
     epoch := 0; iters := 5; num_iters_per_epoch := 10 |}.

Definition toy_draws : forward_draws :=
  {| u_neg_image := λ _, 0; u_neg_text := λ _, 0.5; mlm_draws := ex_draws |}.

End Examples.
Export Examples.

(** ** Construction: [__init__] and [_build_from_cfg] *)

Module Construction.

Local Open Scope R_scope.

(** The encoders, as far as the constructor reads them: their parameters,
    [image_encoder.vision_width] and the fields of [text_encoder.config]. *)
Record bert_config := {
  hidden_size : Z;
  fusion_layer : Z;
}.

Record image_encoder_t := {
  vit_parameters : list R;
  vision_width : Z;
}.

Record text_encoder_t := {
  bert_parameters : list R;
  config : bert_config;
}.

(** The random draws of one construction: parameter [k] of the [n]-th
    linear layer that is created, and the standard normal samples of the
    two queues, by row and column. *)
Record init_draws := {
  linear_init : nat → nat → R;
  randn_image : nat → nat → R;
  randn_text : nat → nat → R;
}.

(** [nn.Linear(in_features, out_features)]: a weight of shape
    [(out_features, in_features)] and a bias of shape [(out_features)],
    drawn at random; a negative size is rejected. *)
Definition nn_Linear (in_features out_features : Z) (draw : nat → R)
  : option (list R) :=
  if (0 <=? in_features)%Z && (0 <=? out_features)%Z
  then Some (draw <$> seq 0 (Z.to_nat (out_features * in_features
                                       + out_features)))
  else None.

(** [torch.randn(rows, cols)], as the list of its columns; a negative size
    is rejected. *)
Definition randn (rows cols : Z) (draw : nat → nat → R)
  : option (list (list R)) :=
  if (0 <=? rows)%Z && (0 <=? cols)%Z
  then Some ((λ j, (λ k, draw k j) <$> seq 0 (Z.to_nat rows))
               <$> seq 0 (Z.to_nat cols))
  else None.

(** Modelled from the spec: [MomentumDistilationMixin.copy_params]
    (models/base_model.py is not among the sources). The parameters of the
    teacher of every pair become those of its online module. *)
Definition copy_params (model_pairs : list (list R * list R))
  : list (list R * list R) :=
  (λ p, (p.1, p.1)) <$> model_pairs.

Definition __init__ (image_encoder : image_encoder_t)
    (text_encoder : text_encoder_t) (queue_size : Z) (embed_dim : Z)
    (mlm_mask_prob : Q) (temp momentum alpha : R) (max_txt_len : nat)
    (ω : init_draws) : option albef :=
  (* self.visual_encoder, self.text_encoder: the parameters of the two *)
  let visual_encoder := vit_parameters image_encoder in
  let text_width := hidden_size (config text_encoder) in
  let text_encoder := bert_parameters text_encoder in
  let vision_width := vision_width image_encoder in
  vision_proj ← nn_Linear vision_width embed_dim (linear_init ω 0);
  text_proj ← nn_Linear text_width embed_dim (linear_init ω 1);
  itm_head ← nn_Linear text_width 2 (linear_init ω 2);
  (* create the momentum encoder: deepcopy *)
  let visual_encoder_m := visual_encoder in
  let text_encoder_m := text_encoder in
  let vision_proj_m := vision_proj in
  let text_proj_m := text_proj in
  let model_pairs :=
    [(visual_encoder, visual_encoder_m); (text_encoder, text_encoder_m);
     (vision_proj, vision_proj_m); (text_proj, text_proj_m)] in
  (* self.copy_params(): the modules of the pairs are those of self *)
  let model_pairs := copy_params model_pairs in
  visual_encoder_m ← snd <$> model_pairs !! 0%nat;
  text_encoder_m ← snd <$> model_pairs !! 1%nat;
  vision_proj_m ← snd <$> model_pairs !! 2%nat;
  text_proj_m ← snd <$> model_pairs !! 3%nat;
  (* create the queue *)
  image_queue ← randn embed_dim queue_size (randn_image ω);
  text_queue ← randn embed_dim queue_size (randn_text ω);
  let queue_ptr := 0%nat in
  (* normalize(dim=0): every column *)
  let image_queue := normalize <$> image_queue in
  let text_queue := normalize <$> text_queue in
  Some {| visual_encoder := visual_encoder; text_encoder := text_encoder;
          vision_proj := vision_proj; text_proj := text_proj;
          itm_head := itm_head;
          visual_encoder_m := visual_encoder_m;
          text_encoder_m := text_encoder_m;
          vision_proj_m := vision_proj_m; text_proj_m := text_proj_m;
          image_queue := image_queue; text_queue := text_queue;
          queue_ptr := queue_ptr; queue_size := Z.to_nat queue_size;
          momentum := momentum;
          (* temp * torch.ones([]) *)
          temp := temp * 1;
          alpha := alpha; max_txt_len := max_txt_len;
          mlm_probability := mlm_mask_prob |}.

(** The configuration handed to [_build_from_cfg], read as a mapping
    whose values, where a key is present, have the type that the
    constructor expects; an absent key is [None]. *)
Record cfg_t := {
  cfg_med_config_path : option string;
  cfg_embed_dim : option Z;
  cfg_momentum : option R;
  cfg_alpha : option R;
  cfg_mlm_mask_prob : option Q;
  cfg_temp : option R;
  cfg_max_txt_len : option nat;
  cfg_queue_size : option Z;
}.

(** The loaders that [_build_from_cfg] calls, which this file takes as
    given: [VisionTransformerEncoder.build_from_cfg(cfg, from_pretrained)],
    [BertConfig.from_json_file(path)] and
    [BertForMaskedLM.from_pretrained(name, config)]. *)
Class Loaders := {
  vit_build_from_cfg : option cfg_t → bool → option image_encoder_t;
  bert_config_from_json_file : string → option bert_config;
  bert_from_pretrained : string → bert_config → option text_encoder_t;
}.

(** [config.fusion_layer = v] *)
Definition set_fusion_layer (c : bert_config) (v : Z) : bert_config :=
  {| hidden_size := hidden_size c; fusion_layer := v |}.

(** [assert v] for an optional integer [v]: [None] and [0] fail. *)
Definition assert_truthy (v : option Z) : option unit :=
  match v with
  | Some n => if (n =? 0)%Z then None else Some tt
  | None => None
  end.

Definition _build_from_cfg `{Loaders} (cfg : option cfg_t) (ω : init_draws)
  : option albef :=
  image_encoder ← vit_build_from_cfg cfg true;
  (* cfg["med_config_path"]: [None] has no keys, an absent key raises *)
  c ← cfg;
  path ← cfg_med_config_path c;
  config_text_encoder ← bert_config_from_json_file path;
  let config_text_encoder := set_fusion_layer config_text_encoder 6 in
  text_encoder ←
    bert_from_pretrained "bert-base-uncased" config_text_encoder;
  let embed_dim := default 256%Z (cfg_embed_dim c) in
  let momentum := default 0.995 (cfg_momentum c) in
  let alpha := default 0.4 (cfg_alpha c) in
  let mlm_mask_prob := default (15 # 100)%Q (cfg_mlm_mask_prob c) in
  let temp := default 0.07 (cfg_temp c) in
  let max_txt_len := default 30%nat (cfg_max_txt_len c) in
  let queue_size := cfg_queue_size c in
  (* assert queue_size, "queue_size must be specified." *)
  _ ← assert_truthy queue_size;
  queue_size ← queue_size;
  __init__ image_encoder text_encoder queue_size embed_dim mlm_mask_prob
           temp momentum alpha max_txt_len ω.

End Construction.
Export Construction.

(** ** Concrete inputs of the construction *)

Module ConstructionExamples.

Local Open Scope R_scope.

(** Two encoders of width 2. *)
Definition toy_image_encoder : image_encoder_t :=
  {| vit_parameters := [1]; vision_width := 2 |}.

Definition toy_text_encoder : text_encoder_t :=
  {| bert_parameters := [1];
     config := {| hidden_size := 2; fusion_layer := 6 |} |}.

(** Loaders that find an encoder of width 2 under any name. *)
#[local] Instance toy_loaders : Loaders :=
  {| vit_build_from_cfg := λ _ _,
       Some {| vit_parameters := [1]; vision_width := 2 |};
     bert_config_from_json_file := λ _,
       Some {| hidden_size := 2; fusion_layer := 0 |};
     bert_from_pretrained := λ _ c,
       Some {| bert_parameters := [1]; config := c |} |}.

(** A configuration that names the file of the text encoder and the
    capacity of the queues, and leaves the rest to the defaults. *)
Definition toy_cfg : cfg_t :=
  {| cfg_med_config_path := Some "configs/models/med_config.json";
     cfg_embed_dim := None; cfg_momentum := None; cfg_alpha := None;
     cfg_mlm_mask_prob := None; cfg_temp := None; cfg_max_txt_len := None;
     cfg_queue_size := Some 4%Z |}.

(** Draws that make the first column of either queue the vector
    [(3, 4, 0, ...)]. *)
Definition toy_init_draws : init_draws :=
  {| linear_init := λ _ _, 0;
     randn_image := λ k j, match k with 0%nat => 3 | 1%nat => 4 | _ => 0 end;
     randn_text := λ k j, match k with 0%nat => 3 | 1%nat => 4 | _ => 0 end |}.

(** The toy batch at the very first step of the schedule. *)
Definition toy_first_batch : @batch toy :=
  @Build_batch toy [0; 1] [2023; 2024]%Z 0 0 10.

End ConstructionExamples.
Export ConstructionExamples.

(** ** The temperature when [forward] is over *)

Module ForwardExit.

Local Open Scope R_scope.



End ForwardExit.
Export ForwardExit.

(** * Properties *)

(** ** The ramp-up schedule *)

Section ScheduleFacts.

Local Open Scope Q_scope.

Lemma py_min_Qmin (a b : Q) : py_min a b == Qmin a b.
Proof.
  unfold py_min. destruct (Qle_bool a b) eqn:E.
  - apply Qle_bool_iff in E. symmetry. by apply Q.min_l.
  - symmetry. apply Q.min_r. apply Qlt_le_weak, Qnot_le_lt.
    intros Hle. apply Qle_bool_iff in Hle. congruence.
Qed.

Lemma py_min_le_l (a b : Q) : py_min a b <= a.
Proof. rewrite py_min_Qmin. apply Q.le_min_l. Qed.

Lemma true_div_Some (a b : Z) :
  b ≠ 0%Z → true_div a b = Some (inject_Z a / inject_Z b).
Proof. intros Hb. unfold true_div. by apply Z.eqb_neq in Hb as ->. Qed.

Lemma rampup_factor_Some (e i N : Z) :
  N ≠ 0%Z →
  _rampup_factor e i N
  = Some (py_min 1 (inject_Z (e * N + i) / inject_Z (2 * N))).
Proof.
  intros HN. unfold _rampup_factor. rewrite true_div_Some; [done | lia].
Qed.

(** C1. For [e, i >= 0] and [N > 0] the ramp-up factor is
    [min(1, (e*N + i) / (2*N))]; it is [0] at epoch 0, iteration 0 and [1]
    at epoch 0, iteration [2N]; whatever the inputs, a returned factor
    never exceeds [1]. *)
Theorem rampup_factor_schedule (N : Z) :
  (0 < N)%Z →
  (∀ e i : Z, (0 ≤ e)%Z → (0 ≤ i)%Z →
     ∃ r, _rampup_factor e i N = Some r
          ∧ r == Qmin 1 (inject_Z (e * N + i) / inject_Z (2 * N)))
  ∧ (∃ r, _rampup_factor 0 0 N = Some r ∧ r == 0)
  ∧ (∃ r, _rampup_factor 0 (2 * N) N = Some r ∧ r == 1)
  ∧ (∀ (e i M : Z) (r : Q), _rampup_factor e i M = Some r → r <= 1).
Proof.
  intros HN. repeat split.
  - intros e i _ _. eexists. split; [apply rampup_factor_Some; lia |].
    apply py_min_Qmin.
  - eexists. split; [apply rampup_factor_Some; lia |].
    assert (Hq : inject_Z (0 * N + 0) / inject_Z (2 * N) == 0).
    { simpl (0 * N + 0)%Z. unfold Qdiv. apply Qmult_0_l. }
    etrans; [apply py_min_Qmin |]. etrans; [apply Q.min_r | exact Hq].
    rewrite Hq. done.
  - eexists. split; [apply rampup_factor_Some; lia |].
    etrans; [apply py_min_Qmin |]. apply Q.min_l.
    replace (0 * N + 2 * N)%Z with (2 * N)%Z by lia.
    apply Qle_shift_div_l.
    + replace 0 with (inject_Z 0) by done. rewrite <- Zlt_Qlt. lia.
    + rewrite Qmult_1_l. apply Qle_refl.
  - intros e i M r Hr. unfold _rampup_factor in Hr.
    destruct (true_div _ _) as [q|]; simplify_eq/=. apply py_min_le_l.
Qed.

End ScheduleFacts.

(** ** Tensors, position by position *)

Section TensorFacts.
Context {A B C : Type}.
Implicit Types (a : list (list A)) (b : list (list B)).

Lemma tget_tmap (f : A → B) a i j : tget (tmap f a) i j = f <$> tget a i j.
Proof.
  unfold tget, tmap. rewrite list_lookup_fmap.
  destruct (a !! i) as [row|]; simpl; [|done]. by rewrite list_lookup_fmap.
Qed.

Lemma tget_tzip (f : A → B → C) a b i j :
  tget (tzip f a b) i j
  = x ← tget a i j; y ← tget b i j; Some (f x y).
Proof.
  unfold tget, tzip. rewrite lookup_zip_with.
  destruct (a !! i) as [ra|]; simpl; [|done].
  destruct (b !! i) as [rb|]; simpl.
  - rewrite lookup_zip_with. done.
  - by destruct (ra !! j).
Qed.

Lemma tget_tabulate (g : nat → nat → A) (s : list nat) i j :
  tget (tabulate g s) i j
  = n ← s !! i; if decide (j < n) then Some (g i j) else None.
Proof.
  unfold tget, tabulate. rewrite list_lookup_imap.
  destruct (s !! i) as [n|]; simpl; [|done].
  rewrite list_lookup_fmap. case_decide.
  - by rewrite lookup_seq_lt.
  - by rewrite lookup_seq_ge by lia.
Qed.

Lemma tget_full (s : list nat) (v : A) i j :
  tget (full s v) i j
  = n ← s !! i; if decide (j < n) then Some v else None.
Proof.
  unfold tget, full. rewrite list_lookup_fmap.
  destruct (s !! i) as [n|]; simpl; [|done]. case_decide.
  - by apply lookup_replicate_2.
  - apply lookup_ge_None. rewrite length_replicate. lia.
Qed.

Lemma tget_shape a i j :
  is_Some (tget a i j) ↔ ∃ n, shape a !! i = Some n ∧ j < n.
Proof.
  unfold tget, shape. rewrite list_lookup_fmap.
  destruct (a !! i) as [row|]; simpl.
  - rewrite lookup_lt_is_Some.
    split; [by eauto | by intros (n & [= <-] & ?)].
  - split; [by intros [? ?] | by intros (? & ? & ?)].
Qed.

Lemma shape_tmap (f : A → B) a : shape (tmap f a) = shape a.
Proof.
  unfold shape, tmap. rewrite <- list_fmap_compose.
  apply list_fmap_ext. intros ? row _. simpl. by rewrite length_fmap.
Qed.

Lemma shape_tzip (f : A → B → C) a b :
  shape a = shape b → shape (tzip f a b) = shape a.
Proof.
  unfold shape, tzip. revert b.
  induction a as [|ra a IH]; intros [|rb b] Hs; try done.
  rewrite !fmap_cons in Hs. injection Hs as Hh Ht. cbn.
  f_equal; [|by apply IH]. rewrite length_zip_with. lia.
Qed.

Lemma shape_tabulate (g : nat → nat → A) (s : list nat) :
  shape (tabulate g s) = s.
Proof.
  unfold shape, tabulate. apply list_eq. intros i.
  rewrite list_lookup_fmap, list_lookup_imap.
  destruct (s !! i); simpl; [|done]. by rewrite length_fmap, length_seq.
Qed.

Lemma shape_full (s : list nat) (v : A) : shape (full s v) = s.
Proof.
  unfold shape, full. rewrite <- list_fmap_compose.
  rewrite <- (list_fmap_id s) at 2. apply list_fmap_ext.
  intros ? n _. simpl. by rewrite length_replicate.
Qed.

End TensorFacts.

Section TensorFacts2.
Context {A : Type}.
Implicit Types (t : list (list A)) (ix : list (list bool)).

Lemma same_shape_eq {B} t (b : list (list B)) :
  same_shape t b = true ↔ shape t = shape b.
Proof. unfold same_shape. apply bool_decide_eq_true. Qed.

Lemma tget_same_shape {B} t (b : list (list B)) i j :
  shape t = shape b → is_Some (tget t i j) → is_Some (tget b i j).
Proof. intros Hs. rewrite !tget_shape, Hs. done. Qed.

Lemma index_put_Some t ix v t' :
  index_put t ix v = Some t' →
  shape ix = shape t ∧ shape t' = shape t
  ∧ ∀ i j, tget t' i j
           = x ← tget t i j; b ← tget ix i j; Some (if b : bool then v else x).
Proof.
  unfold index_put. destruct (same_shape t ix) eqn:E; [|done].
  apply same_shape_eq in E. intros [= <-]. split_and!; [done | |].
  - by apply shape_tzip.
  - intros i j. by rewrite tget_tzip.
Qed.

Lemma index_put_total t ix v :
  shape ix = shape t → is_Some (index_put t ix v).
Proof.
  intros Hs. unfold index_put.
  by apply symmetry, same_shape_eq in Hs as ->.
Qed.

Lemma index_copy_Some t ix src t' :
  index_copy t ix src = Some t' →
  shape ix = shape t ∧ shape src = shape t ∧ shape t' = shape t
  ∧ ∀ i j, tget t' i j
           = x ← tget t i j; b ← tget ix i j; y ← tget src i j;
             Some (if b : bool then y else x).
Proof.
  unfold index_copy.
  destruct (same_shape t ix) eqn:E1; [|done].
  destruct (same_shape src ix) eqn:E2; [|done].
  apply same_shape_eq in E1, E2. intros [= <-].
  split_and!; [done | congruence | |].
  - apply shape_tzip. rewrite shape_tzip; congruence.
  - intros i j. rewrite !tget_tzip.
    destruct (tget t i j); simpl; [|done].
    destruct (tget ix i j); simpl; [|done].
    by destruct (tget src i j).
Qed.

Lemma index_copy_total t ix src :
  shape ix = shape t → shape src = shape t → is_Some (index_copy t ix src).
Proof.
  intros H1 H2. unfold index_copy.
  assert (same_shape t ix = true) as -> by (apply same_shape_eq; congruence).
  assert (same_shape src ix = true) as -> by (apply same_shape_eq; congruence).
  done.
Qed.

End TensorFacts2.

Lemma bernoulli_Some (p : list (list Q)) u b :
  bernoulli p u = Some b →
  shape b = shape p
  ∧ ∀ i j, tget b i j = q ← tget p i j; Some (Qltb (u i j) q).
Proof.
  unfold bernoulli. destruct (forallb _ p); [|done]. intros [= <-]. split.
  - rewrite shape_tzip; by rewrite shape_tabulate.
  - intros i j. rewrite tget_tzip, tget_tabulate.
    destruct (tget p i j) as [q|] eqn:E.
    + destruct (proj1 (tget_shape p i j)) as (n & -> & Hn); [by eexists|].
      simpl. by rewrite decide_True.
    + destruct (shape p !! i); simpl; [|done]. by case_decide.
Qed.

Lemma bernoulli_full_total (s : list nat) (q : Q) u :
  is_prob q = true → is_Some (bernoulli (full s q) u).
Proof.
  intros Hq. unfold bernoulli.
  assert (forallb (forallb is_prob) (full s q) = true) as ->; [|done].
  apply forallb_forall. intros row [n [<- _]]%in_map_iff.
  apply forallb_forall. intros x Hx%list_elem_of_In%elem_of_replicate.
  by destruct Hx as [-> _].
Qed.

Lemma randint_Some high s w t :
  randint high s w = Some t →
  (0 < high)%Z ∧ shape t = s
  ∧ ∀ i j, tget t i j = n ← s !! i; if decide (j < n) then Some (w i j) else None.
Proof.
  unfold randint. destruct (0 <? high)%Z eqn:E; [|done]. intros [= <-].
  apply Z.ltb_lt in E. split_and!; [done | apply shape_tabulate |].
  intros i j. apply tget_tabulate.
Qed.

(** ** Running the store monad *)

Section StoreFacts.
Context {A B : Type}.
Implicit Types h : gmap positive tval.

Lemma bind_Some (m : M A) (f : A → M B) h r :
  (m ≫= f) h = Some r ↔ ∃ a h1, m h = Some (a, h1) ∧ f a h1 = Some r.
Proof.
  unfold mbind, M_bind. destruct (m h) as [[a h1]|].
  - split; [by eauto | by intros (? & ? & [= <- <-] & ?)].
  - split; [done | by intros (? & ? & ? & ?)].
Qed.

Lemma ret_Some (a : A) h r : (mret a : M A) h = Some r ↔ r = (a, h).
Proof. unfold mret, M_ret. split; congruence. Qed.

Lemma lift_Some (o : option A) h a h1 :
  lift o h = Some (a, h1) ↔ o = Some a ∧ h1 = h.
Proof.
  unfold lift. destruct o; (split; [intros [= ? ?] | intros [[= ?] ?]]);
    by subst.
Qed.

Lemma load_long_Some l h t h1 :
  load_long l h = Some (t, h1) ↔ h !! l = Some (TLong t) ∧ h1 = h.
Proof.
  unfold load_long.
  destruct (h !! l) as [[]|]; (split; [intros [= ? ?] | intros [[= ?] ?]]);
    by subst.
Qed.

Lemma load_bool_Some l h t h1 :
  load_bool l h = Some (t, h1) ↔ h !! l = Some (TBool t) ∧ h1 = h.
Proof.
  unfold load_bool.
  destruct (h !! l) as [[]|]; (split; [intros [= ? ?] | intros [[= ?] ?]]);
    by subst.
Qed.

Lemma store_Some l v h u h1 :
  store l v h = Some (u, h1) ↔ h1 = <[l := v]> h.
Proof. unfold store. destruct u. split; congruence. Qed.

Lemma alloc_Some v h l h1 :
  alloc v h = Some (l, h1) ↔ l = fresh (dom h) ∧ h1 = <[l := v]> h.
Proof. unfold alloc. split; [by intros [= <- <-] | by intros [-> ->]]. Qed.

Lemma fresh_lookup h : h !! fresh (dom h) = None.
Proof. apply not_elem_of_dom, is_fresh. Qed.

End StoreFacts.

Section MaskFacts.
Variable tok : tokenizer_ids.
Implicit Types (h : gmap positive tval) (ω : mask_draws).
Implicit Types (ids lab : list (list Z)) (m : list (list bool)).

(** The two force-clears, position by position. *)
Lemma force_clear_Some ids m m1 m2 :
  index_put m (teq ids (pad_token_id tok)) false = Some m1 →
  index_put m1 (teq ids (cls_token_id tok)) false = Some m2 →
  shape m = shape ids ∧ shape m2 = shape ids
  ∧ ∀ i j x, tget ids i j = Some x →
      ∃ b, tget m i j = Some b ∧ tget m2 i j = Some (cleared tok x b).
Proof.
  intros (Hs1 & Hs1' & Hp1)%index_put_Some (Hs2 & Hs2' & Hp2)%index_put_Some.
  unfold teq in *. rewrite shape_tmap in Hs1, Hs2.
  split_and!; [done | congruence |].
  intros i j x Hx.
  destruct (tget_same_shape ids m i j) as [b Hb]; [done | by eexists |].
  exists b. split; [done|].
  rewrite Hp2, Hp1, Hb, !tget_tmap, Hx. simpl. unfold cleared.
  by destruct b, (x =? pad_token_id tok)%Z, (x =? cls_token_id tok)%Z.
Qed.

(** The two replacements, position by position. *)
Lemma replacements_Some ω V ids fm b8 b5 ids1 rw out :
  shape fm = shape ids →
  bernoulli (full (shape ids) (8 # 10)) (u_replaced ω) = Some b8 →
  index_put ids (tand b8 fm) (mask_token_id tok) = Some ids1 →
  bernoulli (full (shape ids1) (5 # 10)) (u_random ω) = Some b5 →
  randint V (shape ids1) (word ω) = Some rw →
  index_copy ids1 (tand (tand b5 fm) (tnot (tand b8 fm))) rw = Some out →
  (0 < V)%Z ∧ shape out = shape ids
  ∧ shape (tand b8 fm) = shape ids
  ∧ shape (tand (tand b5 fm) (tnot (tand b8 fm))) = shape ids
  ∧ shape rw = shape ids
  ∧ ∀ i j x f, tget ids i j = Some x → tget fm i j = Some f →
      tget (tand b8 fm) i j = Some (replaced ω i j f)
      ∧ tget (tand (tand b5 fm) (tnot (tand b8 fm))) i j
        = Some (randomized ω i j f)
      ∧ tget rw i j = Some (word ω i j)
      ∧ tget out i j = Some (corrupted tok ω i j f x).
Proof.
  intros Hfm (Hs8 & Hp8)%bernoulli_Some (_ & Hs1 & Hp1)%index_put_Some
    (Hs5 & Hp5)%bernoulli_Some (HV & Hsw & Hpw)%randint_Some
    (_ & _ & Hso & Hpo)%index_copy_Some.
  rewrite shape_full in Hs8, Hs5.
  assert (Hsr : shape (tand b8 fm) = shape ids).
  { unfold tand. rewrite shape_tzip; congruence. }
  assert (Hsd : shape (tand (tand b5 fm) (tnot (tand b8 fm))) = shape ids).
  { unfold tand at 1 2, tnot.
    rewrite !shape_tzip; rewrite ?shape_tmap, ?shape_tzip; congruence. }
  split_and!; [done | congruence | done | done | congruence |].
  intros i j x f Hx Hf.
  destruct (proj1 (tget_shape ids i j)) as (n & Hn & Hj); [by eexists|].
  assert (Hr : tget (tand b8 fm) i j = Some (replaced ω i j f)).
  { unfold tand. rewrite tget_tzip, Hp8, tget_full, Hn, Hf. simpl.
    by rewrite decide_True. }
  assert (Hd : tget (tand (tand b5 fm) (tnot (tand b8 fm))) i j
               = Some (randomized ω i j f)).
  { unfold tand at 1 2, tnot. rewrite !tget_tzip, tget_tmap, Hr, Hp5.
    rewrite tget_full, Hs1, Hn, Hf. simpl. by rewrite decide_True. }
  assert (Hw : tget rw i j = Some (word ω i j)).
  { rewrite Hpw, Hs1, Hn. simpl. by rewrite decide_True. }
  split_and!; [done..|].
  rewrite Hpo, Hp1, Hx, Hr, Hd, Hw. simpl. unfold corrupted.
  unfold randomized. destruct (replaced ω i j f); [by rewrite andb_false_r|].
  by destruct (_ && _).
Qed.

(** The first statement of [mask]: the mask is the caller's tensor, or a
    fresh one drawn from [probability_matrix]. *)
Lemma resolve_mask_Some (mi : option positive) (pm : option (list (list Q)))
    ω h mloc h0 :
  match mi with
  | Some l => mret l
  | None => p ← lift pm; b ← lift (bernoulli p (u_masked ω)); alloc (TBool b)
  end h = Some (mloc, h0) →
  (∀ l, l ≠ mloc → h0 !! l = h !! l)
  ∧ match mi with
    | Some l => mloc = l ∧ h0 = h
    | None => mloc = fresh (dom h)
              ∧ ∃ p b, pm = Some p ∧ bernoulli p (u_masked ω) = Some b
                       ∧ h0 = <[mloc := TBool b]> h
    end.
Proof.
  destruct mi as [l|].
  - intros [= -> ->]%ret_Some. done.
  - intros Hm.
    apply bind_Some in Hm as (p & ? & [Hp ->]%lift_Some & Hm).
    apply bind_Some in Hm as (b & ? & [Hb ->]%lift_Some & Hm).
    apply alloc_Some in Hm as [-> ->]. split.
    + intros l Hl. by rewrite lookup_insert_ne.
    + split; [done|]. by exists p, b.
Qed.

Lemma mask_body_inv input_ids V targets mi pm ω h lc res h' :
  mask_body tok input_ids V targets mi pm ω h = Some (lc, res, h') →
  ∃ ids0 m0 fm out,
    h !! input_ids = Some (TLong ids0)
    ∧ match mi with
      | Some l => masked_indices lc = l ∧ h !! l = Some (TBool m0)
      | None => masked_indices lc = fresh (dom h)
                ∧ ∃ p, pm = Some p ∧ bernoulli p (u_masked ω) = Some m0
      end
    ∧ masked_indices lc ≠ input_ids
    ∧ res = (input_ids, targets)
    ∧ (0 < V)%Z
    ∧ shape m0 = shape ids0 ∧ shape fm = shape ids0 ∧ shape out = shape ids0
    ∧ shape (indices_replaced lc) = shape ids0
    ∧ shape (indices_random lc) = shape ids0
    ∧ shape (random_words lc) = shape ids0
    ∧ h' !! masked_indices lc = Some (TBool fm)
    ∧ h' !! input_ids = Some (TLong out)
    ∧ (∀ l, l ≠ input_ids → l ≠ masked_indices lc → targets ≠ Some l →
         h' !! l = h !! l)
    ∧ (∀ i j x, tget ids0 i j = Some x →
         ∃ b, tget m0 i j = Some b
              ∧ let f := cleared tok x b in
                tget fm i j = Some f
                ∧ tget (indices_replaced lc) i j = Some (replaced ω i j f)
                ∧ tget (indices_random lc) i j = Some (randomized ω i j f)
                ∧ tget (random_words lc) i j = Some (word ω i j)
                ∧ tget out i j
                  = Some (corrupted tok ω i j f
                            (if decide (targets = Some input_ids)
                             then (if f then x else -100)%Z else x)))
    ∧ (∀ t, targets = Some t → t ≠ input_ids →
         t ≠ masked_indices lc
         ∧ ∃ lab0 lab,
             h !! t = Some (TLong lab0) ∧ h' !! t = Some (TLong lab)
             ∧ shape lab0 = shape ids0 ∧ shape lab = shape ids0
             ∧ ∀ i j y, tget lab0 i j = Some y →
                 ∃ f, tget fm i j = Some f
                      ∧ tget lab i j = Some (if f : bool then y else -100)%Z).
Proof.
  intros Hm. unfold mask_body in Hm.
  apply bind_Some in Hm as (mloc & h0 & [Hfr Hres]%resolve_mask_Some & Hm).
  apply bind_Some in Hm as (ids0 & ? & [Hids0 ->]%load_long_Some & Hm).
  apply bind_Some in Hm as (m0 & ? & [Hm0 ->]%load_bool_Some & Hm).
  apply bind_Some in Hm as (m1 & ? & [Hm1 ->]%lift_Some & Hm).
  apply bind_Some in Hm as ([] & ? & ->%store_Some & Hm).
  assert (mloc ≠ input_ids) as Hne by congruence.
  apply bind_Some in Hm as (ids0' & ? & [Hids0' ->]%load_long_Some & Hm).
  rewrite lookup_insert_ne in Hids0' by done.
  apply bind_Some in Hm as (m1' & ? & [Hm1' ->]%load_bool_Some & Hm).
  rewrite lookup_insert_eq in Hm1'. injection Hm1' as <-.
  rewrite Hids0 in Hids0'. injection Hids0' as <-.
  apply bind_Some in Hm as (fm & ? & [Hfm ->]%lift_Some & Hm).
  apply bind_Some in Hm as ([] & ? & ->%store_Some & Hm).
  destruct (force_clear_Some _ _ _ _ Hm1 Hfm) as (Hsm0 & Hsfm & Hclr).
  rewrite insert_insert_eq in Hm.
  apply bind_Some in Hm as ([] & h1 & Hlab & Hm).
  apply bind_Some in Hm as (pre & ? & [Hpre ->]%load_long_Some & Hm).
  apply bind_Some in Hm as (b8 & ? & [Hb8 ->]%lift_Some & Hm).
  apply bind_Some in Hm as (fm' & ? & [Hfm' ->]%load_bool_Some & Hm).
  apply bind_Some in Hm as (ids1 & ? & [Hids1 ->]%lift_Some & Hm).
  apply bind_Some in Hm as ([] & ? & ->%store_Some & Hm).
  apply bind_Some in Hm as (ids1' & ? & [Hids1' ->]%load_long_Some & Hm).
  rewrite lookup_insert_eq in Hids1'. injection Hids1' as <-.
  apply bind_Some in Hm as (b5 & ? & [Hb5 ->]%lift_Some & Hm).
  apply bind_Some in Hm as (fm'' & ? & [Hfm'' ->]%load_bool_Some & Hm).
  rewrite lookup_insert_ne in Hfm'' by done.
  rewrite Hfm' in Hfm''. injection Hfm'' as <-.
  apply bind_Some in Hm as (rw & ? & [Hrw ->]%lift_Some & Hm).
  apply bind_Some in Hm as (out & ? & [Hout ->]%lift_Some & Hm).
  apply bind_Some in Hm as ([] & ? & ->%store_Some & Hm).
  apply ret_Some in Hm. injection Hm as -> -> ->. simpl.
  rewrite insert_insert_eq.
  (* the heap before the mask was resolved *)
  assert (Hh : h !! input_ids = Some (TLong ids0)) by (by rewrite <- Hfr).
  (* the label step *)
  assert (Hstep :
    h1 !! mloc = Some (TBool fm)
    ∧ (∀ l, l ≠ mloc → targets ≠ Some l → h1 !! l = h0 !! l)
    ∧ shape pre = shape ids0
    ∧ (∀ i j x f, tget ids0 i j = Some x → tget fm i j = Some f →
         tget pre i j = Some (if decide (targets = Some input_ids)
                              then (if f then x else -100)%Z else x))
    ∧ (∀ t, targets = Some t → t ≠ input_ids →
         t ≠ mloc
         ∧ ∃ lab0 lab,
             h0 !! t = Some (TLong lab0) ∧ h1 !! t = Some (TLong lab)
             ∧ shape lab0 = shape ids0 ∧ shape lab = shape ids0
             ∧ ∀ i j y, tget lab0 i j = Some y →
                 ∃ f, tget fm i j = Some f
                      ∧ tget lab i j = Some (if f : bool then y else -100)%Z)).
  { destruct targets as [t|].
    - apply bind_Some in Hlab as (lab0 & ? & [Hlab0 ->]%load_long_Some & Hlab).
      apply bind_Some in Hlab as (fm2 & ? & [Hfm2 ->]%load_bool_Some & Hlab).
      apply bind_Some in Hlab as (lab & ? & [Hl ->]%lift_Some & Hlab).
      apply store_Some in Hlab as ->.
      rewrite lookup_insert_eq in Hfm2. injection Hfm2 as <-.
      assert (t ≠ mloc) as Hts.
      { intros ->. rewrite lookup_insert_eq in Hlab0. done. }
      rewrite lookup_insert_ne in Hlab0 by done.
      apply index_put_Some in Hl as (Hsl & Hsl' & Hpl).
      unfold tnot in Hsl, Hpl. rewrite shape_tmap in Hsl.
      assert (Hpt : ∀ i j y, tget lab0 i j = Some y →
                ∃ f, tget fm i j = Some f
                     ∧ tget lab i j = Some (if f : bool then y else -100)%Z).
      { intros i j y Hy.
        destruct (tget_same_shape lab0 fm i j) as [f Hf]; [done | by eexists |].
        exists f. split; [done|].
        rewrite Hpl, Hy, tget_tmap, Hf. simpl. by destruct f. }
      split_and!.
      + rewrite lookup_insert_ne by done. by rewrite lookup_insert_eq.
      + intros l Hl1 Hl2. rewrite !lookup_insert_ne by congruence. done.
      + destruct (decide (t = input_ids)) as [->|Hti].
        * rewrite lookup_insert_eq in Hpre. injection Hpre as <-. congruence.
        * rewrite !lookup_insert_ne in Hpre by done. congruence.
      + intros i j x f Hx Hf.
        destruct (decide (t = input_ids)) as [->|Hti].
        * rewrite lookup_insert_eq in Hpre. injection Hpre as <-.
          rewrite decide_True by done.
          assert (lab0 = ids0) as -> by congruence.
          destruct (Hpt i j x Hx) as (f' & Hf' & ->).
          rewrite Hf in Hf'. by injection Hf' as <-.
        * rewrite !lookup_insert_ne in Hpre by done.
          assert (pre = ids0) as -> by congruence.
          rewrite decide_False by congruence. done.
      + intros t' [= <-] Hti. split; [done|]. exists lab0, lab.
        split_and!;
          [done | apply lookup_insert_eq | congruence | congruence | done].
    - apply ret_Some in Hlab. injection Hlab as ->.
      rewrite lookup_insert_ne in Hpre by done.
      assert (pre = ids0) as -> by congruence.
      split_and!.
      + by rewrite lookup_insert_eq.
      + intros l Hl1 Hl2. by rewrite lookup_insert_ne.
      + done.
      + intros i j x f Hx Hf. by rewrite decide_False.
      + intros t [=]. }
  destruct Hstep as (Hfm1 & Hfr1 & Hspre & Hppre & Htgt).
  assert (fm' = fm) as -> by congruence.
  assert (Hsfm' : shape fm = shape pre) by congruence.
  destruct (replacements_Some _ _ _ _ _ _ _ _ _ Hsfm' Hb8 Hids1 Hb5 Hrw Hout)
    as (HV & Hsout & Hsr & Hsd & Hsw & Hrep).
  exists ids0, m0, fm, out. split_and!; try done; try congruence.
  - destruct mi as [l|].
    + destruct Hres as [-> ->]. done.
    + destruct Hres as (-> & p & b & -> & Hb & ->). split; [done|].
      exists p. split; [done|]. rewrite lookup_insert_eq in Hm0. congruence.
  - by rewrite lookup_insert_ne.
  - by rewrite lookup_insert_eq.
  - intros l Hl1 Hl2 Hl3. rewrite lookup_insert_ne by done.
    rewrite Hfr1, Hfr by done. done.
  - intros i j x Hx. destruct (Hclr i j x Hx) as (b & Hb & Hf).
    exists b. split; [done|]. simpl.
    destruct (Hrep i j _ _ (Hppre i j x _ Hx Hf) Hf) as (? & ? & ? & ?).
    done.
  - intros t Ht Hti. destruct (Htgt t Ht Hti) as (Hts & lab0 & lab & H1 & H2 & ?).
    split; [done|]. exists lab0, lab.
    rewrite lookup_insert_ne by done. rewrite <- Hfr by done. done.
Qed.

End MaskFacts.

(** ** The masking routine *)

Section MaskClaims.
Variable tok : tokenizer_ids.
Implicit Types (h : gmap positive tval) (ω : mask_draws).
Implicit Types (ids lab : list (list Z)) (m : list (list bool)).

Lemma mask_Some input_ids V targets mi pm ω h res h' :
  mask tok input_ids V targets mi pm ω h = Some (res, h')
  ↔ ∃ lc, mask_body tok input_ids V targets mi pm ω h = Some (lc, res, h').
Proof.
  unfold mask. rewrite bind_Some. split.
  - intros ([lc res'] & h1 & Hb & [= <- <-]%ret_Some). by exists lc.
  - intros [lc Hb]. by exists (lc, res), h'.
Qed.

Lemma cleared_special x b :
  x = pad_token_id tok ∨ x = cls_token_id tok → cleared tok x b = false.
Proof.
  unfold cleared. intros [-> | ->]; rewrite Z.eqb_refl; simpl.
  - by rewrite andb_false_r.
  - by rewrite andb_false_r.
Qed.

(** C3. A position that holds the padding id or the classification id is
    never masked, whatever the random draws and whether the mask was drawn
    or supplied: its bit of [masked_indices] is cleared, it belongs neither
    to [indices_replaced] nor to [indices_random], its label (when labels
    are requested) is [-100], and its token id is the one on entry (when
    the labels are not written into the very tensor of the ids). *)
Theorem mask_spares_pad_and_cls input_ids V targets mi pm ω h lc res h'
    ids0 i j x :
  mask_body tok input_ids V targets mi pm ω h = Some (lc, res, h') →
  h !! input_ids = Some (TLong ids0) →
  tget ids0 i j = Some x →
  x = pad_token_id tok ∨ x = cls_token_id tok →
  (∃ fm, h' !! masked_indices lc = Some (TBool fm)
         ∧ tget fm i j = Some false)
  ∧ tget (indices_replaced lc) i j = Some false
  ∧ tget (indices_random lc) i j = Some false
  ∧ (∀ t, targets = Some t →
       ∃ lab, h' !! t = Some (TLong lab) ∧ tget lab i j = Some (-100)%Z)
  ∧ (targets ≠ Some input_ids →
       ∃ out, h' !! input_ids = Some (TLong out) ∧ tget out i j = Some x).
Proof.
  intros Hm Hh Hx Hsp.
  destruct (mask_body_inv _ _ _ _ _ _ _ _ _ _ _ Hm)
    as (ids0' & m0 & fm & out & Hh' & _ & _ & _ & _ & _ & Hsfm & _ & _ & _ & _
        & Hfm & Hout & _ & Hpt & Htg).
  rewrite Hh in Hh'. injection Hh' as <-.
  destruct (Hpt i j x Hx) as (b & Hb & Hf & Hr & Hd & _ & Ho).
  rewrite (cleared_special x b Hsp) in *.
  assert (Hrf : replaced ω i j false = false).
  { unfold replaced. apply andb_false_r. }
  assert (Hdf : randomized ω i j false = false).
  { unfold randomized. by rewrite andb_false_r. }
  unfold corrupted in Ho. rewrite Hrf, Hdf in *.
  split_and!; [by exists fm | done | done | |].
  - intros t Ht. destruct (decide (t = input_ids)) as [->|Hne].
    + exists out. split; [done|]. by rewrite decide_True in Ho.
    + destruct (Htg t Ht Hne) as (_ & lab0 & lab & Hl0 & Hl & Hs0 & _ & Hpl).
      exists lab. split; [done|].
      destruct (tget_same_shape ids0 lab0 i j) as [y Hy];
        [congruence | by eexists |].
      destruct (Hpl i j y Hy) as (f & Hf' & ->).
      rewrite Hf in Hf'. by injection Hf' as <-.
  - intros Hna. exists out. split; [done|]. by rewrite decide_False in Ho.
Qed.

(** C4. Whatever the random draws, no position belongs to both
    [indices_replaced] and [indices_random], and a position of either
    belongs to the (force-cleared) [masked_indices]. *)
Theorem mask_replaced_random_disjoint input_ids V targets mi pm ω h lc res h' :
  mask_body tok input_ids V targets mi pm ω h = Some (lc, res, h') →
  ∃ fm, h' !! masked_indices lc = Some (TBool fm)
    ∧ ∀ i j,
        ¬ (tget (indices_replaced lc) i j = Some true
           ∧ tget (indices_random lc) i j = Some true)
        ∧ (tget (indices_replaced lc) i j = Some true → tget fm i j = Some true)
        ∧ (tget (indices_random lc) i j = Some true → tget fm i j = Some true).
Proof.
  intros Hm.
  destruct (mask_body_inv _ _ _ _ _ _ _ _ _ _ _ Hm)
    as (ids0 & m0 & fm & out & Hh' & _ & _ & _ & _ & _ & Hsfm & _ & Hsr & Hsd
        & _ & Hfm & _ & _ & Hpt & _).
  exists fm. split; [done|]. intros i j.
  assert (Hin : ∀ (t : list (list bool)),
            shape t = shape ids0 → tget t i j = Some true →
            ∃ x, tget ids0 i j = Some x).
  { intros t Hs Ht. apply (tget_same_shape t ids0); [done | by eexists]. }
  split_and!.
  - intros [Hr Hd]. destruct (Hin _ Hsr Hr) as [x Hx].
    destruct (Hpt i j x Hx) as (b & _ & _ & Hr' & Hd' & _).
    rewrite Hr in Hr'. rewrite Hd in Hd'.
    injection Hr' as Hr'. injection Hd' as Hd'.
    unfold randomized in Hd'. rewrite <- Hr' in Hd'.
    by rewrite andb_false_r in Hd'.
  - intros Hr. destruct (Hin _ Hsr Hr) as [x Hx].
    destruct (Hpt i j x Hx) as (b & _ & Hf & Hr' & _).
    rewrite Hr in Hr'. injection Hr' as Hr'. unfold replaced in Hr'.
    symmetry in Hr'. apply andb_true_iff in Hr' as [_ Hr']. by rewrite Hf, Hr'.
  - intros Hd. destruct (Hin _ Hsd Hd) as [x Hx].
    destruct (Hpt i j x Hx) as (b & _ & Hf & _ & Hd' & _).
    rewrite Hd in Hd'. injection Hd' as Hd'. unfold randomized in Hd'.
    symmetry in Hd'. apply andb_true_iff in Hd' as [Hd' _].
    apply andb_true_iff in Hd' as [_ Hd']. by rewrite Hf, Hd'.
Qed.

End MaskClaims.

(** ** The masking routine returns *)

Section MaskTotal.
Variable tok : tokenizer_ids.
Implicit Types (h : gmap positive tval) (ω : mask_draws).

Lemma bind_run {A B} (m : M A) (f : A → M B) h a h1 :
  m h = Some (a, h1) → (m ≫= f) h = f a h1.
Proof. intros Hm. unfold mbind, M_bind. by rewrite Hm. Qed.

Lemma load_long_run l h t : h !! l = Some (TLong t) → load_long l h = Some (t, h).
Proof. intros Hl. unfold load_long. by rewrite Hl. Qed.

Lemma load_bool_run l h t : h !! l = Some (TBool t) → load_bool l h = Some (t, h).
Proof. intros Hl. unfold load_bool. by rewrite Hl. Qed.

Lemma lift_run {A} (o : option A) h a : o = Some a → lift o h = Some (a, h).
Proof. by intros ->. Qed.

(** Well-formed arguments: the ids are an integer tensor, the labels (if
    any) and the mask (if supplied) have its shape, the probabilities (if
    the mask is drawn) have its shape and lie in [0, 1], and the vocabulary
    is not empty. *)
Lemma mask_body_total input_ids V targets mi pm ω h ids0 :
  h !! input_ids = Some (TLong ids0) →
  (0 < V)%Z →
  match targets with
  | Some t => ∃ lab0, h !! t = Some (TLong lab0) ∧ shape lab0 = shape ids0
  | None => True
  end →
  match mi with
  | Some l => ∃ m0, h !! l = Some (TBool m0) ∧ shape m0 = shape ids0
  | None => ∃ p, pm = Some p ∧ shape p = shape ids0
                 ∧ forallb (forallb is_prob) p = true
  end →
  is_Some (mask_body tok input_ids V targets mi pm ω h).
Proof.
  intros Hids HV Htg Hmi. unfold mask_body.
  (* the mask is resolved *)
  assert (∃ mloc h0 m0,
    match mi with
    | Some l => mret l
    | None => p ← lift pm; b ← lift (bernoulli p (u_masked ω)); alloc (TBool b)
    end h = Some (mloc, h0)
    ∧ h0 !! mloc = Some (TBool m0) ∧ shape m0 = shape ids0
    ∧ ∀ l v, h !! l = Some (TLong v) → l ≠ mloc ∧ h0 !! l = Some (TLong v))
    as (mloc & h0 & m0 & Hres & Hm0 & Hsm0 & Hfr).
  { destruct mi as [l|].
    - destruct Hmi as (m0 & Hl & Hs). exists l, h, m0.
      split_and!; [done..|]. intros l' v Hl'. split; [congruence | done].
    - destruct Hmi as (p & -> & Hs & Hp).
      exists (fresh (dom h)), (<[fresh (dom h) := TBool (tzip Qltb (tabulate (u_masked ω) (shape p)) p)]> h), (tzip Qltb (tabulate (u_masked ω) (shape p)) p).
      split_and!.
      + rewrite (bind_run _ _ _ p h) by done.
        erewrite bind_run; [| apply lift_run; unfold bernoulli; by rewrite Hp].
        done.
      + apply lookup_insert_eq.
      + rewrite shape_tzip; rewrite shape_tabulate; done.
      + intros l v Hl.
        assert (l ≠ fresh (dom h)) as Hne.
        { intros ->. by rewrite fresh_lookup in Hl. }
        split; [done|]. by rewrite lookup_insert_ne. }
  rewrite (bind_run _ _ _ _ _ Hres).
  destruct (Hfr _ _ Hids) as [Hne Hids0].
  (* the two force-clears *)
  rewrite (bind_run _ _ _ _ _ (load_long_run _ _ _ Hids0)).
  rewrite (bind_run _ _ _ _ _ (load_bool_run _ _ _ Hm0)).
  destruct (index_put_total m0 (teq ids0 (pad_token_id tok)) false)
    as [m1 Hm1]; [by unfold teq; rewrite shape_tmap|].
  rewrite (bind_run _ _ _ _ _ (lift_run _ _ _ Hm1)).
  erewrite bind_run; [|reflexivity].
  erewrite bind_run;
    [|apply load_long_run; by rewrite lookup_insert_ne by done].
  erewrite bind_run; [|apply load_bool_run, lookup_insert_eq].
  pose proof (index_put_Some _ _ _ _ Hm1) as (_ & Hsm1 & _).
  destruct (index_put_total m1 (teq ids0 (cls_token_id tok)) false)
    as [fm Hfm]; [unfold teq; rewrite shape_tmap; congruence|].
  rewrite (bind_run _ _ _ _ _ (lift_run _ _ _ Hfm)).
  erewrite bind_run; [|reflexivity].
  pose proof (index_put_Some _ _ _ _ Hfm) as (_ & Hsfm & _).
  rewrite insert_insert_eq.
  (* the labels *)
  assert (∃ h1 pre,
    match targets with
    | Some t =>
        lab ← load_long t; m ← load_bool mloc;
        lab ← lift (index_put lab (tnot m) (-100)%Z); store t (TLong lab)
    | None => mret ()
    end (<[mloc:=TBool fm]> h0) = Some ((), h1)
    ∧ h1 !! input_ids = Some (TLong pre) ∧ shape pre = shape ids0
    ∧ h1 !! mloc = Some (TBool fm)) as (h1 & pre & Hlab & Hpre & Hspre & Hfm1).
  { destruct targets as [t|].
    - destruct Htg as (lab0 & Hl0 & Hs0). destruct (Hfr _ _ Hl0) as [Hnt Hl0'].
      destruct (index_put_total lab0 (tnot fm) (-100)%Z) as [lab Hl];
        [unfold tnot; rewrite shape_tmap; congruence|].
      pose proof (index_put_Some _ _ _ _ Hl) as (_ & Hsl & _).
      exists (<[t := TLong lab]> (<[mloc:=TBool fm]> h0)).
      exists (if decide (t = input_ids) then lab else ids0).
      split_and!.
      + erewrite bind_run;
          [|apply load_long_run; by rewrite lookup_insert_ne by done].
        erewrite bind_run; [|apply load_bool_run, lookup_insert_eq].
        rewrite (bind_run _ _ _ _ _ (lift_run _ _ _ Hl)). done.
      + case_decide as Ht.
        * subst t. apply lookup_insert_eq.
        * by rewrite !lookup_insert_ne by done.
      + case_decide; congruence.
      + rewrite lookup_insert_ne by done. apply lookup_insert_eq.
    - exists (<[mloc:=TBool fm]> h0), ids0. split_and!; [done | | done |].
      + by rewrite lookup_insert_ne by done.
      + apply lookup_insert_eq. }
  rewrite (bind_run _ _ _ _ _ Hlab).
  (* the two replacements *)
  rewrite (bind_run _ _ _ _ _ (load_long_run _ _ _ Hpre)).
  destruct (bernoulli_full_total (shape pre) (8 # 10) (u_replaced ω))
    as [b8 Hb8]; [done|].
  rewrite (bind_run _ _ _ _ _ (lift_run _ _ _ Hb8)).
  rewrite (bind_run _ _ _ _ _ (load_bool_run _ _ _ Hfm1)).
  pose proof (bernoulli_Some _ _ _ Hb8) as [Hsb8 _]. rewrite shape_full in Hsb8.
  destruct (index_put_total pre (tand b8 fm) (mask_token_id tok))
    as [ids1 Hids1]; [unfold tand; rewrite shape_tzip; congruence|].
  rewrite (bind_run _ _ _ _ _ (lift_run _ _ _ Hids1)).
  pose proof (index_put_Some _ _ _ _ Hids1) as (Hsr & Hsids1 & _).
  erewrite bind_run; [|reflexivity].
  erewrite bind_run; [|apply load_long_run, lookup_insert_eq].
  destruct (bernoulli_full_total (shape ids1) (5 # 10) (u_random ω))
    as [b5 Hb5]; [done|].
  rewrite (bind_run _ _ _ _ _ (lift_run _ _ _ Hb5)).
  erewrite bind_run;
    [|apply load_bool_run; rewrite lookup_insert_ne by done; exact Hfm1].
  pose proof (bernoulli_Some _ _ _ Hb5) as [Hsb5 _]. rewrite shape_full in Hsb5.
  assert (Hrw : randint V (shape ids1) (word ω)
                = Some (tabulate (word ω) (shape ids1))).
  { unfold randint. by apply Z.ltb_lt in HV as ->. }
  rewrite (bind_run _ _ _ _ _ (lift_run _ _ _ Hrw)).
  destruct (index_copy_total ids1
              (tand (tand b5 fm) (tnot (tand b8 fm)))
              (tabulate (word ω) (shape ids1))) as [out Hout].
  { unfold tand at 1 2, tnot.
    rewrite !shape_tzip; rewrite ?shape_tmap, ?shape_tzip; congruence. }
  { apply shape_tabulate. }
  rewrite (bind_run _ _ _ _ _ (lift_run _ _ _ Hout)).
  erewrite bind_run; [|reflexivity]. done.
Qed.

End MaskTotal.

Section MaskClaims2.
Variable tok : tokenizer_ids.
Implicit Types (h : gmap positive tval) (ω : mask_draws).

(** C5, amended. When labels are requested in a tensor other than that of
    the ids, a position outside the force-cleared mask gets the label
    [-100] and a masked position keeps the label it had on entry, which is
    its original token id when the labels were passed as a copy of the
    ids; the call returns the ids together with the labels, and the ids
    alone when no labels are requested. *)
Theorem mask_labels input_ids V targets mi pm ω h lc res h' ids0 :
  mask_body tok input_ids V targets mi pm ω h = Some (lc, res, h') →
  h !! input_ids = Some (TLong ids0) →
  mask tok input_ids V targets mi pm ω h = Some (res, h')
  ∧ res = (input_ids, targets)
  ∧ ∀ t, targets = Some t → t ≠ input_ids →
      ∃ lab0 lab fm,
        h !! t = Some (TLong lab0)
        ∧ h' !! t = Some (TLong lab)
        ∧ h' !! masked_indices lc = Some (TBool fm)
        ∧ shape lab = shape ids0 ∧ shape fm = shape ids0
        ∧ (∀ i j y, tget lab0 i j = Some y →
             (tget fm i j = Some false ∧ tget lab i j = Some (-100)%Z)
             ∨ (tget fm i j = Some true ∧ tget lab i j = Some y))
        ∧ (lab0 = ids0 →
           ∀ i j x, tget ids0 i j = Some x → tget fm i j = Some true →
             tget lab i j = Some x).
Proof.
  intros Hm Hh. split; [apply mask_Some; by exists lc|].
  destruct (mask_body_inv _ _ _ _ _ _ _ _ _ _ _ Hm)
    as (ids0' & m0 & fm & out & Hh' & _ & _ & Hres & _ & _ & Hsfm & _ & _ & _ & _
        & Hfm & _ & _ & _ & Htg).
  rewrite Hh in Hh'. injection Hh' as <-. split; [done|].
  intros t Ht Hne.
  destruct (Htg t Ht Hne) as (_ & lab0 & lab & Hl0 & Hl & Hs0 & Hs & Hpl).
  exists lab0, lab, fm. split_and!; try done.
  - intros i j y Hy. destruct (Hpl i j y Hy) as ([] & Hf & Hlab); eauto.
  - intros -> i j x Hx Hf. destruct (Hpl i j x Hx) as (f & Hf' & ->).
    rewrite Hf in Hf'. by injection Hf' as <-.
Qed.

(** C6. At a position of [indices_random] the id on return is the word
    that [torch.randint(vocab_size, shape)] drew there, whatever it is;
    and every id [w] of [[0, vocab_size)] is the outcome of some draws at
    any position that can be masked: among them the id that the position
    held on entry and the id of the mask token. *)
Theorem mask_random_word_unrestricted :
  (∀ input_ids V targets mi pm ω h lc res h' i j,
     mask_body tok input_ids V targets mi pm ω h = Some (lc, res, h') →
     tget (indices_random lc) i j = Some true →
     tget (random_words lc) i j = Some (word ω i j)
     ∧ ∃ out, h' !! input_ids = Some (TLong out)
              ∧ tget out i j = Some (word ω i j))
  ∧ (∀ input_ids V targets h ids0 q i j x,
       h !! input_ids = Some (TLong ids0) →
       (0 < V)%Z →
       match targets with
       | Some t => ∃ lab0, h !! t = Some (TLong lab0) ∧ shape lab0 = shape ids0
       | None => True
       end →
       (0 < q)%Q → (q <= 1)%Q →
       tget ids0 i j = Some x →
       x ≠ pad_token_id tok → x ≠ cls_token_id tok →
       let reachable w :=
         ∃ ω lc res h' out,
           valid_draws V ω
           ∧ mask_body tok input_ids V targets None
                       (Some (full (shape ids0) q)) ω h = Some (lc, res, h')
           ∧ tget (indices_random lc) i j = Some true
           ∧ h' !! input_ids = Some (TLong out)
           ∧ tget out i j = Some w in
       (∀ w, (0 ≤ w < V)%Z → reachable w)
       ∧ ((0 ≤ x < V)%Z → reachable x)
       ∧ ((0 ≤ mask_token_id tok < V)%Z → reachable (mask_token_id tok))).
Proof.
  split.
  - intros input_ids V targets mi pm ω h lc res h' i j Hm Hd.
    destruct (mask_body_inv _ _ _ _ _ _ _ _ _ _ _ Hm)
      as (ids0 & m0 & fm & out & Hh & _ & _ & _ & _ & _
          & _ & _ & _ & Hsd & _ & _ & Hout & _ & Hpt & _).
    destruct (tget_same_shape (indices_random lc) ids0 i j) as [x Hx];
      [done | by eexists |].
    destruct (Hpt i j x Hx) as (b & _ & _ & _ & Hd' & Hw & Ho).
    rewrite Hd in Hd'. injection Hd' as Hd'.
    split; [done|]. exists out. split; [done|].
    unfold corrupted in Ho. rewrite <- Hd' in Ho.
    destruct (replaced ω i j (cleared tok x b)) eqn:Hr; [|done].
    unfold randomized in Hd'. rewrite Hr in Hd'.
    by rewrite andb_false_r in Hd'.
  - intros input_ids V targets h ids0 q i j x Hh HV Htg Hq0 Hq1 Hx Hpad Hcls
      reachable.
    assert (Hany : ∀ w, (0 ≤ w < V)%Z → reachable w).
    { intros w Hw.
      set (ω' := {| u_masked := λ _ _, 0%Q; u_replaced := λ _ _, (9 # 10)%Q;
                    u_random := λ _ _, 0%Q; word := λ _ _, w |}).
      assert (Hp : forallb (forallb is_prob) (full (shape ids0) q) = true).
      { apply forallb_forall. intros row [n [<- _]]%in_map_iff.
        apply forallb_forall. intros y Hy%list_elem_of_In%elem_of_replicate.
        destruct Hy as [-> _]. unfold is_prob.
        apply andb_true_iff. split; apply Qle_bool_iff; [|done].
        by apply Qlt_le_weak. }
      destruct (mask_body_total tok input_ids V targets None
                  (Some (full (shape ids0) q)) ω' h ids0) as [[[lc res] h'] Hm];
        [done | done | done | |].
      { eexists. split_and!; [done | apply shape_full | done]. }
      destruct (mask_body_inv _ _ _ _ _ _ _ _ _ _ _ Hm)
        as (ids0' & m0 & fm & out & Hh' & (_ & p & [= <-] & Hb) & _ & _ & _ & _
            & _ & _ & _ & _ & _ & _ & Hout & _ & Hpt & _).
      rewrite Hh in Hh'. injection Hh' as <-.
      destruct (Hpt i j x Hx) as (b & Hb0 & _ & _ & Hd & _ & Ho).
      apply bernoulli_Some in Hb as [_ Hb]. rewrite Hb in Hb0.
      rewrite tget_full in Hb0.
      destruct (proj1 (tget_shape ids0 i j)) as (n & Hn & Hj); [by eexists|].
      rewrite Hn in Hb0. simpl in Hb0. rewrite decide_True in Hb0 by done.
      injection Hb0 as <-.
      assert (Hb1 : Qltb 0 q = true).
      { unfold Qltb. apply negb_true_iff. apply not_true_iff_false.
        intros Hle%Qle_bool_iff. by apply Qle_not_lt in Hle. }
      assert (Hc : cleared tok x (Qltb 0 q) = true).
      { unfold cleared. rewrite Hb1. simpl.
        apply Z.eqb_neq in Hpad as ->. by apply Z.eqb_neq in Hcls as ->. }
      rewrite Hc in Hd, Ho.
      assert (Hr : replaced ω' i j true = false) by done.
      assert (Hr' : randomized ω' i j true = true) by done.
      unfold corrupted in Ho. rewrite Hr, Hr' in *.
      exists ω', lc, res, h', out. split_and!; done. }
    split_and!; [done | by intros; apply Hany | by intros; apply Hany].
Qed.

End MaskClaims2.

(** ** Real-valued vectors *)

Section NumericFacts.
Local Open Scope R_scope.
Implicit Types (w row : list R).

Lemma clamp_bounds x lo hi : lo <= hi → lo <= clamp x lo hi <= hi.
Proof.
  intros Hlh. unfold clamp. split.
  - apply Rmin_glb; [apply Rmax_r | done].
  - apply Rmin_r.
Qed.

Lemma rsum_cons x w : rsum (x :: w) = x + rsum w.
Proof. done. Qed.

Lemma rsum_nonneg w : Forall (λ x, 0 <= x) w → 0 <= rsum w.
Proof.
  induction 1 as [|x w Hx _ IH]; [apply Rle_refl |].
  rewrite rsum_cons. cbv beta in Hx. lra.
Qed.

Lemma rsum_lookup_le w k x :
  Forall (λ x, 0 <= x) w → w !! k = Some x → x <= rsum w.
Proof.
  intros Hw. revert k. induction Hw as [|y w Hy Hw IH]; intros [|k] Hk;
    try done; rewrite rsum_cons.
  - injection Hk as ->. pose proof (rsum_nonneg w Hw). cbv beta in Hy. lra.
  - specialize (IH k Hk). cbv beta in Hy. lra.
Qed.

Lemma rsum_exp_pos row : row ≠ [] → 0 < rsum (exp <$> row).
Proof.
  intros Hne. destruct row as [|x row]; [done|].
  rewrite fmap_cons, rsum_cons.
  assert (0 <= rsum (exp <$> row)).
  { apply rsum_nonneg, Forall_fmap, Forall_forall. intros y _. simpl.
    apply Rlt_le, exp_pos. }
  pose proof (exp_pos x). lra.
Qed.

Lemma length_softmax row : length (softmax row) = length row.
Proof. unfold softmax. by rewrite length_fmap. Qed.

Lemma softmax_lookup row k x :
  row !! k = Some x →
  softmax row !! k = Some (exp x / rsum (exp <$> row))
  ∧ 0 < exp x / rsum (exp <$> row).
Proof.
  intros Hk. unfold softmax. rewrite list_lookup_fmap, Hk. split; [done|].
  apply Rdiv_lt_0_compat; [apply exp_pos|].
  apply rsum_exp_pos. by intros ->.
Qed.

Lemma softmax_pos row : Forall (λ x, 0 < x) (softmax row).
Proof.
  apply Forall_lookup. intros k y Hk.
  destruct (row !! k) as [x|] eqn:Hx.
  - destruct (softmax_lookup row k x Hx) as [Hs Hp]. congruence.
  - apply lookup_ge_None in Hx. apply lookup_lt_Some in Hk.
    rewrite length_softmax in Hk. lia.
Qed.

(** [log_softmax] is the logarithm of [softmax]. *)
Lemma log_softmax_ln row k y :
  softmax row !! k = Some y →
  log_softmax row !! k = Some (ln y).
Proof.
  unfold softmax, log_softmax. rewrite !list_lookup_fmap.
  destruct (row !! k) as [x|] eqn:Hx; [|done]. simpl. intros [= <-].
  f_equal. unfold Rdiv. rewrite ln_mult, ln_Rinv, ln_exp.
  - lra.
  - apply rsum_exp_pos. by intros ->.
  - apply exp_pos.
  - apply Rinv_0_lt_compat, rsum_exp_pos. by intros ->.
Qed.

(** The index that [pick] returns carries a positive weight. *)
Lemma pick_positive w t :
  Forall (λ x, 0 <= x) w → 0 <= t < rsum w →
  ∃ x, w !! pick w t = Some x ∧ 0 < x.
Proof.
  intros Hw. revert t. induction Hw as [|y w Hy Hw IH]; intros t Ht.
  - unfold rsum in Ht. simpl in Ht. lra.
  - rewrite rsum_cons in Ht. cbv beta in Hy. simpl.
    destruct (Rlt_dec t y) as [Hlt|Hge].
    + exists y. split; [done | lra].
    + apply (IH (t - y)). lra.
Qed.

Lemma multinomial_Some w u k :
  multinomial w u = Some k → 0 <= u < 1 →
  ∃ x, w !! k = Some x ∧ 0 < x.
Proof.
  unfold multinomial. case_decide as Hd; [|done]. intros [= <-] Hu.
  destruct Hd as [Hw Hs]. apply pick_positive; [done|]. split.
  - apply Rmult_le_pos; lra.
  - rewrite <- (Rmult_1_l (rsum w)) at 2. apply Rmult_lt_compat_r; lra.
Qed.

Lemma multinomial_total w u :
  Forall (λ x, 0 <= x) w → 0 < rsum w → is_Some (multinomial w u).
Proof. intros Hw Hs. unfold multinomial. by rewrite decide_True. Qed.

Lemma multinomial_positive_sum w u k : multinomial w u = Some k → 0 < rsum w.
Proof. unfold multinomial. case_decide as Hd; [|done]. by destruct Hd. Qed.

(** A row of the sampling weights: the softmax with entry [b] zeroed. *)
Lemma zeroed_nonneg row (b : nat) : Forall (λ x, 0 <= x) (<[b := 0]> (softmax row)).
Proof.
  apply Forall_insert; [|apply Rle_refl].
  eapply Forall_impl; [apply softmax_pos|]. intros x Hx. simpl in *. lra.
Qed.

Lemma zeroed_positive_sum row (b k : nat) :
  (k < length row)%nat → k ≠ b → 0 < rsum (<[b := 0]> (softmax row)).
Proof.
  intros Hk Hne.
  destruct (lookup_lt_is_Some_2 row k Hk) as [x Hx].
  destruct (softmax_lookup row k x Hx) as [Hs Hp].
  eapply Rlt_le_trans; [exact Hp|].
  apply (rsum_lookup_le _ k); [apply zeroed_nonneg|].
  by rewrite list_lookup_insert_ne.
Qed.

Lemma zeroed_single row : (length row ≤ 1)%nat → rsum (<[0%nat := 0]> row) = 0.
Proof.
  destruct row as [|x [|y row]]; simpl; intros Hl;
    [unfold rsum; simpl; lra | unfold rsum; simpl; lra | lia].
Qed.

End NumericFacts.

(** ** The training step *)

Section ForwardFacts.
Context `{Backbone}.
Local Open Scope R_scope.
Implicit Types (h : gmap positive tval).

Lemma fmap_zip_with' {A B C D} (f : C → D) (g : A → B → C) l k :
  f <$> zip_with g l k = zip_with (λ x y, f (g x y)) l k.
Proof.
  revert k. induction l as [|x l IH]; intros [|y k]; try done.
  cbn. by rewrite IH.
Qed.

(** What a successful run of [forward] determines, local by local. *)
Lemma forward_inv self samples ω h self' lcs out h' :
  forward self samples ω h = Some (self', lcs, out, h') →
  let bs := length (image samples) in
  let ids0 := tokenized_ids self samples in
  let tl := fresh (dom h) in
  let h1 := <[tl := TLong ids0]> h in
  let il := fresh (dom h1) in
  let h2 := <[il := TLong ids0]> h1 in
  let ll := fresh (dom h2) in
  let h3 := <[ll := TLong ids0]> h2 in
  (∃ r, _rampup_factor (epoch samples) (iters samples)
                       (num_iters_per_epoch samples) = Some r
        ∧ l_alpha lcs = alpha self * Q2R r)
  ∧ (l_temp lcs = clamp (temp self) 0.001 0.5 ∧ temp self' = l_temp lcs
     ∧ text_encoder self' = text_encoder self
     ∧ itm_head self' = itm_head self)
  ∧ (l_sim_i2t_m lcs
       = mdiv (matmul (l_image_feat_m lcs) (l_text_feat_all lcs)) (l_temp lcs)
     ∧ l_sim_t2i_m lcs
       = mdiv (matmul (l_text_feat_m lcs) (l_image_feat_all lcs)) (l_temp lcs)
     ∧ l_sim_i2t lcs
       = mdiv (matmul (l_image_feat lcs) (l_text_feat_all lcs)) (l_temp lcs)
     ∧ l_sim_t2i lcs
       = mdiv (matmul (l_text_feat lcs) (l_image_feat_all lcs)) (l_temp lcs))
  ∧ (length (l_image_feat lcs) = bs ∧ length (l_image_feat_m lcs) = bs
     ∧ length (l_text_feat lcs) = length (text_input samples)
     ∧ length (l_text_feat_m lcs) = length (text_input samples)
     ∧ l_image_feat_all lcs = l_image_feat_m lcs ++ image_queue self
     ∧ l_text_feat_all lcs = l_text_feat_m lcs ++ text_queue self)
  ∧ (l_sim_targets lcs = fill_diagonal (zeros_like (l_sim_i2t_m lcs)) 1
     ∧ madd (mscale (l_alpha lcs) (softmax <$> l_sim_i2t_m lcs))
            (mscale (1 - l_alpha lcs) (l_sim_targets lcs))
       = Some (l_sim_i2t_targets lcs)
     ∧ madd (mscale (l_alpha lcs) (softmax <$> l_sim_t2i_m lcs))
            (mscale (1 - l_alpha lcs) (l_sim_targets lcs))
       = Some (l_sim_t2i_targets lcs))
  ∧ (l_loss_i2t lcs = soft_cross_entropy (l_sim_i2t lcs) (l_sim_i2t_targets lcs)
     ∧ l_loss_t2i lcs
       = soft_cross_entropy (l_sim_t2i lcs) (l_sim_t2i_targets lcs)
     ∧ loss_ita out = (l_loss_i2t lcs + l_loss_t2i lcs) / 2
     ∧ loss out = loss_ita out + loss_itm out + loss_mlm out)
  ∧ (l_bs lcs = bs
     ∧ l_weights_i2t lcs
       = fill_diagonal (softmax <$> (take bs <$> l_sim_i2t lcs)) 0
     ∧ l_weights_t2i lcs
       = fill_diagonal (softmax <$> (take bs <$> l_sim_t2i lcs)) 0
     ∧ mapM (draw_negative (l_weights_t2i lcs) (u_neg_image ω)) (seq 0 bs)
       = Some (l_neg_image lcs)
     ∧ mapM (draw_negative (l_weights_i2t lcs) (u_neg_text ω)) (seq 0 bs)
       = Some (l_neg_text lcs))
  ∧ (l_image_embeds lcs = vit (visual_encoder self) <$> image samples
     ∧ l_attention_mask lcs = tokenized_mask self samples
     ∧ l_text_embeds lcs
       = zip_with (bert_text (text_encoder self)) ids0 (l_attention_mask lcs))
  ∧ (∃ image_embeds_neg text_embeds_neg text_atts_neg,
       mapM (λ k, l_image_embeds lcs !! k) (l_neg_image lcs)
       = Some image_embeds_neg
       ∧ mapM (λ k, l_text_embeds lcs !! k) (l_neg_text lcs)
         = Some text_embeds_neg
       ∧ mapM (λ k, l_attention_mask lcs !! k) (l_neg_text lcs)
         = Some text_atts_neg
       ∧ image_embeds_neg ≠ []
       ∧ l_vl_embeddings lcs
         = zip_with (fused self)
             (zip (l_text_embeds lcs) (l_attention_mask lcs))
             (l_image_embeds lcs)
           ++ zip_with (fused self)
                (zip (l_text_embeds lcs ++ text_embeds_neg)
                     (l_attention_mask lcs ++ text_atts_neg))
                (image_embeds_neg ++ l_image_embeds lcs))
  ∧ (l_itm_labels lcs = replicate bs 1%Z ++ replicate (2 * bs) 0%Z
     ∧ cross_entropy
         ((λ e, let o := linear2 (itm_head self) e in [o.1; o.2])
            <$> l_vl_embeddings lcs)
         (l_itm_labels lcs)
       = Some (loss_itm out))
  ∧ (l_text_input_ids lcs = tl ∧ l_input_ids lcs = il ∧ l_labels lcs = ll
     ∧ mask tok il vocab_size (Some ll) None
            (Some (full (shape ids0) (mlm_probability self))) (mlm_draws ω) h3
       = Some ((il, Some ll), h')).
Proof.
  intros Hf. unfold forward in Hf.
  apply bind_Some in Hf as (r & ? & [Hr ->]%lift_Some & Hf).
  apply bind_Some in Hf as (tl & ? & [-> ->]%alloc_Some & Hf).
  apply bind_Some in Hf as (ids & ? & [Hids ->]%load_long_Some & Hf).
  rewrite lookup_insert_eq in Hids. injection Hids as <-.
  apply bind_Some in Hf as (ids' & ? & [Hids' ->]%load_long_Some & Hf).
  rewrite lookup_insert_eq in Hids'. injection Hids' as <-.
  apply bind_Some in Hf as (ti2t & ? & [Hti2t ->]%lift_Some & Hf).
  apply bind_Some in Hf as (tt2i & ? & [Htt2i ->]%lift_Some & Hf).
  apply bind_Some in Hf as (neg_image & ? & [Hni ->]%lift_Some & Hf).
  apply bind_Some in Hf as (ien & ? & [Hien ->]%lift_Some & Hf).
  apply bind_Some in Hf as (ien' & ? & [Hien' ->]%lift_Some & Hf).
  apply bind_Some in Hf as (neg_text & ? & [Hnt ->]%lift_Some & Hf).
  apply bind_Some in Hf as (ten & ? & [Hten ->]%lift_Some & Hf).
  apply bind_Some in Hf as (tan & ? & [Htan ->]%lift_Some & Hf).
  apply bind_Some in Hf as (ten' & ? & [Hten' ->]%lift_Some & Hf).
  apply bind_Some in Hf as (tan' & ? & [Htan' ->]%lift_Some & Hf).
  apply bind_Some in Hf as (litm & ? & [Hitm ->]%lift_Some & Hf).
  apply bind_Some in Hf as (iloc & h2 & Hcl1 & Hf).
  apply bind_Some in Hf as (lloc & h3 & Hcl2 & Hf).
  apply bind_Some in Hf as (lab & ? & [Hlab ->]%load_long_Some & Hf).
  apply bind_Some in Hf as ([iloc' [lloc'|]] & h4 & Hmask & Hf); [|done].
  apply bind_Some in Hf as (ids2 & ? & [Hids2 ->]%load_long_Some & Hf).
  apply bind_Some in Hf as (lab2 & ? & [Hlab2 ->]%load_long_Some & Hf).
  apply ret_Some in Hf. injection Hf as -> -> -> ->.
  (* the two clones *)
  unfold clone in Hcl1, Hcl2.
  apply bind_Some in Hcl1 as (c1 & ? & [Hc1 ->]%load_long_Some & Hcl1).
  rewrite lookup_insert_eq in Hc1. injection Hc1 as <-.
  apply alloc_Some in Hcl1 as [-> ->].
  apply bind_Some in Hcl2 as (c2 & ? & [Hc2 ->]%load_long_Some & Hcl2).
  rewrite lookup_insert_eq in Hc2. injection Hc2 as <-.
  apply alloc_Some in Hcl2 as [-> ->].
  rewrite lookup_insert_eq in Hlab. injection Hlab as <-.
  assert (ien' = ien ∧ ien ≠ []) as [-> Hne1].
  { destruct ien; [done|]. by injection Hien' as <-. }
  assert (ten' = ten) as ->.
  { destruct ten; [done|]. by injection Hten' as <-. }
  assert (tan' = tan) as ->.
  { destruct tan; [done|]. by injection Htan' as <-. }
  pose proof Hmask as Hmask'.
  apply mask_Some in Hmask' as [lc Hmb].
  destruct (mask_body_inv _ _ _ _ _ _ _ _ _ _ _ Hmb)
    as (_ & _ & _ & _ & _ & _ & _ & [= -> ->] & _).
  simpl.
  split_and!; try reflexivity; try done.
  - by exists r.
  - by rewrite !length_fmap.
  - by rewrite !length_fmap.
  - rewrite length_fmap, length_zip_with, !length_fmap. lia.
  - rewrite length_fmap, length_zip_with, !length_fmap. lia.
  - exists ien, ten, tan. split_and!; try done.
    by rewrite !fmap_zip_with'.
Qed.
End ForwardFacts.

Section ForwardClaims.
Context `{Backbone}.
Local Open Scope R_scope.
Implicit Types (h : gmap positive tval).



(** A row of the sampling weights. *)
Lemma weights_row (sim : list (list R)) (bs b : nat) row :
  fill_diagonal (softmax <$> (take bs <$> sim)) 0 !! b = Some row →
  ∃ r, sim !! b = Some r ∧ row = <[b := 0]> (softmax (take bs r)).
Proof.
  unfold fill_diagonal. rewrite list_lookup_imap, !list_lookup_fmap.
  destruct (sim !! b) as [r|]; [|done]. simpl. intros [= <-]. by exists r.
Qed.

Lemma draw_negative_Some (sim : list (list R)) (bs b k : nat) u :
  draw_negative (fill_diagonal (softmax <$> (take bs <$> sim)) 0) u b = Some k →
  0 <= u b < 1 →
  k ≠ b ∧ (k < bs)%nat.
Proof.
  unfold draw_negative. intros Hd Hu.
  destruct (_ !! b) as [row|] eqn:Hrow; [|done]. simpl in Hd.
  apply weights_row in Hrow as (r & Hr & ->).
  destruct (multinomial_Some _ _ _ Hd Hu) as (x & Hx & Hpos).
  assert (Hk : (k < length (softmax (take bs r)))%nat).
  { apply lookup_lt_Some in Hx. by rewrite length_insert in Hx. }
  split.
  - intros ->. rewrite list_lookup_insert_eq in Hx by done.
    injection Hx as <-. lra.
  - rewrite length_softmax, length_take in Hk. lia.
Qed.

Lemma draw_negative_single (sim : list (list R)) u :
  draw_negative (fill_diagonal (softmax <$> (take 1 <$> sim)) 0) u 0%nat = None.
Proof.
  unfold draw_negative.
  destruct (_ !! 0%nat) as [row|] eqn:Hrow; [|done]. simpl.
  apply weights_row in Hrow as (r & Hr & ->).
  destruct (multinomial _ _) as [k|] eqn:Hm; [|done].
  apply multinomial_positive_sum in Hm.
  rewrite zeroed_single in Hm; [lra|].
  rewrite length_softmax, length_take. lia.
Qed.

(** C7. The negatives are drawn with the weights
    [softmax(sim[:, :bs])] with the diagonal set to zero, the columns of
    the queue left out; the index drawn for row [b] is never [b] (and lies
    in the batch); a batch of one sample has no candidate, and the call
    raises. *)
Theorem forward_negatives self samples ω h :
  let bs := length (image samples) in
  (∀ self' lcs out h',
     forward self samples ω h = Some (self', lcs, out, h') →
     valid_forward_draws ω →
     l_weights_i2t lcs
     = fill_diagonal (softmax <$> (take bs <$> l_sim_i2t lcs)) 0
     ∧ l_weights_t2i lcs
       = fill_diagonal (softmax <$> (take bs <$> l_sim_t2i lcs)) 0
     ∧ length (l_neg_image lcs) = bs ∧ length (l_neg_text lcs) = bs
     ∧ ∀ b, (b < bs)%nat →
         (∃ k, l_neg_image lcs !! b = Some k
               ∧ draw_negative (l_weights_t2i lcs) (u_neg_image ω) b = Some k
               ∧ k ≠ b ∧ (k < bs)%nat)
         ∧ (∃ k, l_neg_text lcs !! b = Some k
                 ∧ draw_negative (l_weights_i2t lcs) (u_neg_text ω) b = Some k
                 ∧ k ≠ b ∧ (k < bs)%nat))
  ∧ (bs = 1%nat → forward self samples ω h = None).
Proof.
  intros bs. split.
  - intros self' lcs out h' Hf [Hu1 Hu2].
    destruct (forward_inv _ _ _ _ _ _ _ _ Hf)
      as (_ & _ & _ & _ & _ & _ & (_ & Hw1 & Hw2 & Hn1 & Hn2) & _).
    fold bs in Hw1, Hw2, Hn1, Hn2.
    apply mapM_Some in Hn1, Hn2.
    pose proof (Forall2_length _ _ _ Hn1) as Hl1.
    pose proof (Forall2_length _ _ _ Hn2) as Hl2.
    rewrite length_seq in Hl1, Hl2.
    split_and!; try done.
    intros b Hb. split.
    + destruct (lookup_lt_is_Some_2 (l_neg_image lcs) b) as [k Hk]; [lia|].
      exists k. split; [done|].
      assert (Hd : draw_negative (l_weights_t2i lcs) (u_neg_image ω) b = Some k).
      { eapply (Forall2_lookup_lr _ _ _ b b k) in Hn1; [done | | done].
        by apply lookup_seq. }
      split; [done|]. rewrite Hw2 in Hd.
      by apply draw_negative_Some in Hd.
    + destruct (lookup_lt_is_Some_2 (l_neg_text lcs) b) as [k Hk]; [lia|].
      exists k. split; [done|].
      assert (Hd : draw_negative (l_weights_i2t lcs) (u_neg_text ω) b = Some k).
      { eapply (Forall2_lookup_lr _ _ _ b b k) in Hn2; [done | | done].
        by apply lookup_seq. }
      split; [done|]. rewrite Hw1 in Hd.
      by apply draw_negative_Some in Hd.
  - intros Hbs.
    destruct (forward self samples ω h) as [[[[self' lcs] out] h']|] eqn:Hf;
      [|done].
    destruct (forward_inv _ _ _ _ _ _ _ _ Hf)
      as (_ & _ & _ & _ & _ & _ & (_ & _ & Hw2 & Hn1 & _) & _).
    fold bs in Hw2, Hn1. rewrite Hbs in Hw2, Hn1.
    apply mapM_Some in Hn1.
    destruct (l_neg_image lcs) as [|k l]; [by inversion Hn1|].
    apply Forall2_cons_1 in Hn1 as [Hd _].
    rewrite Hw2, draw_negative_single in Hd. done.
Qed.

End ForwardClaims.

(** ** The contrastive and the matching losses *)

Section LossFacts.
Local Open Scope R_scope.
Implicit Types (m a b : list (list R)).

Lemma fill_diagonal_zeros m : fill_diagonal (zeros_like m) 1 = identity_like m.
Proof.
  unfold fill_diagonal, zeros_like, identity_like, tmap.
  apply list_eq. intros i. rewrite !list_lookup_imap, list_lookup_fmap.
  destruct (m !! i) as [row|]; [|done]. simpl. f_equal.
  apply list_eq. intros j.
  rewrite list_lookup_imap, list_lookup_insert, length_fmap, list_lookup_fmap.
  destruct (row !! j) as [x|] eqn:Hx; simpl.
  - apply lookup_lt_Some in Hx.
    destruct (decide (i = j)) as [->|Hne].
    + by rewrite decide_True.
    + rewrite decide_False; [done | by intros [? _]].
  - apply lookup_ge_None in Hx. rewrite decide_False; [done|].
    intros [-> ?]. lia.
Qed.

Lemma identity_like_shape m m' :
  shape m = shape m' → identity_like m = identity_like m'.
Proof.
  unfold identity_like, shape. intros Hs.
  apply list_eq. intros i. rewrite !list_lookup_imap.
  apply (f_equal (λ l, l !! i)) in Hs. rewrite !list_lookup_fmap in Hs.
  destruct (m !! i) as [r|], (m' !! i) as [r'|]; simplify_eq/=; [|done].
  f_equal. apply list_eq. intros j. rewrite !list_lookup_imap.
  destruct (r !! j) as [x|] eqn:Hx, (r' !! j) as [x'|] eqn:Hx'; try done.
  - apply lookup_lt_Some in Hx. apply lookup_ge_None in Hx'. lia.
  - apply lookup_ge_None in Hx. apply lookup_lt_Some in Hx'. lia.
Qed.

Lemma shape_identity_like m : shape (identity_like m) = shape m.
Proof.
  unfold shape, identity_like. apply list_eq. intros i.
  rewrite !list_lookup_fmap, list_lookup_imap.
  destruct (m !! i); [|done]. simpl. by rewrite length_imap.
Qed.

Lemma tzip_tmap {A B A' B' C} (f : A' → B' → C) (g : A → A') (k : B → B')
    (x : list (list A)) (y : list (list B)) :
  tzip f (tmap g x) (tmap k y) = tzip (λ u v, f (g u) (k v)) x y.
Proof.
  unfold tzip, tmap. rewrite zip_with_fmap_l, zip_with_fmap_r.
  apply zip_with_ext; [|done..]. intros rx ry.
  by rewrite zip_with_fmap_l, zip_with_fmap_r.
Qed.

Lemma madd_Some a b c : madd a b = Some c → shape a = shape b ∧ c = tzip Rplus a b.
Proof.
  unfold madd. destruct (same_shape a b) eqn:E; [|done].
  apply same_shape_eq in E. by intros [= <-].
Qed.

Lemma madd_total a b : shape a = shape b → madd a b = Some (tzip Rplus a b).
Proof. intros Hs. unfold madd. by apply same_shape_eq in Hs as ->. Qed.

Lemma shape_fmap_softmax m : shape (softmax <$> m) = shape m.
Proof.
  unfold shape. rewrite <- list_fmap_compose. apply list_fmap_ext.
  intros ? row _. simpl. apply length_softmax.
Qed.

Lemma shape_fill_diagonal m v : shape (fill_diagonal m v) = shape m.
Proof.
  unfold shape, fill_diagonal. apply list_eq. intros i.
  rewrite !list_lookup_fmap, list_lookup_imap.
  destruct (m !! i); [|done]. simpl. by rewrite length_insert.
Qed.

(** The combination computed by [forward] is the soft target. *)
Lemma soft_targets_madd α teacher target_sim t :
  madd (mscale α (softmax <$> teacher))
       (mscale (1 - α) (fill_diagonal (zeros_like target_sim) 1)) = Some t →
  shape teacher = shape target_sim ∧ t = soft_targets α teacher.
Proof.
  intros [Hs ->]%madd_Some. unfold mscale in *.
  rewrite !shape_tmap, shape_fmap_softmax, shape_fill_diagonal in Hs.
  unfold zeros_like in Hs. rewrite shape_tmap in Hs.
  split; [done|]. unfold soft_targets.
  rewrite tzip_tmap, fill_diagonal_zeros.
  by rewrite (identity_like_shape target_sim teacher).
Qed.

Lemma rsum_opp (l : list R) : rsum (Ropp <$> l) = - rsum l.
Proof.
  induction l as [|x l IH]; [unfold rsum; simpl; lra|].
  rewrite fmap_cons, !rsum_cons, IH. lra.
Qed.

Lemma mean_opp (l : list R) : mean (Ropp <$> l) = - mean l.
Proof. unfold mean. rewrite rsum_opp, length_fmap. lra. Qed.



End LossFacts.

Section ForwardLosses.
Context `{Backbone}.
Local Open Scope R_scope.
Implicit Types (h : gmap positive tval).

Lemma length_mdiv_matmul (a cols : list (list R)) c :
  length (mdiv (matmul a cols) c) = length a.
Proof. unfold mdiv, matmul, tmap. by rewrite !length_fmap. Qed.

Lemma shape_mdiv_matmul (a cols : list (list R)) c :
  shape (mdiv (matmul a cols) c) = replicate (length a) (length cols).
Proof.
  unfold mdiv, matmul, shape, tmap. rewrite <- !list_fmap_compose.
  induction a as [|row a IH]; [done|]. cbn. rewrite IH. f_equal.
  by rewrite !length_fmap.
Qed.

(** A call that returns was given as many captions as images. *)
Lemma forward_batch_sizes self samples ω h self' lcs out h' :
  forward self samples ω h = Some (self', lcs, out, h') →
  length (text_input samples) = length (image samples).
Proof.
  intros Hf.
  destruct (forward_inv _ _ _ _ _ _ _ _ Hf)
    as (_ & _ & (H1 & H2 & _) & (_ & Hl2 & _ & Hl4 & _) & (Ht & _ & Hm2) & _).
  rewrite Ht in Hm2. apply soft_targets_madd in Hm2 as [Hs _].
  apply (f_equal length) in Hs. unfold shape in Hs.
  rewrite !length_fmap, H1, H2, !length_mdiv_matmul in Hs. congruence.
Qed.


End ForwardLosses.

Section ForwardMatching.
Context `{Backbone}.
Local Open Scope R_scope.
Implicit Types (h : gmap positive tval).

Local Arguments log_softmax : simpl never.

(** The negative log-likelihood of one example of the two-way head. *)
Lemma nll_two (o1 o2 : R) (c : bool) :
  log_softmax [o1; o2] !! Z.to_nat (if c then 1 else 0)
  = Some (ln (if c then exp o2 / (exp o1 + exp o2)
              else exp o1 / (exp o1 + exp o2))).
Proof.
  assert (Hs : rsum (exp <$> [o1; o2]) = exp o1 + exp o2).
  { unfold rsum. simpl. lra. }
  apply log_softmax_ln. unfold softmax. rewrite Hs. by destruct c.
Qed.

Lemma mapM_app_Some {A B} (f : A → option B) l1 l2 k :
  mapM f (l1 ++ l2) = Some k →
  ∃ k1 k2, k = k1 ++ k2 ∧ mapM f l1 = Some k1 ∧ mapM f l2 = Some k2.
Proof.
  intros Hk%mapM_Some. apply Forall2_app_inv_l in Hk as (k1 & k2 & H1 & H2 & ->).
  exists k1, k2. split; [done|]. by split; apply mapM_Some.
Qed.

Lemma nll_group (w : list R) (V : list (list R)) (c : bool) nll :
  mapM (λ zl : list R * Z,
          if (zl.2 <? 0)%Z then None
          else x ← log_softmax zl.1 !! Z.to_nat zl.2; Some (- x))
       (zip ((λ e, let o := linear2 w e in [o.1; o.2]) <$> V)
            (replicate (length V) (if c then 1 else 0)%Z))
  = Some nll →
  nll = (λ e, - ln (itm_prob w linear2 e c)) <$> V.
Proof.
  revert nll. induction V as [|e V IH]; intros nll Hm.
  - by injection Hm as <-.
  - cbn in Hm.
    assert (((if c then 1 else 0) <? 0)%Z = false) as Hc by (by destruct c).
    rewrite Hc in Hm.
    pose proof (nll_two (linear2 w e).1 (linear2 w e).2 c) as Hn.
    replace (Z.to_nat (if c then 1 else 0)%Z)
      with (Z.to_nat (if c then 1%Z else 0%Z)) in Hn by done.
    rewrite Hn in Hm. cbn in Hm.
    destruct (mapM _ _) as [rest|] eqn:Hrest; [|done].
    cbn in Hm. injection Hm as <-. rewrite (IH rest eq_refl).
    cbn. unfold itm_prob at 1. simpl. by destruct c.
Qed.

(** C8. [loss_itm] is the cross-entropy, averaged over the examples, of a
    two-way classification of [3 * bs] fused examples: for every sample [b]
    its own pair, labelled 1, then its text with the negative image drawn
    for it, then the negative text drawn for it with its image, both
    labelled 0. *)
Theorem forward_matching_loss self samples ω h self' lcs out h' :
  forward self samples ω h = Some (self', lcs, out, h') →
  let bs := length (image samples) in
  let vl := l_vl_embeddings lcs in
  length vl = (3 * bs)%nat
  ∧ l_itm_labels lcs = replicate bs 1%Z ++ replicate (2 * bs) 0%Z
  ∧ (∀ b, (b < bs)%nat →
       ∃ t a e k e' k' t' a',
         l_text_embeds lcs !! b = Some t
         ∧ l_attention_mask lcs !! b = Some a
         ∧ l_image_embeds lcs !! b = Some e
         ∧ l_neg_image lcs !! b = Some k ∧ l_image_embeds lcs !! k = Some e'
         ∧ l_neg_text lcs !! b = Some k'
         ∧ l_text_embeds lcs !! k' = Some t'
         ∧ l_attention_mask lcs !! k' = Some a'
         ∧ vl !! b = Some (fused self (t, a) e)
         ∧ vl !! (bs + b)%nat = Some (fused self (t, a) e')
         ∧ vl !! (2 * bs + b)%nat = Some (fused self (t', a') e))
  ∧ loss_itm out
    = mean (((λ e, - ln (itm_prob (itm_head self) linear2 e true))
               <$> take bs vl)
            ++ ((λ e, - ln (itm_prob (itm_head self) linear2 e false))
                  <$> drop bs vl)).
Proof.
  intros Hf bs vl. pose proof (forward_batch_sizes _ _ _ _ _ _ _ _ Hf) as Hbs.
  destruct (forward_inv _ _ _ _ _ _ _ _ Hf)
    as (_ & _ & _ & _ & _ & _ & (_ & _ & _ & Hn1 & Hn2) & (HIE & HAM & HTE)
        & (ien & ten & tan & Hien & Hten & Htan & _ & Hvl) & (Hlab & Hce) & _).
  fold bs in Hn1, Hn2, Hlab. fold vl in Hvl, Hce.
  (* lengths *)
  assert (HlIE : length (l_image_embeds lcs) = bs) by (by rewrite HIE, length_fmap).
  assert (HlAM : length (l_attention_mask lcs) = bs).
  { rewrite HAM. unfold tokenized_mask. by rewrite length_fmap. }
  assert (HlTE : length (l_text_embeds lcs) = bs).
  { rewrite HTE, length_zip_with. unfold tokenized_ids.
    rewrite length_fmap. lia. }
  apply mapM_Some in Hn1, Hn2, Hien, Hten, Htan.
  pose proof (Forall2_length _ _ _ Hn1) as Hl1.
  pose proof (Forall2_length _ _ _ Hn2) as Hl2.
  pose proof (Forall2_length _ _ _ Hien) as Hl3.
  pose proof (Forall2_length _ _ _ Hten) as Hl4.
  pose proof (Forall2_length _ _ _ Htan) as Hl5.
  rewrite length_seq in Hl1, Hl2.
  set (V1 := zip_with (fused self)
               (zip (l_text_embeds lcs) (l_attention_mask lcs))
               (l_image_embeds lcs)) in *.
  set (V2 := zip_with (fused self)
               (zip (l_text_embeds lcs ++ ten) (l_attention_mask lcs ++ tan))
               (ien ++ l_image_embeds lcs)) in *.
  assert (HlV1 : length V1 = bs).
  { unfold V1. rewrite length_zip_with, length_zip. lia. }
  assert (HlV2 : length V2 = (2 * bs)%nat).
  { unfold V2. rewrite length_zip_with, length_zip, !length_app. lia. }
  split_and!.
  - rewrite Hvl, length_app. lia.
  - done.
  - intros b Hb.
    destruct (lookup_lt_is_Some_2 (l_text_embeds lcs) b) as [t Ht]; [lia|].
    destruct (lookup_lt_is_Some_2 (l_attention_mask lcs) b) as [a Ha]; [lia|].
    destruct (lookup_lt_is_Some_2 (l_image_embeds lcs) b) as [e He]; [lia|].
    destruct (lookup_lt_is_Some_2 (l_neg_image lcs) b) as [k Hk]; [lia|].
    destruct (lookup_lt_is_Some_2 (l_neg_text lcs) b) as [k' Hk']; [lia|].
    destruct (Forall2_lookup_l _ _ _ _ _ Hien Hk) as (e' & Hie & He').
    destruct (Forall2_lookup_l _ _ _ _ _ Hten Hk') as (t' & Hte & Ht').
    destruct (Forall2_lookup_l _ _ _ _ _ Htan Hk') as (a' & Hta & Ha').
    exists t, a, e, k, e', k', t', a'. split_and!; try done.
    + rewrite Hvl, lookup_app_l by lia. unfold V1.
      rewrite lookup_zip_with. erewrite (proj2 (lookup_zip_Some _ _ _ _ _));
        [|done]. simpl. by rewrite He.
    + rewrite Hvl, lookup_app_r by lia.
      replace (bs + b - length V1)%nat with b by lia. unfold V2.
      rewrite lookup_zip_with. erewrite (proj2 (lookup_zip_Some _ _ _ _ _)).
      2:{ split; rewrite lookup_app_l by lia; done. }
      simpl. by rewrite lookup_app_l, Hie by lia.
    + rewrite Hvl, lookup_app_r by lia.
      replace (2 * bs + b - length V1)%nat with (bs + b)%nat by lia. unfold V2.
      rewrite lookup_zip_with. erewrite (proj2 (lookup_zip_Some _ _ _ _ _)).
      2:{ split; rewrite lookup_app_r by lia.
          - replace (bs + b - length (l_text_embeds lcs))%nat with b by lia.
            done.
          - replace (bs + b - length (l_attention_mask lcs))%nat with b by lia.
            done. }
      simpl. rewrite lookup_app_r by lia.
      replace (bs + b - length ien)%nat with b by lia. by rewrite He.
  - unfold cross_entropy in Hce. case_bool_decide as Hlen; [|done].
    destruct (mapM _ _) as [nll|] eqn:Hnll; [|done]. cbn in Hce.
    injection Hce as <-. f_equal.
    rewrite Hvl in Hnll |- *. rewrite Hlab in Hnll.
    rewrite take_app_length', drop_app_length' by done.
    rewrite fmap_app in Hnll. rewrite zip_with_app in Hnll
      by (by rewrite length_fmap, length_replicate).
    apply mapM_app_Some in Hnll as (n1 & n2 & -> & Hn1' & Hn2').
    rewrite <- HlV1 in Hn1' at 1. rewrite <- HlV2 in Hn2' at 1.
    apply (nll_group _ _ true) in Hn1'. apply (nll_group _ _ false) in Hn2'.
    by rewrite Hn1', Hn2'.
Qed.

End ForwardMatching.

(** ** In-place updates *)

Section InPlace.
Local Open Scope R_scope.
Implicit Types (h : gmap positive tval).

Lemma fresh_insert_ne h (l : positive) v :
  fresh (dom (<[l := v]> h)) ≠ l.
Proof.
  intros Heq. pose proof (fresh_lookup (<[l := v]> h)) as Hf.
  rewrite Heq in Hf. by rewrite lookup_insert_eq in Hf.
Qed.

Lemma fresh_not_in h (l : positive) : is_Some (h !! l) → l ≠ fresh (dom h).
Proof. intros [v Hv] ->. by rewrite fresh_lookup in Hv. Qed.

(** C10. [mask] writes into the tensors it is given and returns those very
    tensors. With [b] the bit of the mask on entry (supplied by the caller
    or drawn) at a position that holds the id [x]: after the call the
    caller's [input_ids] holds there the mask token, the drawn word or
    [x], as the draws decide; the caller's [targets] holds its label if
    the position is masked and [-100] if not; a mask that the caller
    supplied holds the bit with padding and classification token cleared;
    and no other tensor of the caller changes. [forward] calls [mask] on
    clones, so the ids that the tokenizer returned, and every tensor that
    existed before the call, are as they were. *)
Theorem mask_updates_in_place :
  (∀ tok input_ids V targets mi pm ω h res h' ids0,
     mask tok input_ids V targets mi pm ω h = Some (res, h') →
     h !! input_ids = Some (TLong ids0) →
     res = (input_ids, targets)
     ∧ (∃ m0 out,
          match mi with
          | Some l => h !! l = Some (TBool m0)
          | None => ∃ p, pm = Some p ∧ bernoulli p (u_masked ω) = Some m0
          end
          ∧ shape m0 = shape ids0
          ∧ h' !! input_ids = Some (TLong out)
          ∧ shape out = shape ids0
          ∧ (∀ i j x, tget ids0 i j = Some x →
               ∃ b, tget m0 i j = Some b
                 ∧ let f := cleared tok x b in
                   tget out i j
                   = Some (corrupted tok ω i j f
                             (if decide (targets = Some input_ids)
                              then (if f then x else -100)%Z else x)))
          ∧ (∀ l, mi = Some l →
               ∃ fm, h' !! l = Some (TBool fm)
                 ∧ shape fm = shape ids0
                 ∧ ∀ i j x b, tget ids0 i j = Some x → tget m0 i j = Some b →
                     tget fm i j = Some (cleared tok x b))
          ∧ (∀ t, targets = Some t → t ≠ input_ids →
               ∃ lab0 lab,
                 h !! t = Some (TLong lab0) ∧ h' !! t = Some (TLong lab)
                 ∧ shape lab = shape lab0
                 ∧ ∀ i j y, tget lab0 i j = Some y →
                     ∃ x b, tget ids0 i j = Some x ∧ tget m0 i j = Some b
                       ∧ tget lab i j
                         = Some (if cleared tok x b then y else -100)%Z))
     ∧ (∀ l, is_Some (h !! l) →
          l ≠ input_ids → targets ≠ Some l → mi ≠ Some l →
          h' !! l = h !! l))
  ∧ (∀ (B : Backbone) self samples ω h self' lcs out h',
       forward self samples ω h = Some (self', lcs, out, h') →
       h !! l_text_input_ids lcs = None
       ∧ h' !! l_text_input_ids lcs = Some (TLong (tokenized_ids self samples))
       ∧ l_input_ids lcs ≠ l_text_input_ids lcs
       ∧ l_labels lcs ≠ l_input_ids lcs
       ∧ l_labels lcs ≠ l_text_input_ids lcs
       ∧ (∃ h3,
            h3 !! l_input_ids lcs = Some (TLong (tokenized_ids self samples))
            ∧ h3 !! l_labels lcs = Some (TLong (tokenized_ids self samples))
            ∧ mask tok (l_input_ids lcs) vocab_size (Some (l_labels lcs)) None
                   (Some (full (shape (tokenized_ids self samples))
                               (mlm_probability self)))
                   (mlm_draws ω) h3
              = Some ((l_input_ids lcs, Some (l_labels lcs)), h'))
       ∧ ∀ l, is_Some (h !! l) → h' !! l = h !! l).
Proof.
  split.
  - intros tok input_ids V targets mi pm ω h res h' ids0 [lc Hm]%mask_Some Hh.
    destruct (mask_body_inv _ _ _ _ _ _ _ _ _ _ _ Hm)
      as (ids0' & m0 & fm & out & Hh' & Hmi & Hne & Hres & _ & Hsm0 & Hsfm & Hso
          & _ & _ & _ & Hfm & Hout & Hfr & Hpt & Htg).
    rewrite Hh in Hh'. injection Hh' as <-.
    split_and!; [done | |].
    + exists m0, out. split_and!; try done.
      * destruct mi as [l|]; by destruct Hmi as [_ ?].
      * intros i j x Hx.
        destruct (Hpt i j x Hx) as (b & Hb & _ & _ & _ & _ & Ho). by exists b.
      * intros l ->. destruct Hmi as [Hl _]. exists fm. rewrite <- Hl.
        split_and!; [done | done |]. intros i j x b Hx Hb.
        destruct (Hpt i j x Hx) as (b' & Hb' & Hf & _).
        rewrite Hb in Hb'. by injection Hb' as <-.
      * intros t Ht Hti.
        destruct (Htg t Ht Hti) as (_ & lab0 & lab & Hl0 & Hl & Hs0 & Hs & Hpl).
        exists lab0, lab. split_and!; [done | done | congruence |].
        intros i j y Hy.
        destruct (tget_same_shape lab0 ids0 i j) as [x Hx];
          [done | by eexists |].
        destruct (Hpt i j x Hx) as (b & Hb & Hf & _).
        destruct (Hpl i j y Hy) as (f & Hf' & Hlab).
        rewrite Hf in Hf'. injection Hf' as <-. by exists x, b.
    + intros l Hl Hl1 Hl2 Hl3. apply Hfr; [done | | done].
      destruct mi as [l0|].
      * destruct Hmi as [-> _]. congruence.
      * destruct Hmi as [-> _]. by apply fresh_not_in.
  - intros B self samples ω h self' lcs out h' Hf.
    destruct (forward_inv _ _ _ _ _ _ _ _ Hf)
      as (_ & _ & _ & _ & _ & _ & _ & _ & _ & _ & (-> & -> & -> & Hmask)).
    set (ids0 := tokenized_ids self samples) in *.
    set (tl := fresh (dom h)) in *.
    set (h1 := <[tl := TLong ids0]> h) in *.
    set (il := fresh (dom h1)) in *.
    set (h2 := <[il := TLong ids0]> h1) in *.
    set (ll := fresh (dom h2)) in *.
    set (h3 := <[ll := TLong ids0]> h2) in *.
    assert (Hil : il ≠ tl) by apply fresh_insert_ne.
    assert (Hll : ll ≠ il) by apply fresh_insert_ne.
    assert (Hlt : ll ≠ tl).
    { apply not_eq_sym, fresh_not_in. unfold h2.
      rewrite lookup_insert_ne by done. unfold h1.
      rewrite lookup_insert_eq. by eexists. }
    assert (Hext : ∀ l, is_Some (h !! l) →
              h3 !! l = h !! l ∧ l ≠ il ∧ l ≠ ll).
    { intros l Hl.
      assert (l ≠ tl) by (by apply fresh_not_in).
      assert (Hl1 : h1 !! l = h !! l) by (unfold h1; by rewrite lookup_insert_ne).
      assert (l ≠ il) by (apply fresh_not_in; by rewrite Hl1).
      assert (Hl2 : h2 !! l = h !! l)
        by (unfold h2; by rewrite lookup_insert_ne).
      assert (l ≠ ll) by (apply fresh_not_in; by rewrite Hl2).
      assert (Hl3 : h3 !! l = h !! l)
        by (unfold h3; by rewrite lookup_insert_ne).
      done. }
    assert (H3t : h3 !! tl = Some (TLong ids0)).
    { unfold h3, h2, h1. rewrite !lookup_insert_ne by done.
      apply lookup_insert_eq. }
    assert (H3i : h3 !! il = Some (TLong ids0)).
    { unfold h3, h2. rewrite lookup_insert_ne by done. apply lookup_insert_eq. }
    assert (H3l : h3 !! ll = Some (TLong ids0)) by apply lookup_insert_eq.
    pose proof Hmask as [lc Hmb]%mask_Some.
    destruct (mask_body_inv _ _ _ _ _ _ _ _ _ _ _ Hmb)
      as (? & ? & ? & ? & _ & (Hml & _) & _ & _ & _ & _ & _ & _ & _ & _ & _
          & _ & _ & Hfr & _).
    assert (Hkeep : ∀ l, is_Some (h3 !! l) → l ≠ il → l ≠ ll →
              h' !! l = h3 !! l).
    { intros l Hl H1 H2. apply Hfr; [done | | congruence].
      rewrite Hml. by apply fresh_not_in. }
    split_and!; try done.
    + apply fresh_lookup.
    + rewrite Hkeep; [done | by eexists | done | done].
    + by exists h3.
    + intros l Hl. destruct (Hext l Hl) as (Heq & H1 & H2).
      rewrite <- Heq. apply Hkeep; [by rewrite Heq | done | done].
Qed.

End InPlace.

(** ** The training step returns *)

Section ForwardTotal.
Context `{Backbone}.
Local Open Scope R_scope.
Implicit Types (h : gmap positive tval).

Local Arguments log_softmax : simpl never.

Lemma sim_row_length (a cols : list (list R)) c b row :
  mdiv (matmul a cols) c !! b = Some row → length row = length cols.
Proof.
  intros Hb. pose proof (shape_mdiv_matmul a cols c) as Hs.
  apply (f_equal (λ l, l !! b)) in Hs. unfold shape in Hs.
  rewrite list_lookup_fmap, Hb in Hs. simpl in Hs. symmetry in Hs.
  apply lookup_replicate in Hs as [Hs _]. done.
Qed.

Lemma draw_negative_total (sim : list (list R)) (bs b : nat) u :
  (2 ≤ bs)%nat → (b < bs)%nat →
  (∃ row, sim !! b = Some row ∧ (bs ≤ length row)%nat) →
  is_Some (draw_negative (fill_diagonal (softmax <$> (take bs <$> sim)) 0) u b).
Proof.
  intros Hbs Hb (row & Hrow & Hlen). unfold draw_negative, fill_diagonal.
  rewrite list_lookup_imap, !list_lookup_fmap, Hrow. simpl.
  apply multinomial_total; [apply zeroed_nonneg|].
  apply (zeroed_positive_sum _ b (if decide (b = 0%nat) then 1%nat else 0%nat)).
  - rewrite length_take. case_decide; lia.
  - case_decide; lia.
Qed.

Lemma cross_entropy_total (w : list R) (vl : list (list R)) (n m : nat) :
  length vl = (n + m)%nat →
  is_Some (cross_entropy
             ((λ e, let o := linear2 w e in [o.1; o.2]) <$> vl)
             (replicate n 1%Z ++ replicate m 0%Z)).
Proof.
  intros Hl. unfold cross_entropy.
  rewrite bool_decide_eq_true_2
    by (by rewrite length_fmap, length_app, !length_replicate).
  destruct (mapM _ _) as [nll|] eqn:Hnll; [done|].
  exfalso. apply eq_None_not_Some in Hnll. apply Hnll.
  { apply mapM_is_Some, Forall_forall. intros [z l] Hin. simpl.
    apply elem_of_zip_with in Hin as (z' & l' & [= <- <-] & Hz & Hl').
    apply list_elem_of_fmap in Hz as (e & -> & _).
    assert (l = 1%Z ∨ l = 0%Z) as Hcase.
    { apply elem_of_app in Hl' as [Hl'|Hl'];
        apply elem_of_replicate in Hl' as [-> _]; auto. }
    destruct Hcase as [-> | ->]; cbn [fst snd Z.ltb Z.compare].
    - pose proof (nll_two (linear2 w e).1 (linear2 w e).2 true) as Hn.
      cbv iota in Hn. rewrite Hn. done.
    - pose proof (nll_two (linear2 w e).1 (linear2 w e).2 false) as Hn.
      cbv iota in Hn. rewrite Hn. done. }
Qed.

End ForwardTotal.

Section ForwardTotal2.
Context `{Backbone}.
Local Open Scope R_scope.
Implicit Types (h : gmap positive tval).

Lemma mapM_lookup_total {A} (l : list A) (ks : list nat) :
  Forall (λ k, (k < length l)%nat) ks → is_Some (mapM (λ k, l !! k) ks).
Proof.
  intros Hks. apply mapM_is_Some. eapply Forall_impl; [exact Hks|].
  intros k Hk. simpl. by apply lookup_lt_is_Some_2.
Qed.

Lemma stack_total {A} (l : list A) : l ≠ [] → stack l = Some l.
Proof. by destruct l. Qed.

(** The negatives of a batch are drawn, and lie in the batch. *)
Lemma draw_negatives_total (a cols : list (list R)) c (bs : nat) u :
  (2 ≤ bs)%nat → length a = bs → (bs ≤ length cols)%nat →
  (∀ b, 0 <= u b < 1) →
  ∃ neg, mapM (draw_negative
                 (fill_diagonal
                    (softmax <$> (take bs <$> mdiv (matmul a cols) c)) 0) u)
              (seq 0 bs) = Some neg
         ∧ length neg = bs ∧ Forall (λ k, (k < bs)%nat) neg.
Proof.
  intros Hbs Ha Hc Hu.
  destruct (mapM _ (seq 0 bs)) as [neg|] eqn:Hneg.
  - exists neg. split; [done|]. apply mapM_Some in Hneg.
    pose proof (Forall2_length _ _ _ Hneg) as Hl. rewrite length_seq in Hl.
    split; [done|]. apply Forall_lookup. intros i k Hk.
    destruct (Forall2_lookup_r _ _ _ _ _ Hneg Hk) as (b & Hb & Hd).
    apply draw_negative_Some in Hd; [by destruct Hd | done].
  - exfalso. apply eq_None_not_Some in Hneg. apply Hneg.
    apply mapM_is_Some, Forall_forall. intros b Hb%elem_of_seq. simpl.
    apply draw_negative_total; [done | lia |].
    destruct (lookup_lt_is_Some_2 (mdiv (matmul a cols) c) b) as [row Hrow].
    { rewrite length_mdiv_matmul. lia. }
    exists row. split; [done|]. apply sim_row_length in Hrow. lia.
Qed.

Lemma shape_soft_lhs α (m : list (list R)) :
  shape (mscale α (softmax <$> m)) = shape m.
Proof. unfold mscale. by rewrite shape_tmap, shape_fmap_softmax. Qed.

Lemma shape_soft_rhs β (m : list (list R)) :
  shape (mscale β (fill_diagonal (zeros_like m) 1)) = shape m.
Proof.
  unfold mscale, zeros_like. by rewrite shape_tmap, shape_fill_diagonal, shape_tmap.
Qed.

Lemma clone_run (l : positive) h t :
  h !! l = Some (TLong t) →
  clone l h = Some (fresh (dom h), <[fresh (dom h) := TLong t]> h).
Proof.
  intros Hl. unfold clone.
  by rewrite (bind_run _ _ _ _ _ (load_long_run _ _ _ Hl)).
Qed.

(** [mask] as [forward] calls it: on ids and labels of one shape, held in
    two tensors, with a matrix of probabilities of that shape. *)
Lemma mask_run tk (il ll : positive) V q ω h ids0 lab0 :
  h !! il = Some (TLong ids0) → h !! ll = Some (TLong lab0) →
  shape lab0 = shape ids0 → il ≠ ll →
  (0 < V)%Z → is_prob q = true →
  ∃ h' out lab,
    mask tk il V (Some ll) None (Some (full (shape ids0) q)) ω h
    = Some ((il, Some ll), h')
    ∧ h' !! il = Some (TLong out) ∧ h' !! ll = Some (TLong lab).
Proof.
  intros Hil Hll Hs Hne HV Hq.
  destruct (mask_body_total tk il V (Some ll) None
              (Some (full (shape ids0) q)) ω h ids0) as [[[lc res] h'] Hm];
    [done | done | by exists lab0 | |].
  { exists (full (shape ids0) q). split_and!; [done | apply shape_full |].
    apply forallb_forall. intros row [n [<- _]]%in_map_iff.
    apply forallb_forall. intros y Hy%list_elem_of_In%elem_of_replicate.
    by destruct Hy as [-> _]. }
  destruct (mask_body_inv _ _ _ _ _ _ _ _ _ _ _ Hm)
    as (? & ? & fm & out & _ & _ & _ & -> & _ & _ & _ & _ & _ & _ & _ & _
        & Hout & _ & _ & Htg).
  destruct (Htg ll eq_refl (not_eq_sym Hne)) as (_ & ? & lab & _ & Hlab & _).
  exists h', out, lab. split_and!; [|done..].
  apply mask_Some. by exists lc.
Qed.

Lemma forward_total self samples ω h :
  well_formed self samples ω → is_Some (forward self samples ω h).
Proof.
  intros (HN & Hcap & Hbs & Hq & Hp & HV & Hu1 & Hu2).
  unfold forward.
  rewrite (bind_run _ _ _ _ h
             (lift_run _ _ _ (rampup_factor_Some _ _ _ HN))).
  erewrite bind_run; [|reflexivity].
  erewrite bind_run; [|apply load_long_run, lookup_insert_eq].
  erewrite bind_run; [|apply load_long_run, lookup_insert_eq].
  erewrite bind_run;
    [|apply lift_run, madd_total; by rewrite shape_soft_lhs, shape_soft_rhs].
  erewrite bind_run.
  2:{ apply lift_run, madd_total.
      rewrite shape_soft_lhs, shape_soft_rhs, !shape_mdiv_matmul.
      cbn [text_queue image_queue _momentum_update set_temp max_txt_len].
      rewrite !length_app, !length_fmap, !length_zip_with, !length_fmap.
      f_equal; lia. }
  (* negative images *)
  match goal with
  | |- context [mapM (draw_negative
                        (fill_diagonal
                           (softmax <$> (take _ <$> mdiv (matmul ?a ?cols) ?c)) 0)
                        (u_neg_image ω)) _] =>
      destruct (draw_negatives_total a cols c (length (image samples))
                  (u_neg_image ω)) as (neg_image & Hni & Hlni & Hbni)
  end; [done | | | done |].
  { rewrite length_fmap, length_zip_with, !length_fmap. lia. }
  { rewrite length_app, !length_fmap. lia. }
  rewrite (bind_run _ _ _ _ _ (lift_run _ _ _ Hni)).
  match goal with
  | |- is_Some ((lift (mapM (λ neg_idx, ?l !! neg_idx) neg_image) ≫= _) _) =>
      destruct (mapM_lookup_total l neg_image) as [ien Hien]
  end.
  { eapply Forall_impl; [exact Hbni|]. intros k Hk. cbv beta in Hk |- *.
    rewrite !length_fmap. lia. }
  rewrite (bind_run _ _ _ _ _ (lift_run _ _ _ Hien)).
  assert (Hlien : length ien = length (image samples)).
  { apply mapM_Some, Forall2_length in Hien. lia. }
  assert (Hne_ien : ien ≠ []) by (intros ->; simpl in Hlien; lia).
  rewrite (bind_run _ _ _ _ _ (lift_run _ _ _ (stack_total ien Hne_ien))).
  (* negative texts *)
  match goal with
  | |- context [mapM (draw_negative
                        (fill_diagonal
                           (softmax <$> (take _ <$> mdiv (matmul ?a ?cols) ?c)) 0)
                        (u_neg_text ω)) _] =>
      destruct (draw_negatives_total a cols c (length (image samples))
                  (u_neg_text ω)) as (neg_text & Hnt & Hlnt & Hbnt)
  end; [done | | | done |].
  { by rewrite !length_fmap. }
  { rewrite length_app, !length_fmap, length_zip_with, !length_fmap. lia. }
  rewrite (bind_run _ _ _ _ _ (lift_run _ _ _ Hnt)).
  match goal with
  | |- is_Some ((lift (mapM (λ neg_idx, ?l !! neg_idx) neg_text) ≫= _) _) =>
      destruct (mapM_lookup_total l neg_text) as [ten Hten]
  end.
  { eapply Forall_impl; [exact Hbnt|]. intros k Hk. cbv beta in Hk |- *.
    rewrite length_zip_with, !length_fmap. lia. }
  rewrite (bind_run _ _ _ _ _ (lift_run _ _ _ Hten)).
  match goal with
  | |- is_Some ((lift (mapM (λ neg_idx, ?l !! neg_idx) neg_text) ≫= _) _) =>
      destruct (mapM_lookup_total l neg_text) as [tan Htan]
  end.
  { eapply Forall_impl; [exact Hbnt|]. intros k Hk. cbv beta in Hk |- *.
    rewrite !length_fmap. lia. }
  rewrite (bind_run _ _ _ _ _ (lift_run _ _ _ Htan)).
  assert (Hlten : length ten = length (image samples)).
  { apply mapM_Some, Forall2_length in Hten. lia. }
  assert (Hltan : length tan = length (image samples)).
  { apply mapM_Some, Forall2_length in Htan. lia. }
  assert (Hne_ten : ten ≠ []) by (intros ->; simpl in Hlten; lia).
  rewrite (bind_run _ _ _ _ _ (lift_run _ _ _ (stack_total ten Hne_ten))).
  assert (Hne_tan : tan ≠ []) by (intros ->; simpl in Hltan; lia).
  rewrite (bind_run _ _ _ _ _ (lift_run _ _ _ (stack_total tan Hne_tan))).
  (* the matching loss *)
  cbn [itm_head text_encoder _dequeue_and_enqueue _momentum_update set_temp].
  match goal with
  | |- is_Some ((lift (cross_entropy (_ <$> ?vl) _) ≫= _) _) =>
      destruct (cross_entropy_total (itm_head self) vl
                  (length (image samples)) (2 * length (image samples)))
        as [litm Hitm]
  end.
  { repeat rewrite ?length_app, ?length_fmap, ?length_zip_with. lia. }
  rewrite (bind_run _ _ _ _ _ (lift_run _ _ _ Hitm)).
  (* the masked language model *)
  erewrite bind_run; [|apply clone_run, lookup_insert_eq].
  erewrite bind_run; [|apply clone_run, lookup_insert_eq].
  erewrite bind_run; [|apply load_long_run, lookup_insert_eq].
  match goal with
  | |- is_Some ((mask ?tk ?il ?V (Some ?ll) None (Some (full (shape ?ids) ?q)) ?d
                   ≫= _) ?h3) =>
      destruct (mask_run tk il ll V q d h3 ids ids)
        as (h' & out & lab & Hmask & Hout & Hlab)
  end; [| apply lookup_insert_eq | done | | done | done |].
  { rewrite lookup_insert_ne by apply fresh_insert_ne. apply lookup_insert_eq. }
  { apply not_eq_sym, fresh_insert_ne. }
  rewrite (bind_run _ _ _ _ _ Hmask).
  rewrite (bind_run _ _ _ _ _ (load_long_run _ _ _ Hout)).
  rewrite (bind_run _ _ _ _ _ (load_long_run _ _ _ Hlab)).
  done.
Qed.

End ForwardTotal2.

(** ** The theorems at concrete inputs *)

(** The schedule with ten iterations per epoch. *)
Lemma rampup_factor_schedule_witness :
  (0 < 10)%Z
  ∧ (∀ e i : Z, (0 ≤ e)%Z → (0 ≤ i)%Z →
       ∃ r, _rampup_factor e i 10 = Some r
            ∧ (r == Qmin 1 (inject_Z (e * 10 + i) / inject_Z (2 * 10)))%Q)
  ∧ (∃ r, _rampup_factor 0 0 10 = Some r ∧ (r == 0)%Q)
  ∧ (∃ r, _rampup_factor 0 (2 * 10) 10 = Some r ∧ (r == 1)%Q)
  ∧ (∀ (e i M : Z) (r : Q), _rampup_factor e i M = Some r → (r <= 1)%Q).
Proof. split; [lia | apply (rampup_factor_schedule 10); lia]. Defined.

(** [mask] on the caption [[CLS] 2023 [PAD]] with every position drawn: the
    classification token at position 0 is spared. *)
Lemma mask_spares_pad_and_cls_witness :
  match mask_body bert_ids 1 30522 (Some 2%positive) None (Some ex_probs)
                  ex_draws ex_heap with
  | Some (lc, res, h') =>
      (∃ fm, h' !! masked_indices lc = Some (TBool fm)
             ∧ tget fm 0 0 = Some false)
      ∧ tget (indices_replaced lc) 0 0 = Some false
      ∧ tget (indices_random lc) 0 0 = Some false
      ∧ (∀ t, Some 2%positive = Some t →
           ∃ lab, h' !! t = Some (TLong lab) ∧ tget lab 0 0 = Some (-100)%Z)
      ∧ (Some 2%positive ≠ Some 1%positive →
           ∃ out, h' !! 1%positive = Some (TLong out)
                  ∧ tget out 0 0 = Some 101%Z)
  | None => False
  end.
Proof.
  destruct (mask_body bert_ids 1 30522 (Some 2%positive) None (Some ex_probs)
              ex_draws ex_heap) as [[[lc res] h']|] eqn:E.
  - apply (mask_spares_pad_and_cls bert_ids 1 30522 (Some 2%positive) None
             (Some ex_probs) ex_draws ex_heap lc res h'
             [[101; 2023; 0]]%Z 0 0 101 E);
      [reflexivity | reflexivity | right; reflexivity].
  - vm_compute in E. discriminate E.
Defined.

Lemma mask_replaced_random_disjoint_witness :
  match mask_body bert_ids 1 30522 (Some 2%positive) None (Some ex_probs)
                  ex_draws ex_heap with
  | Some (lc, res, h') =>
      ∃ fm, h' !! masked_indices lc = Some (TBool fm)
        ∧ ∀ i j,
            ¬ (tget (indices_replaced lc) i j = Some true
               ∧ tget (indices_random lc) i j = Some true)
            ∧ (tget (indices_replaced lc) i j = Some true
               → tget fm i j = Some true)
            ∧ (tget (indices_random lc) i j = Some true
               → tget fm i j = Some true)
  | None => False
  end.
Proof.
  destruct (mask_body bert_ids 1 30522 (Some 2%positive) None (Some ex_probs)
              ex_draws ex_heap) as [[[lc res] h']|] eqn:E.
  - apply (mask_replaced_random_disjoint bert_ids 1 30522 (Some 2%positive)
             None (Some ex_probs) ex_draws ex_heap lc res h' E).
  - vm_compute in E. discriminate E.
Defined.

(** C5 as stated fails. With the token 2023 masked: labels that are not a
    copy of the ids keep their own value, 7; and when the labels are the
    very tensor of the ids, the label of the masked position is the mask
    token, 103. In neither run is the label the original token id. *)
Lemma mask_labels_counterexample :
  match mask_body bert_ids 1 30522 (Some 2%positive) (Some 3%positive) None
                  ex_draws cx_heap with
  | Some (lc, res, h') =>
      cx_heap !! 1%positive = Some (TLong [[2023]]%Z)
      ∧ res = (1%positive, Some 2%positive)
      ∧ h' !! masked_indices lc = Some (TBool [[true]])
      ∧ h' !! 2%positive = Some (TLong [[7]]%Z)
  | None => False
  end
  ∧ match mask_body bert_ids 1 30522 (Some 1%positive) (Some 3%positive) None
                    ex_draws cx_heap with
    | Some (lc, res, h') =>
        cx_heap !! 1%positive = Some (TLong [[2023]]%Z)
        ∧ res = (1%positive, Some 1%positive)
        ∧ h' !! masked_indices lc = Some (TBool [[true]])
        ∧ h' !! 1%positive = Some (TLong [[103]]%Z)
    | None => False
    end.
Proof. vm_compute. split_and!; reflexivity. Qed.

Lemma mask_labels_witness :
  match mask_body bert_ids 1 30522 (Some 2%positive) None (Some ex_probs)
                  ex_draws ex_heap with
  | Some (lc, res, h') =>
      ex_heap !! 1%positive = Some (TLong [[101; 2023; 0]]%Z)
      ∧ mask bert_ids 1 30522 (Some 2%positive) None (Some ex_probs)
             ex_draws ex_heap = Some (res, h')
      ∧ res = (1%positive, Some 2%positive)
      ∧ ∀ t, Some 2%positive = Some t → t ≠ 1%positive →
          ∃ lab0 lab fm,
            ex_heap !! t = Some (TLong lab0)
            ∧ h' !! t = Some (TLong lab)
            ∧ h' !! masked_indices lc = Some (TBool fm)
            ∧ shape lab = shape [[101; 2023; 0]]%Z
            ∧ shape fm = shape [[101; 2023; 0]]%Z
            ∧ (∀ i j y, tget lab0 i j = Some y →
                 (tget fm i j = Some false ∧ tget lab i j = Some (-100)%Z)
                 ∨ (tget fm i j = Some true ∧ tget lab i j = Some y))
            ∧ (lab0 = [[101; 2023; 0]]%Z →
               ∀ i j x, tget [[101; 2023; 0]]%Z i j = Some x →
                 tget fm i j = Some true → tget lab i j = Some x)
  | None => False
  end.
Proof.
  destruct (mask_body bert_ids 1 30522 (Some 2%positive) None (Some ex_probs)
              ex_draws ex_heap) as [[[lc res] h']|] eqn:E.
  - split; [reflexivity|].
    apply (mask_labels bert_ids 1 30522 (Some 2%positive) None
             (Some ex_probs) ex_draws ex_heap lc res h' [[101; 2023; 0]]%Z E).
    reflexivity.
  - vm_compute in E. discriminate E.
Defined.

(** The token 2023 can be redrawn as itself. *)
Lemma mask_random_word_unrestricted_witness :
  ∃ ω' lc res h' out,
    valid_draws 30522 ω'
    ∧ mask_body bert_ids 1 30522 (Some 2%positive) None
                (Some (full (shape [[101; 2023; 0]]%Z) (15 # 100)%Q)) ω' ex_heap
      = Some (lc, res, h')
    ∧ tget (indices_random lc) 0 1 = Some true
    ∧ h' !! 1%positive = Some (TLong out)
    ∧ tget out 0 1 = Some 2023%Z.
Proof.
  refine (proj1 (proj2
    (proj2 (mask_random_word_unrestricted bert_ids) 1%positive 30522%Z
       (Some 2%positive) ex_heap [[101; 2023; 0]]%Z (15 # 100)%Q 0 1 2023%Z
       _ _ _ _ _ _ _ _)) _).
  - reflexivity.
  - lia.
  - exists [[101; 2023; 0]]%Z. split; reflexivity.
  - reflexivity.
  - discriminate.
  - reflexivity.
  - discriminate.
  - discriminate.
  - simpl. lia.
Defined.

(** The toy batch of two samples is well formed, so [forward] returns on it. *)
Lemma toy_well_formed : @well_formed toy toy_model toy_batch toy_draws.
Proof.
  unfold well_formed, valid_forward_draws. simpl.
  split_and!; try done; try lia; intros b; lra.
Defined.



Lemma forward_negatives_witness :
  ∃ self' lcs out h',
    @forward toy toy_model toy_batch toy_draws ∅ = Some (self', lcs, out, h')
    ∧ valid_forward_draws toy_draws
    ∧ length (l_neg_image lcs) = 2 ∧ length (l_neg_text lcs) = 2
    ∧ ∀ b, b < 2 →
        (∃ k, l_neg_image lcs !! b = Some k ∧ k ≠ b ∧ k < 2)
        ∧ (∃ k, l_neg_text lcs !! b = Some k ∧ k ≠ b ∧ k < 2).
Proof.
  destruct (@forward_total toy toy_model toy_batch toy_draws ∅ toy_well_formed)
    as [[[[self' lcs] out] h'] Hf].
  exists self', lcs, out, h'. split; [exact Hf|].
  pose proof toy_well_formed as (_ & _ & _ & _ & _ & _ & Hu).
  split; [exact Hu|].
  destruct (proj1 (@forward_negatives toy toy_model toy_batch toy_draws ∅)
              self' lcs out h' Hf Hu) as (_ & _ & Hl1 & Hl2 & Hb).
  split; [exact Hl1|]. split; [exact Hl2|].
  intros b Hlt. destruct (Hb b Hlt) as [(k & Hk & _ & Hne & Hlt1)
                                        (k' & Hk' & _ & Hne' & Hlt2)].
  split; [exists k | exists k']; auto.
Defined.

Lemma forward_matching_loss_witness :
  ∃ self' lcs out h',
    @forward toy toy_model toy_batch toy_draws ∅ = Some (self', lcs, out, h')
    ∧ length (l_vl_embeddings lcs) = 6
    ∧ l_itm_labels lcs = [1; 1; 0; 0; 0; 0]%Z.
Proof.
  destruct (@forward_total toy toy_model toy_batch toy_draws ∅ toy_well_formed)
    as [[[[self' lcs] out] h'] Hf].
  exists self', lcs, out, h'. split; [exact Hf|].
  destruct (@forward_matching_loss toy _ _ _ _ _ _ _ _ Hf) as (H1 & H2 & _).
  split; [exact H1 | exact H2].
Defined.


(** A caller that does not clone sees its ids overwritten: position 1 of
    the tensor at location 1 held 2023 and holds the mask token. *)
Lemma mask_updates_in_place_witness :
  match mask bert_ids 1 30522 (Some 2%positive) None (Some ex_probs)
             ex_draws ex_heap with
  | Some (res, h') =>
      res = (1%positive, Some 2%positive)
      ∧ ex_heap !! 1%positive = Some (TLong [[101; 2023; 0]]%Z)
      ∧ h' !! 1%positive = Some (TLong [[101; 103; 0]]%Z)
      ∧ h' !! 2%positive = Some (TLong [[-100; 2023; -100]]%Z)
  | None => False
  end.
Proof.
  destruct (mask bert_ids 1 30522 (Some 2%positive) None (Some ex_probs)
              ex_draws ex_heap) as [[res h']|] eqn:E.
  - destruct (proj1 mask_updates_in_place bert_ids 1%positive 30522%Z
                (Some 2%positive) None (Some ex_probs) ex_draws ex_heap
                res h' [[101; 2023; 0]]%Z E eq_refl)
      as (Hres & (m0 & out & (p & Hp & Hb) & _ & Hout & _ & Hpt & _) & _).
    split; [exact Hres|]. split; [reflexivity|].
    destruct (Hpt 0 1 2023%Z eq_refl) as (b & Hb1 & Ho).
    injection Hp as <-. vm_compute in Hb. injection Hb as <-.
    vm_compute in Hb1. injection Hb1 as <-.
    vm_compute in E. injection E as _ <-. split; reflexivity.
  - vm_compute in E. discriminate E.
Defined.

(** * Further properties *)

(** ** The schedule, by the global step *)

Section ScheduleExtras.
Local Open Scope Q_scope.

Lemma inject_Z_pos (n : Z) : (0 < n)%Z → 0 < inject_Z n.
Proof. intros Hn. replace 0 with (inject_Z 0) by done. by rewrite <- Zlt_Qlt. Qed.

Lemma ratio_le (a b N : Z) :
  (0 < N)%Z → (a ≤ b)%Z →
  inject_Z a / inject_Z (2 * N) <= inject_Z b / inject_Z (2 * N).
Proof.
  intros HN Hab. unfold Qdiv. apply Qmult_le_compat_r.
  - by rewrite <- Zle_Qle.
  - apply Qlt_le_weak, Qinv_lt_0_compat, inject_Z_pos. lia.
Qed.

Lemma ratio_bound (a c N : Z) :
  (0 < N)%Z →
  (inject_Z c <= inject_Z a / inject_Z (2 * N) ↔ (c * (2 * N) ≤ a)%Z).
Proof.
  intros HN. assert (HN2 : 0 < inject_Z (2 * N)) by (apply inject_Z_pos; lia).
  rewrite Zle_Qle, inject_Z_mult. split.
  - intros H. apply (Qmult_le_compat_r _ _ (inject_Z (2 * N))) in H;
      [|by apply Qlt_le_weak].
    rewrite (Qmult_comm (_ / _)), Qmult_div_r in H; [done|].
    intros Hz. rewrite Hz in HN2. by apply Qlt_irrefl in HN2.
  - intros H. by apply Qle_shift_div_l.
Qed.

Lemma ratio_bound_r (a c N : Z) :
  (0 < N)%Z →
  (inject_Z a / inject_Z (2 * N) <= inject_Z c ↔ (a ≤ c * (2 * N))%Z).
Proof.
  intros HN. assert (HN2 : 0 < inject_Z (2 * N)) by (apply inject_Z_pos; lia).
  rewrite Zle_Qle, inject_Z_mult. split.
  - intros H. apply (Qmult_le_compat_r _ _ (inject_Z (2 * N))) in H;
      [|by apply Qlt_le_weak].
    rewrite (Qmult_comm (_ / _)), Qmult_div_r in H; [done|].
    intros Hz. rewrite Hz in HN2. by apply Qlt_irrefl in HN2.
  - intros H. by apply Qle_shift_div_r.
Qed.

(** The factor by the global step [e*N + i], for [N > 0]. *)
Lemma rampup_factor_range (N e i : Z) (r : Q) :
  (0 < N)%Z → (0 ≤ e * N + i)%Z →
  _rampup_factor e i N = Some r → 0 <= r ∧ r <= 1.
Proof.
  intros HN H0 Hr. rewrite rampup_factor_Some in Hr by lia.
  injection Hr as <-. rewrite py_min_Qmin. split; [|apply Q.le_min_l].
  apply Q.min_glb; [done|].
  apply (proj2 (ratio_bound (e * N + i) 0 N HN)). lia.
Qed.

Lemma rampup_factor_one (N e i : Z) (r : Q) :
  (0 < N)%Z → _rampup_factor e i N = Some r →
  (r == 1 ↔ (2 * N ≤ e * N + i)%Z).
Proof.
  intros HN Hr. rewrite rampup_factor_Some in Hr by lia. injection Hr as <-.
  rewrite py_min_Qmin. split.
  - intros Hm.
    assert (Hq : inject_Z 1 <= inject_Z (e * N + i) / inject_Z (2 * N)).
    { change (inject_Z 1) with 1. rewrite <- Hm at 1. apply Q.le_min_r. }
    apply ratio_bound in Hq; lia.
  - intros Hle. apply Q.min_l.
    apply (proj2 (ratio_bound (e * N + i) 1 N HN)). lia.
Qed.

Lemma rampup_factor_linear (N e i : Z) (r : Q) :
  (0 < N)%Z → (e * N + i ≤ 2 * N)%Z → _rampup_factor e i N = Some r →
  r == inject_Z (e * N + i) / inject_Z (2 * N).
Proof.
  intros HN Hle Hr. rewrite rampup_factor_Some in Hr by lia.
  injection Hr as <-. rewrite py_min_Qmin. apply Q.min_r.
  apply (proj2 (ratio_bound_r (e * N + i) 1 N HN)). lia.
Qed.

(** X1. For [N > 0] the ramp-up factor depends on the epoch and the
    iteration through the global step [e*N + i] only, and never decreases
    along it; from step 0 on it lies in [[0, 1]]. *)
Theorem rampup_factor_monotone (N e i e' i' : Z) (r r' : Q) :
  (0 < N)%Z →
  _rampup_factor e i N = Some r →
  _rampup_factor e' i' N = Some r' →
  ((e * N + i ≤ e' * N + i')%Z → r <= r')
  ∧ ((e * N + i = e' * N + i')%Z → r = r')
  ∧ ((0 ≤ e * N + i)%Z → 0 <= r ∧ r <= 1).
Proof.
  intros HN Hr Hr'. split_and!.
  - rewrite rampup_factor_Some in Hr, Hr' by lia.
    injection Hr as <-. injection Hr' as <-.
    intros Hle. rewrite !py_min_Qmin.
    apply Q.min_le_compat_l. by apply ratio_le.
  - rewrite rampup_factor_Some in Hr, Hr' by lia.
    injection Hr as <-. injection Hr' as <-. by intros ->.
  - intros H0. by apply (rampup_factor_range N e i).
Qed.

(** X2. For [N > 0] the factor is [1] exactly from the global step [2N]
    on, that is from the start of the third epoch, and it is the
    quotient [(e*N + i) / (2N)] itself up to there: the cap cuts nothing
    off during the first two epochs. *)
Theorem rampup_factor_saturates (N e i : Z) (r : Q) :
  (0 < N)%Z →
  _rampup_factor e i N = Some r →
  (r == 1 ↔ (2 * N ≤ e * N + i)%Z)
  ∧ ((e * N + i ≤ 2 * N)%Z → r == inject_Z (e * N + i) / inject_Z (2 * N))
  ∧ ((2 ≤ e)%Z → (0 ≤ i)%Z → r == 1).
Proof.
  intros HN Hr. split_and!.
  - by apply rampup_factor_one.
  - intros Hle. by apply rampup_factor_linear.
  - intros He Hi. apply (rampup_factor_one N e i r HN Hr). nia.
Qed.

End ScheduleExtras.

Section MaskExtras.
Variable tok : tokenizer_ids.
Implicit Types (h : gmap positive tval) (ω : mask_draws).

Lemma Qltb_lt (a b : Q) : Qltb a b = true ↔ (a < b)%Q.
Proof.
  unfold Qltb. rewrite negb_true_iff. split.
  - intros Hf. apply Qnot_le_lt. intros Hle%Qle_bool_iff. congruence.
  - intros Hlt. destruct (Qle_bool b a) eqn:E; [|done].
    apply Qle_bool_iff in E. by apply Qle_not_lt in E.
Qed.

Lemma Qltb_ge (a b : Q) : Qltb a b = false ↔ (b <= a)%Q.
Proof. unfold Qltb. by rewrite negb_false_iff, Qle_bool_iff. Qed.

Lemma bernoulli_probs (p : list (list Q)) u b :
  bernoulli p u = Some b → forallb (forallb is_prob) p = true.
Proof. unfold bernoulli. by destruct (forallb _ p). Qed.

(** Two tensors of one shape with the same elements are equal. *)
Lemma tensor_ext {A} (a b : list (list A)) :
  shape a = shape b → (∀ i j, tget a i j = tget b i j) → a = b.
Proof.
  intros Hs Hp. apply list_eq. intros i.
  pose proof (f_equal (λ s, s !! i) Hs) as Hi. unfold shape in Hi.
  rewrite !list_lookup_fmap in Hi.
  destruct (a !! i) as [ra|] eqn:Ea, (b !! i) as [rb|] eqn:Eb; try done.
  f_equal. apply list_eq. intros j. specialize (Hp i j).
  unfold tget in Hp. by rewrite Ea, Eb in Hp.
Qed.

(** A bit of a mask drawn with one probability everywhere. *)
Lemma drawn_mask_bit (ids0 : list (list Z)) (q : Q) u m0 i j x :
  bernoulli (full (shape ids0) q) u = Some m0 →
  tget ids0 i j = Some x →
  tget m0 i j = Some (Qltb (u i j) q).
Proof.
  intros [_ Hb]%bernoulli_Some Hx. rewrite Hb, tget_full.
  destruct (proj1 (tget_shape ids0 i j)) as (n & -> & Hn); [by eexists|].
  simpl. by rewrite decide_True.
Qed.


(** X4. What [mask] does to one token, by the draws at its position. A
    position outside the force-cleared mask keeps its id. At a masked
    position the id becomes the mask token when the first uniform sample
    is below 0.8; otherwise the random word when the second sample is
    below 0.5; otherwise it stays. (The labels are not written into the
    tensor of the ids.) *)
Theorem mask_outcome_by_draws input_ids V targets mi pm ω h lc res h'
    ids0 i j x :
  mask_body tok input_ids V targets mi pm ω h = Some (lc, res, h') →
  h !! input_ids = Some (TLong ids0) →
  targets ≠ Some input_ids →
  tget ids0 i j = Some x →
  ∃ fm out f,
    h' !! masked_indices lc = Some (TBool fm)
    ∧ h' !! input_ids = Some (TLong out)
    ∧ tget fm i j = Some f
    ∧ (f = false → tget out i j = Some x)
    ∧ (f = true →
       ((u_replaced ω i j < 8 # 10)%Q →
          tget out i j = Some (mask_token_id tok))
       ∧ ((8 # 10 <= u_replaced ω i j)%Q → (u_random ω i j < 5 # 10)%Q →
            tget out i j = Some (word ω i j))
       ∧ ((8 # 10 <= u_replaced ω i j)%Q → (5 # 10 <= u_random ω i j)%Q →
            tget out i j = Some x)).
Proof.
  intros Hm Hh Hna Hx.
  destruct (mask_body_inv _ _ _ _ _ _ _ _ _ _ _ Hm)
    as (ids0' & m0 & fm & out & Hh' & _ & _ & _ & _ & _ & _ & _ & _ & _
        & _ & Hfm & Hout & _ & Hpt & _).
  rewrite Hh in Hh'. injection Hh' as <-.
  destruct (Hpt i j x Hx) as (b & _ & Hf & _ & _ & _ & Ho).
  rewrite decide_False in Ho by done.
  exists fm, out, (cleared tok x b). split_and!; [done..| |].
  - intros Hc. rewrite Hc in Ho. unfold corrupted, randomized, replaced in Ho.
    by rewrite !andb_false_r in Ho.
  - intros Hc. rewrite Hc in Ho. unfold corrupted, randomized, replaced in Ho.
    rewrite !andb_true_r in Ho. split_and!.
    + intros Hu%Qltb_lt. by rewrite Hu in Ho.
    + intros Hu%Qltb_ge Hv%Qltb_lt. rewrite Hu, Hv in Ho. exact Ho.
    + intros Hu%Qltb_ge Hv%Qltb_ge. rewrite Hu, Hv in Ho. exact Ho.
Qed.

(** X5. [mask] keeps the ids in the vocabulary, unless the caller passes
    the tensor of the ids as [targets]: when every id on entry and the id
    of the mask token lie in [[0, vocab_size)] and the words are drawn
    from that range, so does every id on return if [targets] is [None] or
    another tensor; if [targets] is the tensor of the ids, every entry on
    return lies in that range or is [-100]. *)
Theorem mask_ids_stay_in_vocabulary input_ids V targets mi pm ω h lc res h'
    ids0 :
  mask_body tok input_ids V targets mi pm ω h = Some (lc, res, h') →
  h !! input_ids = Some (TLong ids0) →
  (∀ i j x, tget ids0 i j = Some x → (0 ≤ x < V)%Z) →
  (0 ≤ mask_token_id tok < V)%Z →
  (∀ i j, (0 ≤ word ω i j < V)%Z) →
  ∃ out, h' !! input_ids = Some (TLong out)
    ∧ shape out = shape ids0
    ∧ (targets ≠ Some input_ids →
       ∀ i j y, tget out i j = Some y → (0 ≤ y < V)%Z)
    ∧ (targets = Some input_ids →
       ∀ i j y, tget out i j = Some y → (0 ≤ y < V)%Z ∨ y = (-100)%Z).
Proof.
  intros Hm Hh Hids Hmt Hw.
  destruct (mask_body_inv _ _ _ _ _ _ _ _ _ _ _ Hm)
    as (ids0' & m0 & fm & out & Hh' & _ & _ & _ & _ & _ & _ & Hso & _ & _
        & _ & _ & Hout & _ & Hpt & _).
  rewrite Hh in Hh'. injection Hh' as <-.
  exists out. split_and!; [done..| |].
  - intros Hna i j y Hy.
    destruct (tget_same_shape out ids0 i j) as [x Hx]; [done | by eexists |].
    destruct (Hpt i j x Hx) as (b & _ & _ & _ & _ & _ & Ho).
    rewrite decide_False in Ho by done. rewrite Hy in Ho. injection Ho as ->.
    unfold corrupted. destruct (replaced _ _ _ _); [done|].
    destruct (randomized _ _ _ _); [done | by eapply Hids].
  - intros Hal i j y Hy.
    destruct (tget_same_shape out ids0 i j) as [x Hx]; [done | by eexists |].
    destruct (Hpt i j x Hx) as (b & _ & _ & _ & _ & _ & Ho).
    rewrite decide_True in Ho by done. rewrite Hy in Ho. injection Ho as ->.
    unfold corrupted. destruct (replaced _ _ _ _); [by left|].
    destruct (randomized _ _ _ _); [by left|].
    destruct (cleared tok x b); [left; by eapply Hids | by right].
Qed.

(** X6. The two ends of the probability range, for a mask that is drawn
    from uniform samples of [[0, 1)]. With probability 0 everywhere no
    position is masked: the ids come back as they were if [targets] is
    [None] or another tensor, and all [-100] if [targets] is the tensor of
    the ids; labels held in another tensor are all [-100]. With
    probability 1 everywhere every position is masked but those of the
    padding and the classification token. *)
Theorem mask_degenerate_probabilities input_ids V targets ω h lc res h'
    ids0 q :
  mask_body tok input_ids V targets None (Some (full (shape ids0) q)) ω h
  = Some (lc, res, h') →
  h !! input_ids = Some (TLong ids0) →
  (∀ i j, (0 <= u_masked ω i j < 1)%Q) →
  ∃ fm,
    h' !! masked_indices lc = Some (TBool fm)
    ∧ ((q == 0)%Q →
       fm = full (shape ids0) false
       ∧ (targets ≠ Some input_ids → h' !! input_ids = Some (TLong ids0))
       ∧ (targets = Some input_ids →
          h' !! input_ids = Some (TLong (full (shape ids0) (-100)%Z)))
       ∧ (∀ t, targets = Some t → t ≠ input_ids →
            h' !! t = Some (TLong (full (shape ids0) (-100)%Z))))
    ∧ ((q == 1)%Q →
       ∀ i j x, tget ids0 i j = Some x →
         tget fm i j
         = Some (bool_decide (x ≠ pad_token_id tok ∧ x ≠ cls_token_id tok))).
Proof.
  intros Hm Hh Hu.
  destruct (mask_body_inv _ _ _ _ _ _ _ _ _ _ _ Hm)
    as (ids0' & m0 & fm & out & Hh' & (_ & p & [= <-] & Hb) & _ & _ & _ & _
        & Hsfm & Hso & _ & _ & _ & Hfm & Hout & _ & Hpt & Htg).
  rewrite Hh in Hh'. injection Hh' as <-.
  assert (Hm0 : ∀ i j x, tget ids0 i j = Some x →
            tget m0 i j = Some (Qltb (u_masked ω i j) q)).
  { intros i j x Hx. by eapply drawn_mask_bit. }
  assert (Hfull : ∀ {A} (t : list (list A)) (v : A),
            shape t = shape ids0 →
            (∀ i j x, tget ids0 i j = Some x → tget t i j = Some v) →
            t = full (shape ids0) v).
  { intros A t v Hs Hv. apply tensor_ext; [by rewrite shape_full|].
    intros i j. rewrite tget_full.
    destruct (tget ids0 i j) as [x|] eqn:Hx.
    - rewrite (Hv i j x Hx).
      destruct (proj1 (tget_shape ids0 i j)) as (n & -> & Hn); [by eexists|].
      simpl. by rewrite decide_True.
    - apply eq_None_not_Some in Hx.
      destruct (tget t i j) eqn:E.
      { exfalso. apply Hx. apply (tget_same_shape t ids0); [done | by eexists]. }
      destruct (shape ids0 !! i) as [n|] eqn:En; [|done]. simpl.
      destruct (decide (j < n)) as [Hj|Hj]; [|done].
      exfalso. apply Hx, tget_shape. by exists n. }
  exists fm. split_and!; [done | |].
  - intros Hq.
    assert (Hfalse : ∀ i j x, tget ids0 i j = Some x →
              tget fm i j = Some false
              ∧ tget out i j
                = Some (if decide (targets = Some input_ids)
                        then (-100)%Z else x)).
    { intros i j x Hx. destruct (Hpt i j x Hx) as (b & Hb0 & Hf & _ & _ & _ & Ho).
      rewrite (Hm0 i j x Hx) in Hb0. injection Hb0 as <-.
      assert (Qltb (u_masked ω i j) q = false) as Hz.
      { apply Qltb_ge. rewrite Hq. apply Hu. }
      rewrite Hz in Hf, Ho. unfold cleared in Hf, Ho. simpl in Hf, Ho.
      split; [done|]. unfold corrupted, randomized, replaced in Ho.
      rewrite !andb_false_r in Ho. by destruct (decide _). }
    split_and!.
    + apply Hfull; [done|]. intros i j x Hx. by destruct (Hfalse i j x Hx).
    + intros Hna. rewrite Hout. do 2 f_equal. apply tensor_ext; [done|].
      intros i j. destruct (tget ids0 i j) as [x|] eqn:Hx.
      * destruct (Hfalse i j x Hx) as [_ ->]. by rewrite decide_False.
      * apply eq_None_not_Some in Hx.
        destruct (tget out i j) eqn:E; [|done].
        exfalso. apply Hx. apply (tget_same_shape out ids0); [done | by eexists].
    + intros Hal. rewrite Hout. do 2 f_equal. apply Hfull; [done|].
      intros i j x Hx. destruct (Hfalse i j x Hx) as [_ ->].
      by rewrite decide_True.
    + intros t Ht Hne.
      destruct (Htg t Ht Hne) as (_ & lab0 & lab & Hl0 & Hl & Hs0 & Hs & Hpl).
      rewrite Hl. do 2 f_equal. apply Hfull; [done|]. intros i j x Hx.
      destruct (tget_same_shape ids0 lab0 i j) as [y Hy];
        [congruence | by eexists |].
      destruct (Hpl i j y Hy) as (f & Hf & ->).
      destruct (Hfalse i j x Hx) as [Hf' _]. rewrite Hf in Hf'.
      by injection Hf' as ->.
  - intros Hq i j x Hx.
    destruct (Hpt i j x Hx) as (b & Hb0 & Hf & _).
    rewrite (Hm0 i j x Hx) in Hb0. injection Hb0 as <-.
    assert (Qltb (u_masked ω i j) q = true) as Hz.
    { apply Qltb_lt. rewrite Hq. apply Hu. }
    rewrite Hz in Hf. rewrite Hf. f_equal. unfold cleared. simpl.
    destruct (Z.eqb_spec x (pad_token_id tok)), (Z.eqb_spec x (cls_token_id tok));
      simpl; symmetry;
      (apply bool_decide_eq_true_2 || apply bool_decide_eq_false_2); tauto.
Qed.

(** X7. When the caller passes the tensor of the ids itself as [targets],
    the write of the labels goes into the ids: every position outside the
    mask, the padding and the classification token among them, holds
    [-100] on return, and the two tensors returned are that one tensor. *)
Theorem mask_aliased_targets input_ids V mi pm ω h lc res h' ids0 :
  mask_body tok input_ids V (Some input_ids) mi pm ω h = Some (lc, res, h') →
  h !! input_ids = Some (TLong ids0) →
  res = (input_ids, Some input_ids)
  ∧ ∃ fm out,
      h' !! masked_indices lc = Some (TBool fm)
      ∧ h' !! input_ids = Some (TLong out)
      ∧ ∀ i j x, tget ids0 i j = Some x →
          ∃ f, tget fm i j = Some f
               ∧ tget out i j
                 = Some (corrupted tok ω i j f (if f then x else -100)%Z)
               ∧ (f = false → tget out i j = Some (-100)%Z)
               ∧ (x = pad_token_id tok ∨ x = cls_token_id tok →
                  tget out i j = Some (-100)%Z).
Proof.
  intros Hm Hh.
  destruct (mask_body_inv _ _ _ _ _ _ _ _ _ _ _ Hm)
    as (ids0' & m0 & fm & out & Hh' & _ & _ & Hres & _ & _ & _ & _ & _ & _
        & _ & Hfm & Hout & _ & Hpt & _).
  rewrite Hh in Hh'. injection Hh' as <-. split; [done|].
  exists fm, out. split_and!; [done..|]. intros i j x Hx.
  destruct (Hpt i j x Hx) as (b & _ & Hf & _ & _ & _ & Ho).
  rewrite decide_True in Ho by done.
  assert (Hunm : cleared tok x b = false → tget out i j = Some (-100)%Z).
  { intros Hc. rewrite Hc in Ho. unfold corrupted, randomized, replaced in Ho.
    by rewrite !andb_false_r in Ho. }
  exists (cleared tok x b). split_and!; [done | done | done |].
  intros Hsp. by apply Hunm, cleared_special.
Qed.

(** X8. A mask that the caller supplies is updated in place: on return
    that tensor holds the caller's bits with those at the padding and the
    classification token cleared, so that a bit is never set and a bit
    elsewhere is as it was. A mask that is drawn is a new tensor. *)
Theorem mask_supplied_mask_in_place input_ids V targets mi pm ω h lc res h'
    ids0 :
  mask_body tok input_ids V targets mi pm ω h = Some (lc, res, h') →
  h !! input_ids = Some (TLong ids0) →
  (∀ l, mi = Some l →
     masked_indices lc = l
     ∧ ∃ m0 fm,
         h !! l = Some (TBool m0) ∧ h' !! l = Some (TBool fm)
         ∧ shape fm = shape m0
         ∧ ∀ i j x b, tget ids0 i j = Some x → tget m0 i j = Some b →
             tget fm i j
             = Some (if decide (x = pad_token_id tok ∨ x = cls_token_id tok)
                     then false else b))
  ∧ (mi = None → h !! masked_indices lc = None).
Proof.
  intros Hm Hh.
  destruct (mask_body_inv _ _ _ _ _ _ _ _ _ _ _ Hm)
    as (ids0' & m0 & fm & out & Hh' & Hmi & _ & _ & _ & Hsm0 & Hsfm & _ & _
        & _ & _ & Hfm & _ & _ & Hpt & _).
  rewrite Hh in Hh'. injection Hh' as <-. split.
  - intros l ->. destruct Hmi as [Hl Hm0]. split; [done|].
    exists m0, fm. rewrite <- Hl. split_and!; [by rewrite Hl | done | congruence |].
    intros i j x b Hx Hb. destruct (Hpt i j x Hx) as (b' & Hb' & Hf & _).
    rewrite Hb in Hb'. injection Hb' as <-. rewrite Hf. f_equal.
    unfold cleared.
    destruct (Z.eqb_spec x (pad_token_id tok)), (Z.eqb_spec x (cls_token_id tok));
      simpl; rewrite ?andb_false_r, ?andb_true_r;
      (rewrite decide_True by tauto) || (rewrite decide_False by tauto); done.
  - intros ->. destruct Hmi as [-> _]. apply fresh_lookup.
Qed.

End MaskExtras.

Section NumericExtras.
Local Open Scope R_scope.
Implicit Types (w row v : list R).

Lemma rsum_nonpos w : Forall (λ x, x <= 0) w → rsum w <= 0.
Proof.
  induction 1 as [|x w Hx _ IH]; [apply Rle_refl |].
  rewrite rsum_cons. cbv beta in Hx. lra.
Qed.

Lemma rsum_div w c : rsum ((λ x, x / c) <$> w) = rsum w / c.
Proof.
  induction w as [|x w IH]; [unfold rsum; simpl; lra|].
  rewrite fmap_cons, !rsum_cons, IH. lra.
Qed.

Lemma mean_nonneg w : Forall (λ x, 0 <= x) w → 0 <= mean w.
Proof.
  intros Hw. unfold mean. destruct w as [|x w].
  - unfold rsum. simpl. lra.
  - apply Rmult_le_pos; [by apply rsum_nonneg|].
    apply Rlt_le, Rinv_0_lt_compat, lt_0_INR. simpl. lia.
Qed.

Lemma mean_nonpos w : Forall (λ x, x <= 0) w → mean w <= 0.
Proof.
  intros Hw. unfold mean. destruct w as [|x w].
  - unfold rsum. simpl. lra.
  - assert (0 < / INR (length (x :: w))).
    { apply Rinv_0_lt_compat, lt_0_INR. simpl. lia. }
    pose proof (rsum_nonpos _ Hw). unfold Rdiv. nra.
Qed.

(** The softmax of a row that is not empty sums to one. *)
Lemma rsum_softmax row : row ≠ [] → rsum (softmax row) = 1.
Proof.
  intros Hne. unfold softmax. pose proof (rsum_exp_pos row Hne) as Hs.
  set (s := rsum (exp <$> row)) in *.
  replace ((λ x, exp x / s) <$> row) with ((λ y, y / s) <$> (exp <$> row))
    by (by rewrite <- list_fmap_compose).
  rewrite rsum_div. fold s. field. lra.
Qed.

Lemma log_softmax_nonpos row k y : log_softmax row !! k = Some y → y <= 0.
Proof.
  unfold log_softmax. rewrite list_lookup_fmap.
  destruct (row !! k) as [x|] eqn:Hx; [|done]. simpl. intros [= <-].
  assert (Hle : exp x <= rsum (exp <$> row)).
  { apply (rsum_lookup_le _ k).
    - apply Forall_fmap, Forall_forall. intros z _. simpl.
      apply Rlt_le, exp_pos.
    - by rewrite list_lookup_fmap, Hx. }
  pose proof (exp_pos x) as Hp.
  destruct (Rle_lt_or_eq_dec _ _ Hle) as [Hlt | Heq].
  - apply ln_increasing in Hlt; [|done]. rewrite ln_exp in Hlt. lra.
  - rewrite <- Heq, ln_exp. lra.
Qed.

(** [F.cross_entropy] is never negative. *)
Lemma cross_entropy_nonneg (logits : list (list R)) (labels : list Z) l :
  cross_entropy logits labels = Some l → 0 <= l.
Proof.
  unfold cross_entropy. case_bool_decide; [|done].
  destruct (mapM _ _) as [nll|] eqn:Hnll; [|done]. simpl. intros [= <-].
  apply mean_nonneg. apply mapM_Some in Hnll.
  apply Forall_lookup. intros k x Hx.
  destruct (Forall2_lookup_r _ _ _ _ _ Hnll Hx) as ([z c] & _ & Hk).
  simpl in Hk. destruct (c <? 0)%Z; [done|].
  destruct (log_softmax z !! Z.to_nat c) as [y|] eqn:Hy; [|done].
  simpl in Hk. injection Hk as <-. apply log_softmax_nonpos in Hy. lra.
Qed.

(** The loss against targets that are not negative is not negative. *)
Lemma soft_cross_entropy_nonneg (sim targets : list (list R)) :
  Forall (Forall (λ x, 0 <= x)) targets →
  0 <= soft_cross_entropy sim targets.
Proof.
  intros Ht. unfold soft_cross_entropy.
  enough (mean ((λ row, rsum row) <$> tzip Rmult (log_softmax <$> sim) targets)
          <= 0) by lra.
  apply mean_nonpos, Forall_fmap, Forall_lookup. intros i row Hrow. simpl.
  unfold tzip in Hrow. apply lookup_zip_with_Some in Hrow
    as (ls & t & -> & Hls & Hti).
  rewrite list_lookup_fmap in Hls.
  destruct (sim !! i) as [s|]; [|done]. injection Hls as <-.
  apply rsum_nonpos, Forall_lookup. intros j p Hp.
  apply lookup_zip_with_Some in Hp as (y & tj & -> & Hy & Htj).
  apply log_softmax_nonpos in Hy.
  pose proof (Forall_lookup_1 _ _ _ _ Ht Hti) as Hrow.
  pose proof (Forall_lookup_1 _ _ _ _ Hrow Htj) as Hpos. cbv beta in Hpos. nra.
Qed.

(** One row of the identity matching matrix. *)
Lemma rsum_identity_row (b k : nat) row :
  rsum (imap (λ j (_ : R), if decide (b = (k + j)%nat) then 1 else 0) row)
  = if decide (k ≤ b < k + length row)%nat then 1 else 0.
Proof.
  revert k. induction row as [|x row IH]; intros k.
  - simpl. rewrite decide_False by lia. done.
  - rewrite imap_cons, rsum_cons.
    rewrite (imap_ext _ (λ j (_ : R), if decide (b = (S k + j)%nat) then 1 else 0));
      [|intros; simpl; repeat case_decide; try lia; done].
    rewrite IH. simpl. repeat case_decide; try lia; lra.
Qed.

Lemma rsum_convex (a : R) (p e : list R) :
  length p = length e →
  rsum (zip_with (λ x y, a * x + (1 - a) * y) p e)
  = a * rsum p + (1 - a) * rsum e.
Proof.
  revert e. induction p as [|x p IH]; intros [|y e] Hl; try done.
  - unfold rsum. simpl. lra.
  - cbn [zip_with]. rewrite !rsum_cons, IH by (simpl in Hl; lia). lra.
Qed.

(** [F.normalize] returns a vector of the unit ball, and of the unit
    sphere unless the norm of its argument is below the threshold. *)
Lemma normalize_norm v :
  let n2 := rsum ((λ x, x * x) <$> normalize v) in
  0 <= n2 <= 1
  ∧ (1e-12 <= sqrt (rsum ((λ x, x * x) <$> v)) → n2 = 1).
Proof.
  unfold normalize.
  set (s := rsum ((λ x, x * x) <$> v)).
  assert (Hs : 0 <= s).
  { apply rsum_nonneg, Forall_fmap, Forall_forall. intros x _. simpl. nra. }
  set (c := Rmax (sqrt s) 1e-12).
  assert (Hc : 0 < c) by (unfold c; pose proof (Rmax_r (sqrt s) 1e-12); lra).
  assert (Hcs : sqrt s <= c) by apply Rmax_l.
  assert (Hsq : sqrt s * sqrt s = s) by (by apply sqrt_sqrt).
  assert (Hsum : rsum ((λ x, x * x) <$> ((λ x, x / c) <$> v)) = s / (c * c)).
  { unfold s. rewrite <- rsum_div, <- !list_fmap_compose.
    f_equal. apply list_fmap_ext. intros ? x _. simpl. field. lra. }
  cbv zeta. rewrite Hsum.
  assert (H0 : 0 <= sqrt s) by apply sqrt_pos.
  assert (Hcc : 0 < c * c) by nra.
  split_and!.
  - apply Rmult_le_pos; [done|]. by apply Rlt_le, Rinv_0_lt_compat.
  - apply (Rmult_le_reg_r (c * c)); [done|].
    unfold Rdiv. rewrite Rmult_assoc, Rinv_l by lra. nra.
  - intros Hge. assert (c = sqrt s) as -> by (unfold c; by apply Rmax_left).
    rewrite Hsq. field. lra.
Qed.

(** The Cauchy-Schwarz inequality for [dot]. *)
Lemma dot_cauchy_schwarz (a b : list R) :
  dot a b * dot a b
  <= rsum ((λ x, x * x) <$> a) * rsum ((λ x, x * x) <$> b).
Proof.
  unfold dot. revert b. induction a as [|x a IH]; intros [|y b].
  - unfold rsum. simpl. lra.
  - unfold rsum at 1 2 3. simpl.
    assert (0 <= rsum ((λ x, x * x) <$> (y :: b))).
    { apply rsum_nonneg, Forall_fmap, Forall_forall. intros z _. simpl. nra. }
    lra.
  - unfold rsum at 1 2 4. simpl.
    assert (0 <= rsum ((λ x, x * x) <$> (x :: a))).
    { apply rsum_nonneg, Forall_fmap, Forall_forall. intros z _. simpl. nra. }
    lra.
  - cbn [zip_with]. rewrite !fmap_cons, !rsum_cons.
    specialize (IH b).
    set (S := rsum (zip_with Rmult a b)) in *.
    set (A := rsum ((λ x, x * x) <$> a)) in *.
    set (B := rsum ((λ x, x * x) <$> b)) in *.
    assert (HA : 0 <= A).
    { apply rsum_nonneg, Forall_fmap, Forall_forall. intros z _. simpl. nra. }
    assert (HB : 0 <= B).
    { apply rsum_nonneg, Forall_fmap, Forall_forall. intros z _. simpl. nra. }
    (* 2xyS <= x²B + y²A, from (2xyS)² <= 4 x²y² AB <= (x²B + y²A)² *)
    assert (Hc : 2 * (x * y) * S <= x * x * B + y * y * A).
    { assert (Hq : (2 * (x * y) * S) * (2 * (x * y) * S)
                   <= (x * x * B + y * y * A) * (x * x * B + y * y * A)).
      { assert (0 <= (x * y) * (x * y)) by nra.
        assert ((x * y) * (x * y) * (S * S) <= (x * y) * (x * y) * (A * B))
          by (apply Rmult_le_compat_l; done).
        pose proof (Rle_0_sqr (x * x * B - y * y * A)) as Hd. unfold Rsqr in Hd.
        replace ((x * x * B + y * y * A) * (x * x * B + y * y * A))
          with ((x * x * B - y * y * A) * (x * x * B - y * y * A)
                + 4 * (x * y * (x * y) * (A * B))) by ring.
        replace (2 * (x * y) * S * (2 * (x * y) * S))
          with (4 * (x * y * (x * y) * (S * S))) by ring.
        lra. }
      assert (H0 : 0 <= x * x * B + y * y * A) by nra.
      destruct (Rle_or_lt (2 * (x * y) * S) (x * x * B + y * y * A))
        as [|Hlt]; [done|].
      exfalso. assert (0 <= 2 * (x * y) * S) by lra.
      assert ((x * x * B + y * y * A) * (x * x * B + y * y * A)
              < (2 * (x * y) * S) * (2 * (x * y) * S)); [|lra].
      apply Rle_lt_trans with ((x * x * B + y * y * A) * (2 * (x * y) * S)).
      - apply Rmult_le_compat_l; lra.
      - apply Rmult_lt_compat_r; lra. }
    replace ((x * y + S) * (x * y + S))
      with (x * y * (x * y) + 2 * (x * y) * S + S * S) by ring.
    replace ((x * x + A) * (y * y + B))
      with (x * y * (x * y) + (x * x * B + y * y * A) + A * B) by ring.
    lra.
Qed.

End NumericExtras.

Section ForwardExtras.
Context `{Backbone}.
Local Open Scope R_scope.
Implicit Types (h : gmap positive tval).

(** The features, the masked-language-modelling loss and the model that
    a successful run of [forward] returns. *)
Lemma forward_features_inv self samples ω h self' lcs out h' :
  forward self samples ω h = Some (self', lcs, out, h') →
  let self1 := _momentum_update (set_temp self (clamp (temp self) 0.001 0.5)) in
  let image_embeds_m := vit (visual_encoder_m self1) <$> image samples in
  l_image_feat lcs
  = (λ e, normalize (linear (vision_proj self) (first_token e)))
      <$> l_image_embeds lcs
  ∧ l_text_feat lcs
    = (λ e, normalize (linear (text_proj self) (first_token e)))
        <$> l_text_embeds lcs
  ∧ l_image_feat_m lcs
    = (λ e, normalize (linear (vision_proj_m self1) (first_token e)))
        <$> image_embeds_m
  ∧ l_text_feat_m lcs
    = (λ e, normalize (linear (text_proj_m self1) (first_token e)))
        <$> zip_with (bert_text (text_encoder_m self1))
              (tokenized_ids self samples) (l_attention_mask lcs)
  ∧ self' = _dequeue_and_enqueue self1 (l_image_feat_m lcs) (l_text_feat_m lcs)
  ∧ ∃ ids lab,
      h' !! l_input_ids lcs = Some (TLong ids)
      ∧ h' !! l_labels lcs = Some (TLong lab)
      ∧ loss_mlm out
        = mlm_loss (text_encoder self) ids (l_attention_mask lcs)
            (l_image_embeds lcs) lab
            (tmap softmax
               (mlm_logits (text_encoder_m self1) ids (l_attention_mask lcs)
                  image_embeds_m))
            (l_alpha lcs).
Proof.
  intros Hf. unfold forward in Hf.
  apply bind_Some in Hf as (r & ? & [Hr ->]%lift_Some & Hf).
  apply bind_Some in Hf as (tl & ? & [-> ->]%alloc_Some & Hf).
  apply bind_Some in Hf as (ids & ? & [Hids ->]%load_long_Some & Hf).
  rewrite lookup_insert_eq in Hids. injection Hids as <-.
  apply bind_Some in Hf as (ids' & ? & [Hids' ->]%load_long_Some & Hf).
  rewrite lookup_insert_eq in Hids'. injection Hids' as <-.
  apply bind_Some in Hf as (ti2t & ? & [Hti2t ->]%lift_Some & Hf).
  apply bind_Some in Hf as (tt2i & ? & [Htt2i ->]%lift_Some & Hf).
  apply bind_Some in Hf as (neg_image & ? & [Hni ->]%lift_Some & Hf).
  apply bind_Some in Hf as (ien & ? & [Hien ->]%lift_Some & Hf).
  apply bind_Some in Hf as (ien' & ? & [Hien' ->]%lift_Some & Hf).
  apply bind_Some in Hf as (neg_text & ? & [Hnt ->]%lift_Some & Hf).
  apply bind_Some in Hf as (ten & ? & [Hten ->]%lift_Some & Hf).
  apply bind_Some in Hf as (tan & ? & [Htan ->]%lift_Some & Hf).
  apply bind_Some in Hf as (ten' & ? & [Hten' ->]%lift_Some & Hf).
  apply bind_Some in Hf as (tan' & ? & [Htan' ->]%lift_Some & Hf).
  apply bind_Some in Hf as (litm & ? & [Hitm ->]%lift_Some & Hf).
  apply bind_Some in Hf as (iloc & h2 & Hcl1 & Hf).
  apply bind_Some in Hf as (lloc & h3 & Hcl2 & Hf).
  apply bind_Some in Hf as (lab & ? & [Hlab ->]%load_long_Some & Hf).
  apply bind_Some in Hf as ([iloc' [lloc'|]] & h4 & Hmask & Hf); [|done].
  apply bind_Some in Hf as (ids2 & ? & [Hids2 ->]%load_long_Some & Hf).
  apply bind_Some in Hf as (lab2 & ? & [Hlab2 ->]%load_long_Some & Hf).
  apply ret_Some in Hf. injection Hf as -> -> -> ->.
  simpl. split_and!; try reflexivity.
  exists ids2, lab2. split_and!; [done | done | reflexivity].
Qed.

Lemma replicate_eq_inv {A} (n m : nat) (a b : A) :
  replicate n a = replicate m b → n = m ∧ (n ≠ 0%nat → a = b).
Proof.
  intros Hr. pose proof (f_equal length Hr) as Hl.
  rewrite !length_replicate in Hl. subst m. split; [done|].
  intros Hn. destruct n; [done|]. by injection Hr.
Qed.

(** X9. [forward] raises unless the batch fits the model: a schedule
    with a non-zero number of iterations per epoch, as many captions as
    images and at least two of them, an image queue and a text queue of
    one capacity, a vocabulary that is not empty and, as soon as a caption
    has a token, a masking probability in [[0, 1]]. *)
Theorem forward_requires self samples ω h self' lcs out h' :
  forward self samples ω h = Some (self', lcs, out, h') →
  num_iters_per_epoch samples ≠ 0%Z
  ∧ length (text_input samples) = length (image samples)
  ∧ (2 ≤ length (image samples))%nat
  ∧ length (image_queue self) = length (text_queue self)
  ∧ (0 < vocab_size)%Z
  ∧ (∀ i j x, tget (tokenized_ids self samples) i j = Some x →
       is_prob (mlm_probability self) = true).
Proof.
  intros Hf. pose proof (forward_batch_sizes _ _ _ _ _ _ _ _ Hf) as Hcap.
  destruct (forward_inv _ _ _ _ _ _ _ _ Hf)
    as ((r & Hr & _) & _ & (Hs1 & Hs2 & Hs3 & Hs4)
        & (Hl1 & Hl2 & Hl3 & Hl4 & Ha1 & Ha2) & (Ht & Hm1 & Hm2) & _
        & (_ & Hw1 & Hw2 & Hn1 & Hn2)
        & _ & (ien & _ & _ & Hien & _ & _ & Hne & _) & _
        & (_ & _ & _ & Hmask)).
  assert (Hbs : (2 ≤ length (image samples))%nat).
  { destruct (length (image samples)) as [|[|bs]] eqn:Ebs; [| |lia]; exfalso.
    - cbn in Hn1. injection Hn1 as Hn1. rewrite <- Hn1 in Hien.
      cbn in Hien. injection Hien as <-. done.
    - rewrite Hw2 in Hn1. cbn in Hn1.
      by rewrite draw_negative_single in Hn1. }
  split_and!; [| done | done | | |].
  - intros HN. unfold _rampup_factor, true_div in Hr.
    rewrite HN in Hr. done.
  - rewrite Ht in Hm2. apply soft_targets_madd in Hm2 as [Hs _].
    rewrite Hs1, Hs2, !shape_mdiv_matmul in Hs.
    apply replicate_eq_inv in Hs as [_ Hs].
    rewrite Ha1, Ha2, !length_app, Hl2, Hl4 in Hs. lia.
  - apply mask_Some in Hmask as [lc Hmb].
    by destruct (mask_body_inv _ _ _ _ _ _ _ _ _ _ _ Hmb)
      as (? & ? & ? & ? & _ & _ & _ & _ & HV & _).
  - intros i j x Hx.
    apply mask_Some in Hmask as [lc Hmb].
    destruct (mask_body_inv _ _ _ _ _ _ _ _ _ _ _ Hmb)
      as (? & m0 & ? & ? & _ & (_ & p & [= <-] & Hb) & _).
    apply bernoulli_probs in Hb.
    destruct (proj1 (tget_shape _ i j) (ex_intro _ x Hx)) as (n & Hn & Hj).
    unfold shape in Hn. rewrite list_lookup_fmap in Hn.
    destruct (tokenized_ids self samples !! i) as [row|] eqn:Hrow; [|done].
    injection Hn as <-.
    assert (Hin : replicate (length row) (mlm_probability self)
                  ∈ full (shape (tokenized_ids self samples))
                         (mlm_probability self)).
    { unfold full, shape. rewrite <- list_fmap_compose.
      apply list_elem_of_fmap. exists row. split; [done|].
      by eapply list_elem_of_lookup_2. }
    rewrite forallb_forall in Hb. apply list_elem_of_In in Hin.
    specialize (Hb _ Hin). rewrite forallb_forall in Hb. apply Hb.
    apply list_elem_of_In, elem_of_replicate. split; [done | lia].
Qed.

End ForwardExtras.

Section ForwardExtras2.
Context `{Backbone}.
Local Open Scope R_scope.
Implicit Types (h : gmap positive tval).

(** The weight of the teacher in the targets, by the schedule. *)
Lemma forward_alpha_range self samples ω h self' lcs out h' :
  forward self samples ω h = Some (self', lcs, out, h') →
  (0 < num_iters_per_epoch samples)%Z →
  (0 ≤ epoch samples)%Z → (0 ≤ iters samples)%Z →
  0 <= alpha self →
  0 <= l_alpha lcs <= alpha self.
Proof.
  intros Hf HN He Hi Ha.
  destruct (forward_inv _ _ _ _ _ _ _ _ Hf) as ((r & Hr & ->) & _).
  assert (Hstep : (0 ≤ epoch samples * num_iters_per_epoch samples
                       + iters samples)%Z) by nia.
  destruct (rampup_factor_range _ _ _ _ HN Hstep Hr) as [H0 H1].
  apply Qreals.Qle_Rle in H0, H1.
  rewrite RMicromega.Q2R_0 in H0. rewrite RMicromega.Q2R_1 in H1. nra.
Qed.

(** A matrix [a @ b / c] whose rows are no longer than the columns of [b]
    are many has its diagonal inside. *)
Lemma sim_diagonal_inside (a cols : list (list R)) c b row :
  (length a ≤ length cols)%nat →
  mdiv (matmul a cols) c !! b = Some row → (b < length row)%nat.
Proof.
  intros Hl Hb. pose proof (lookup_lt_Some _ _ _ Hb) as Hlt.
  rewrite length_mdiv_matmul in Hlt.
  apply sim_row_length in Hb. lia.
Qed.

(** A row of the soft targets is a distribution when the weight lies in
    [[0, 1]] and the diagonal lies inside the matrix. *)
Lemma soft_targets_distribution (a : R) (m : list (list R)) :
  0 <= a <= 1 →
  (∀ b row, m !! b = Some row → (b < length row)%nat) →
  Forall (λ row, Forall (λ x, 0 <= x) row ∧ rsum row = 1) (soft_targets a m).
Proof.
  intros Ha Hd. apply Forall_lookup. intros b t Ht.
  unfold soft_targets, tzip in Ht.
  apply lookup_zip_with_Some in Ht as (p & e & -> & Hp & He).
  rewrite list_lookup_fmap in Hp. unfold identity_like in He.
  rewrite list_lookup_imap in He.
  destruct (m !! b) as [row|] eqn:Hrow; [|done].
  injection Hp as <-. injection He as <-. specialize (Hd b row Hrow).
  split.
  - apply Forall_lookup. intros j x Hx.
    apply lookup_zip_with_Some in Hx as (pj & ej & -> & Hpj & Hej).
    pose proof (Forall_lookup_1 _ _ _ _ (softmax_pos row) Hpj) as Hpos.
    cbv beta in Hpos. rewrite list_lookup_imap in Hej.
    destruct (row !! j); [|done]. injection Hej as <-.
    case_decide; nra.
  - rewrite rsum_convex by (by rewrite length_softmax, length_imap).
    rewrite rsum_softmax by (intros ->; simpl in Hd; lia).
    pose proof (rsum_identity_row b 0 row) as Hi. simpl in Hi. rewrite Hi.
    rewrite decide_True by lia. lra.
Qed.

(** X10. With a configured weight [alpha] in [[0, 1]] and a schedule that
    has started, every row of the two matrices of contrastive targets is a
    probability distribution: its entries are not negative and sum to
    one. *)
Theorem forward_soft_targets_are_distributions self samples ω h self' lcs
    out h' :
  forward self samples ω h = Some (self', lcs, out, h') →
  (0 < num_iters_per_epoch samples)%Z →
  (0 ≤ epoch samples)%Z → (0 ≤ iters samples)%Z →
  0 <= alpha self <= 1 →
  ∀ t, t = l_sim_i2t_targets lcs ∨ t = l_sim_t2i_targets lcs →
    length t = length (image samples)
    ∧ Forall (λ row, Forall (λ x, 0 <= x) row ∧ rsum row = 1) t.
Proof.
  intros Hf HN He Hi Ha t Ht.
  pose proof (forward_alpha_range _ _ _ _ _ _ _ _ Hf HN He Hi (proj1 Ha))
    as Hal.
  pose proof (forward_batch_sizes _ _ _ _ _ _ _ _ Hf) as Hcap.
  destruct (forward_inv _ _ _ _ _ _ _ _ Hf)
    as (_ & _ & (Hs1 & Hs2 & _) & (_ & Hl2 & _ & Hl4 & Ha1 & Ha2)
        & (Htg & Hm1 & Hm2) & _).
  rewrite Htg in Hm1, Hm2.
  apply soft_targets_madd in Hm1 as [_ Hm1], Hm2 as [_ Hm2].
  assert (Hlen : ∀ a m, length (soft_targets a m) = length m).
  { intros a m. pose proof (f_equal length (shape_tzip
      (λ p e, a * p + (1 - a) * e) (softmax <$> m) (identity_like m)
      ltac:(by rewrite shape_fmap_softmax, shape_identity_like))) as Hs.
    unfold shape in Hs. rewrite !length_fmap in Hs. exact Hs. }
  destruct Ht as [-> | ->].
  - rewrite Hm1. split.
    + by rewrite Hlen, Hs1, length_mdiv_matmul.
    + apply soft_targets_distribution; [lra|]. rewrite Hs1.
      intros b row. apply sim_diagonal_inside.
      rewrite Ha2, length_app. lia.
  - rewrite Hm2. split.
    + rewrite Hlen, Hs2, length_mdiv_matmul. congruence.
    + apply soft_targets_distribution; [lra|]. rewrite Hs2.
      intros b row. apply sim_diagonal_inside.
      rewrite Ha1, length_app. lia.
Qed.

(** X11. The matching loss is never negative; neither is the contrastive
    loss when the configured weight [alpha] lies in [[0, 1]] and the
    schedule has started. *)
Theorem forward_losses_nonneg self samples ω h self' lcs out h' :
  forward self samples ω h = Some (self', lcs, out, h') →
  0 <= loss_itm out
  ∧ ((0 < num_iters_per_epoch samples)%Z →
     (0 ≤ epoch samples)%Z → (0 ≤ iters samples)%Z →
     0 <= alpha self <= 1 →
     0 <= l_loss_i2t lcs ∧ 0 <= l_loss_t2i lcs ∧ 0 <= loss_ita out).
Proof.
  intros Hf.
  destruct (forward_inv _ _ _ _ _ _ _ _ Hf)
    as (_ & _ & (Hs1 & Hs2 & _) & (_ & Hl2 & _ & Hl4 & Ha1 & Ha2)
        & (Htg & Hm1 & Hm2) & (Hl1 & Hl2' & Hita & _) & _ & _ & _
        & (_ & Hce) & _).
  split; [by eapply cross_entropy_nonneg|].
  intros HN He Hi Ha.
  pose proof (forward_alpha_range _ _ _ _ _ _ _ _ Hf HN He Hi (proj1 Ha))
    as Hal.
  pose proof (forward_batch_sizes _ _ _ _ _ _ _ _ Hf) as Hcap.
  rewrite Htg in Hm1, Hm2.
  apply soft_targets_madd in Hm1 as [_ Hm1], Hm2 as [_ Hm2].
  assert (0 <= l_loss_i2t lcs) as H1.
  { rewrite Hl1. apply soft_cross_entropy_nonneg. rewrite Hm1.
    eapply Forall_impl;
      [apply soft_targets_distribution; [lra|] | by intros ? [? _]].
    rewrite Hs1. intros b row. apply sim_diagonal_inside.
    rewrite Ha2, length_app. lia. }
  assert (0 <= l_loss_t2i lcs) as H2.
  { rewrite Hl2'. apply soft_cross_entropy_nonneg. rewrite Hm2.
    eapply Forall_impl;
      [apply soft_targets_distribution; [lra|] | by intros ? [? _]].
    rewrite Hs2. intros b row. apply sim_diagonal_inside.
    rewrite Ha1, length_app. lia. }
  split_and!; [done | done |]. rewrite Hita. lra.
Qed.

Lemma tzip_right {A} (f : A → R → R) (a : list (list A)) (b : list (list R)) :
  shape a = shape b → (∀ x y, f x y = y) → tzip f a b = b.
Proof.
  intros Hs Hf. apply tensor_ext; [by rewrite shape_tzip|].
  intros i j. rewrite tget_tzip.
  destruct (tget b i j) as [y|] eqn:Hy.
  - destruct (tget_same_shape b a i j) as [x ->]; [done | by eexists |].
    simpl. by rewrite Hf.
  - by destruct (tget a i j).
Qed.

(** X12. The weight of the teacher follows the schedule. It lies between
    0 and the configured [alpha]; at the very first step it is 0, and the
    contrastive targets are the identity matching matrix itself; from the
    third epoch on it is the configured [alpha]. *)
Theorem forward_alpha_ramp self samples ω h self' lcs out h' :
  forward self samples ω h = Some (self', lcs, out, h') →
  (0 < num_iters_per_epoch samples)%Z →
  (0 ≤ epoch samples)%Z → (0 ≤ iters samples)%Z →
  0 <= alpha self →
  0 <= l_alpha lcs <= alpha self
  ∧ (epoch samples = 0%Z → iters samples = 0%Z →
     l_alpha lcs = 0
     ∧ l_sim_i2t_targets lcs = identity_like (l_sim_i2t_m lcs)
     ∧ l_sim_t2i_targets lcs = identity_like (l_sim_t2i_m lcs))
  ∧ ((2 ≤ epoch samples)%Z → l_alpha lcs = alpha self).
Proof.
  intros Hf HN He Hi Ha.
  split; [by eapply forward_alpha_range|].
  destruct (forward_inv _ _ _ _ _ _ _ _ Hf)
    as ((r & Hr & Hal) & _ & _ & _ & (Htg & Hm1 & Hm2) & _).
  split.
  - intros He0 Hi0.
    assert (Hr0 : (r == 0)%Q).
    { assert (Hstep : (epoch samples * num_iters_per_epoch samples
                         + iters samples
                         ≤ 2 * num_iters_per_epoch samples)%Z) by nia.
      rewrite (rampup_factor_linear _ _ _ _ HN Hstep Hr).
      rewrite He0, Hi0. simpl. unfold Qdiv. apply Qmult_0_l. }
    assert (H0 : l_alpha lcs = 0).
    { rewrite Hal, (Qreals.Qeq_eqR _ _ Hr0), RMicromega.Q2R_0. lra. }
    split; [done|]. rewrite Htg, H0 in Hm1, Hm2.
    apply soft_targets_madd in Hm1 as [_ ->], Hm2 as [_ ->].
    unfold soft_targets. split; apply tzip_right;
      try (by rewrite shape_fmap_softmax, shape_identity_like);
      intros; lra.
  - intros He2.
    assert (Hr1 : (r == 1)%Q).
    { apply (rampup_factor_one _ _ _ _ HN Hr). nia. }
    rewrite Hal, (Qreals.Qeq_eqR _ _ Hr1), RMicromega.Q2R_1. lra.
Qed.

(** X13. The composition of [forward] with [mask], which runs on two
    copies of the ids of the tokenizer with the probability of the model
    everywhere. A token is masked exactly when it is neither padding nor
    the classification token and the uniform sample at its position is
    below [mlm_probability]; its label is then the id of the tokenizer,
    and [-100] otherwise; the id fed to the encoder is the one of the
    tokenizer unless the token is masked. An id that was changed is
    therefore always supervised by its original. *)
Theorem forward_mlm_supervision self samples ω h self' lcs out h' :
  forward self samples ω h = Some (self', lcs, out, h') →
  ∃ ids lab,
    h' !! l_input_ids lcs = Some (TLong ids)
    ∧ h' !! l_labels lcs = Some (TLong lab)
    ∧ shape ids = shape (tokenized_ids self samples)
    ∧ shape lab = shape (tokenized_ids self samples)
    ∧ ∀ i j x, tget (tokenized_ids self samples) i j = Some x →
        let f := cleared tok x (Qltb (u_masked (mlm_draws ω) i j)
                                     (mlm_probability self)) in
        tget lab i j = Some (if f then x else -100)%Z
        ∧ tget ids i j = Some (corrupted tok (mlm_draws ω) i j f x)
        ∧ (f = false → tget ids i j = Some x)
        ∧ (tget ids i j ≠ Some x →
           tget lab i j = Some x
           ∧ x ≠ pad_token_id tok ∧ x ≠ cls_token_id tok).
Proof.
  intros Hf.
  destruct (forward_inv _ _ _ _ _ _ _ _ Hf)
    as (_ & _ & _ & _ & _ & _ & _ & _ & _ & _ & (_ & -> & -> & Hmask)).
  set (ids0 := tokenized_ids self samples) in *.
  set (tl := fresh (dom h)) in *.
  set (h1 := <[tl := TLong ids0]> h) in *.
  set (il := fresh (dom h1)) in *.
  set (h2 := <[il := TLong ids0]> h1) in *.
  set (ll := fresh (dom h2)) in *.
  set (h3 := <[ll := TLong ids0]> h2) in *.
  assert (Hll : ll ≠ il) by apply fresh_insert_ne.
  assert (H3i : h3 !! il = Some (TLong ids0)).
  { unfold h3, h2. rewrite lookup_insert_ne by done. apply lookup_insert_eq. }
  assert (H3l : h3 !! ll = Some (TLong ids0)) by apply lookup_insert_eq.
  apply mask_Some in Hmask as [lc Hmb].
  destruct (mask_body_inv _ _ _ _ _ _ _ _ _ _ _ Hmb)
    as (ids0' & m0 & fm & ids & Hh' & (_ & p & [= <-] & Hb) & _ & _ & _ & _
        & _ & Hso & _ & _ & _ & _ & Hout & _ & Hpt & Htg).
  rewrite H3i in Hh'. injection Hh' as <-.
  destruct (Htg ll eq_refl Hll) as (_ & lab0 & lab & Hl0 & Hl & _ & Hs & Hpl).
  rewrite H3l in Hl0. injection Hl0 as <-.
  exists ids, lab. split_and!; [done..|]. intros i j x Hx.
  destruct (Hpt i j x Hx) as (b & Hb0 & Hf' & _ & _ & _ & Ho).
  rewrite (drawn_mask_bit _ _ _ _ _ _ _ Hb Hx) in Hb0. injection Hb0 as <-.
  rewrite decide_False in Ho by congruence.
  destruct (Hpl i j x Hx) as (f & Hf'' & Hlab).
  rewrite Hf' in Hf''. injection Hf'' as <-.
  cbv zeta.
  assert (Hunm : cleared tok x (Qltb (u_masked (mlm_draws ω) i j)
                                      (mlm_probability self)) = false →
                 tget ids i j = Some x).
  { intros Hc. rewrite Hc in Ho. unfold corrupted, randomized, replaced in Ho.
    by rewrite !andb_false_r in Ho. }
  split_and!; [done | done | done |].
  intros Hch.
  destruct (cleared tok x _) eqn:Hc; [|by destruct Hch; apply Hunm].
  split; [done|].
  split; intros ->; rewrite cleared_special in Hc; auto; done.
Qed.

(** X14. Every feature vector of the batch, of the student or of the
    teacher, of an image or of a text, comes out of [F.normalize]: its
    squared Euclidean norm is at most one. *)
Theorem forward_features_normalised self samples ω h self' lcs out h' :
  forward self samples ω h = Some (self', lcs, out, h') →
  ∀ feat,
    feat = l_image_feat lcs ∨ feat = l_text_feat lcs
    ∨ feat = l_image_feat_m lcs ∨ feat = l_text_feat_m lcs →
    length feat = length (image samples)
    ∧ Forall (λ v, 0 <= rsum ((λ x, x * x) <$> v) <= 1) feat.
Proof.
  intros Hf feat Hfeat.
  pose proof (forward_batch_sizes _ _ _ _ _ _ _ _ Hf) as Hcap.
  destruct (forward_inv _ _ _ _ _ _ _ _ Hf)
    as (_ & _ & _ & (Hl1 & Hl2 & Hl3 & Hl4 & _) & _).
  destruct (forward_features_inv _ _ _ _ _ _ _ _ Hf)
    as (H1 & H2 & H3 & H4 & _).
  assert (Hn : ∀ {A} (g : A → list R) (l : list A),
            Forall (λ v, 0 <= rsum ((λ x, x * x) <$> v) <= 1)
                   ((λ e, normalize (g e)) <$> l)).
  { intros A g l. apply Forall_fmap, Forall_forall. intros e _. simpl.
    apply (normalize_norm (g e)). }
  destruct Hfeat as [-> | [-> | [-> | ->]]].
  - split; [done|]. rewrite H1. apply Hn.
  - split; [congruence|]. rewrite H2. apply Hn.
  - split; [done|]. rewrite H3. apply Hn.
  - split; [congruence|]. rewrite H4. apply Hn.
Qed.

Lemma tget_mdiv_matmul (a cols : list (list R)) c i j x :
  tget (mdiv (matmul a cols) c) i j = Some x →
  ∃ row col, a !! i = Some row ∧ cols !! j = Some col ∧ x = dot row col / c.
Proof.
  unfold mdiv. rewrite tget_tmap. unfold tget, matmul.
  rewrite list_lookup_fmap.
  destruct (a !! i) as [row|]; [|done]. simpl. rewrite list_lookup_fmap.
  destruct (cols !! j) as [col|]; [|done]. simpl. intros [= <-]. eauto.
Qed.

Lemma dot_unit_ball (a b : list R) :
  rsum ((λ x, x * x) <$> a) <= 1 → rsum ((λ x, x * x) <$> b) <= 1 →
  -1 <= dot a b <= 1.
Proof.
  intros Ha Hb. pose proof (dot_cauchy_schwarz a b) as Hcs.
  assert (0 <= rsum ((λ x, x * x) <$> a)).
  { apply rsum_nonneg, Forall_fmap, Forall_forall. intros z _. simpl. nra. }
  assert (0 <= rsum ((λ x, x * x) <$> b)).
  { apply rsum_nonneg, Forall_fmap, Forall_forall. intros z _. simpl. nra. }
  assert (dot a b * dot a b <= 1) by nra. nra.
Qed.

(** The entries of the four similarity matrices, for queues whose columns
    lie in the unit ball. *)
Lemma similarities_unit_ball self samples ω h self' lcs out h' :
  forward self samples ω h = Some (self', lcs, out, h') →
  Forall (λ v, rsum ((λ x, x * x) <$> v) <= 1) (image_queue self) →
  Forall (λ v, rsum ((λ x, x * x) <$> v) <= 1) (text_queue self) →
  ∀ sim,
    sim = l_sim_i2t lcs ∨ sim = l_sim_t2i lcs
    ∨ sim = l_sim_i2t_m lcs ∨ sim = l_sim_t2i_m lcs →
    ∀ i j x, tget sim i j = Some x →
      - / l_temp lcs <= x <= / l_temp lcs ∧ -1000 <= x <= 1000.
Proof.
  intros Hf Hiq Htq sim Hsim i j x Hx.
  destruct (forward_inv _ _ _ _ _ _ _ _ Hf)
    as (_ & (Ht & _) & (Hs1 & Hs2 & Hs3 & Hs4) & (_ & _ & _ & _ & Ha1 & Ha2)
        & _).
  destruct (forward_features_inv _ _ _ _ _ _ _ _ Hf)
    as (H1 & H2 & H3 & H4 & _).
  assert (Htemp : 0.001 <= l_temp lcs <= 0.5).
  { rewrite Ht. apply clamp_bounds. lra. }
  assert (Hn : ∀ {A} (g : A → list R) (l : list A),
            Forall (λ v, rsum ((λ x, x * x) <$> v) <= 1)
                   ((λ e, normalize (g e)) <$> l)).
  { intros A g l. apply Forall_fmap, Forall_forall. intros e _. simpl.
    apply (normalize_norm (g e)). }
  assert (Hif : Forall (λ v, rsum ((λ x, x * x) <$> v) <= 1) (l_image_feat lcs))
    by (rewrite H1; apply Hn).
  assert (Htf : Forall (λ v, rsum ((λ x, x * x) <$> v) <= 1) (l_text_feat lcs))
    by (rewrite H2; apply Hn).
  assert (Hifm : Forall (λ v, rsum ((λ x, x * x) <$> v) <= 1)
                        (l_image_feat_m lcs)) by (rewrite H3; apply Hn).
  assert (Htfm : Forall (λ v, rsum ((λ x, x * x) <$> v) <= 1)
                        (l_text_feat_m lcs)) by (rewrite H4; apply Hn).
  assert (Hia : Forall (λ v, rsum ((λ x, x * x) <$> v) <= 1)
                       (l_image_feat_all lcs))
    by (rewrite Ha1; by apply Forall_app).
  assert (Hta : Forall (λ v, rsum ((λ x, x * x) <$> v) <= 1)
                       (l_text_feat_all lcs))
    by (rewrite Ha2; by apply Forall_app).
  assert (Hb : ∀ a cols,
            Forall (λ v, rsum ((λ x, x * x) <$> v) <= 1) a →
            Forall (λ v, rsum ((λ x, x * x) <$> v) <= 1) cols →
            tget (mdiv (matmul a cols) (l_temp lcs)) i j = Some x →
            - / l_temp lcs <= x <= / l_temp lcs ∧ -1000 <= x <= 1000).
  { intros a cols Hfa Hfc Hg.
    apply tget_mdiv_matmul in Hg as (row & col & Hrow & Hcol & ->).
    pose proof (Forall_lookup_1 _ _ _ _ Hfa Hrow) as Hr.
    pose proof (Forall_lookup_1 _ _ _ _ Hfc Hcol) as Hc.
    cbv beta in Hr, Hc. pose proof (dot_unit_ball row col Hr Hc) as Hd.
    assert (Hinv : 0 < / l_temp lcs <= 1000).
    { split; [apply Rinv_0_lt_compat; lra|].
      replace 1000 with (/ 0.001) by lra.
      apply Rinv_le_contravar; lra. }
    unfold Rdiv. nra. }
  destruct Hsim as [-> | [-> | [-> | ->]]].
  - rewrite Hs3 in Hx. exact (Hb _ _ Hif Hta Hx).
  - rewrite Hs4 in Hx. exact (Hb _ _ Htf Hia Hx).
  - rewrite Hs1 in Hx. exact (Hb _ _ Hifm Hta Hx).
  - rewrite Hs2 in Hx. exact (Hb _ _ Htfm Hia Hx).
Qed.

(** X15. The similarities are bounded: as long as the columns of the two
    queues lie in the unit ball, every entry of the four similarity
    matrices is a dot product of two vectors of the unit ball divided by
    the clamped temperature, so that it lies in [[-1000, 1000]]. *)
Theorem forward_similarities_bounded self samples ω h self' lcs out h' :
  forward self samples ω h = Some (self', lcs, out, h') →
  Forall (λ v, rsum ((λ x, x * x) <$> v) <= 1) (image_queue self) →
  Forall (λ v, rsum ((λ x, x * x) <$> v) <= 1) (text_queue self) →
  ∀ sim,
    sim = l_sim_i2t lcs ∨ sim = l_sim_t2i lcs
    ∨ sim = l_sim_i2t_m lcs ∨ sim = l_sim_t2i_m lcs →
    ∀ i j x, tget sim i j = Some x →
      - / l_temp lcs <= x <= / l_temp lcs ∧ -1000 <= x <= 1000.
Proof. apply similarities_unit_ball. Qed.

(** X16. A batch of two leaves the draws no choice: the negative of
    either sample is the other one, for the images and for the texts. *)
Theorem forward_batch_of_two self samples ω h self' lcs out h' :
  forward self samples ω h = Some (self', lcs, out, h') →
  valid_forward_draws ω →
  length (image samples) = 2%nat →
  l_neg_image lcs = [1; 0]%nat ∧ l_neg_text lcs = [1; 0]%nat.
Proof.
  intros Hf [Hu1 Hu2] Hbs.
  destruct (forward_inv _ _ _ _ _ _ _ _ Hf)
    as (_ & _ & _ & _ & _ & _ & (_ & Hw1 & Hw2 & Hn1 & Hn2) & _).
  rewrite Hbs in *.
  assert (Hpair : ∀ sim u neg,
            (∀ b, 0 <= u b < 1) →
            mapM (draw_negative
                    (fill_diagonal (softmax <$> (take 2 <$> sim)) 0) u)
                 (seq 0 2) = Some neg →
            neg = [1; 0]%nat).
  { intros sim u neg Hu Hm. cbn in Hm.
    destruct (draw_negative _ u 0%nat) as [k0|] eqn:E0; [|done].
    destruct (draw_negative _ u 1%nat) as [k1|] eqn:E1; [|done].
    cbn in Hm. injection Hm as <-.
    apply draw_negative_Some in E0 as [? ?]; [|done].
    apply draw_negative_Some in E1 as [? ?]; [|done].
    f_equal; [lia|]. f_equal. lia. }
  rewrite Hw2 in Hn1. rewrite Hw1 in Hn2.
  split; [exact (Hpair _ _ _ Hu1 Hn1) | exact (Hpair _ _ _ Hu2 Hn2)].
Qed.

End ForwardExtras2.

(** ** Construction *)

Section ConstructionFacts.
Local Open Scope R_scope.

Lemma nn_Linear_Some i o draw w :
  nn_Linear i o draw = Some w → (0 ≤ i)%Z ∧ (0 ≤ o)%Z.
Proof.
  unfold nn_Linear. destruct (0 <=? i)%Z eqn:Ei, (0 <=? o)%Z eqn:Eo; try done.
  intros _. split; by apply Z.leb_le.
Qed.

Lemma randn_Some rows cols draw q :
  randn rows cols draw = Some q →
  (0 ≤ rows)%Z ∧ (0 ≤ cols)%Z
  ∧ length q = Z.to_nat cols
  ∧ ∀ j col, q !! j = Some col →
      col = (λ k, draw k j) <$> seq 0 (Z.to_nat rows).
Proof.
  unfold randn.
  destruct (0 <=? rows)%Z eqn:Er, (0 <=? cols)%Z eqn:Ec; try done.
  intros [= <-]. apply Z.leb_le in Er, Ec. split_and!; [done | done | |].
  - by rewrite length_fmap, length_seq.
  - intros j col. rewrite list_lookup_fmap.
    destruct (seq 0 (Z.to_nat cols) !! j) as [j'|] eqn:Ej; [|done].
    apply lookup_seq in Ej as [-> _]. by intros [= <-].
Qed.

Lemma length_normalize v : length (normalize v) = length v.
Proof. unfold normalize. by rewrite length_fmap. Qed.

(** What a successful construction determines, field by field. *)
Lemma init_inv ie te qs ed p t m a L ω self :
  __init__ ie te qs ed p t m a L ω = Some self →
  ∃ vp tp ih iq tq,
    nn_Linear (vision_width ie) ed (linear_init ω 0) = Some vp
    ∧ nn_Linear (hidden_size (config te)) ed (linear_init ω 1) = Some tp
    ∧ nn_Linear (hidden_size (config te)) 2 (linear_init ω 2) = Some ih
    ∧ randn ed qs (randn_image ω) = Some iq
    ∧ randn ed qs (randn_text ω) = Some tq
    ∧ self = {| visual_encoder := vit_parameters ie;
                text_encoder := bert_parameters te;
                vision_proj := vp; text_proj := tp; itm_head := ih;
                visual_encoder_m := vit_parameters ie;
                text_encoder_m := bert_parameters te;
                vision_proj_m := vp; text_proj_m := tp;
                image_queue := normalize <$> iq;
                text_queue := normalize <$> tq;
                queue_ptr := 0; queue_size := Z.to_nat qs;
                momentum := m; temp := t * 1; alpha := a;
                max_txt_len := L; mlm_probability := p |}.
Proof.
  unfold __init__. intros Hi.
  destruct (nn_Linear (vision_width ie) _ _) as [vp|]; [|done].
  destruct (nn_Linear (hidden_size _) ed _) as [tp|]; [|done].
  destruct (nn_Linear (hidden_size _) 2 _) as [ih|]; [|done].
  cbn in Hi.
  destruct (randn ed qs (randn_image ω)) as [iq|]; [|done].
  destruct (randn ed qs (randn_text ω)) as [tq|]; [|done].
  cbn in Hi. injection Hi as <-. by exists vp, tp, ih, iq, tq.
Qed.

(** The columns of a queue that has just been drawn and normalised. *)
Lemma fresh_queue rows cols draw q :
  randn rows cols draw = Some q →
  length (normalize <$> q) = Z.to_nat cols
  ∧ ∀ j col, (normalize <$> q) !! j = Some col →
      let drawn := (λ k, draw k j) <$> seq 0 (Z.to_nat rows) in
      col = normalize drawn
      ∧ length col = Z.to_nat rows
      ∧ 0 <= rsum ((λ x, x * x) <$> col) <= 1
      ∧ (1e-12 <= sqrt (rsum ((λ x, x * x) <$> drawn)) →
         rsum ((λ x, x * x) <$> col) = 1).
Proof.
  intros (_ & _ & Hlen & Hcol)%randn_Some. split; [by rewrite length_fmap|].
  intros j col. rewrite list_lookup_fmap.
  destruct (q !! j) as [c|] eqn:Hc; [|done]. intros [= <-].
  rewrite (Hcol j c Hc). cbv zeta. split; [done|]. split.
  { by rewrite length_normalize, length_fmap, length_seq. }
  split; apply normalize_norm.
Qed.

(** X17. A model that [__init__] returns: the sizes were not negative;
    every teacher holds the parameters of its online module; either queue
    has [queue_size] columns of [embed_dim] entries, each the normalised
    column of samples, so of squared norm at most one, and exactly one
    unless the norm of the samples is below the threshold of
    [F.normalize]; and the pointer is at 0. *)
Theorem init_state ie te qs ed p t m a L ω self :
  __init__ ie te qs ed p t m a L ω = Some self →
  ((0 ≤ qs)%Z ∧ (0 ≤ ed)%Z)
  ∧ (visual_encoder_m self = visual_encoder self
     ∧ text_encoder_m self = text_encoder self
     ∧ vision_proj_m self = vision_proj self
     ∧ text_proj_m self = text_proj self)
  ∧ (queue_ptr self = 0%nat ∧ queue_size self = Z.to_nat qs)
  ∧ ∀ q draw,
      (q = image_queue self ∧ draw = randn_image ω)
      ∨ (q = text_queue self ∧ draw = randn_text ω) →
      length q = queue_size self
      ∧ ∀ j col, q !! j = Some col →
          let drawn := (λ k, draw k j) <$> seq 0 (Z.to_nat ed) in
          col = normalize drawn
          ∧ length col = Z.to_nat ed
          ∧ 0 <= rsum ((λ x, x * x) <$> col) <= 1
          ∧ (1e-12 <= sqrt (rsum ((λ x, x * x) <$> drawn)) →
             rsum ((λ x, x * x) <$> col) = 1).
Proof.
  intros (vp & tp & ih & iq & tq & _ & _ & _ & Hiq & Htq & ->)%init_inv.
  simpl. split_and!; try done.
  - by apply randn_Some in Hiq as (_ & ? & _).
  - by apply randn_Some in Hiq as (? & _).
  - intros q draw [[-> ->] | [-> ->]].
    + by apply fresh_queue.
    + by apply fresh_queue.
Qed.

Lemma init_queues_unit_ball ie te qs ed p t m a L ω self :
  __init__ ie te qs ed p t m a L ω = Some self →
  length (image_queue self) = length (text_queue self)
  ∧ Forall (λ v, rsum ((λ x, x * x) <$> v) <= 1) (image_queue self)
  ∧ Forall (λ v, rsum ((λ x, x * x) <$> v) <= 1) (text_queue self).
Proof.
  intros (vp & tp & ih & iq & tq & _ & _ & _ & Hiq & Htq & ->)%init_inv.
  simpl. destruct (fresh_queue _ _ _ _ Hiq) as [Hl1 Hc1].
  destruct (fresh_queue _ _ _ _ Htq) as [Hl2 Hc2].
  split_and!; [congruence | |]; apply Forall_lookup; intros j col Hcol.
  - by destruct (Hc1 j col Hcol) as (_ & _ & [_ ?] & _).
  - by destruct (Hc2 j col Hcol) as (_ & _ & [_ ?] & _).
Qed.

Section Build.
Context `{Loaders}.

(** What a successful [_build_from_cfg] determines. *)
Lemma build_from_cfg_inv cfg ω self :
  _build_from_cfg cfg ω = Some self →
  ∃ c ie path c0 te n,
    cfg = Some c
    ∧ vit_build_from_cfg cfg true = Some ie
    ∧ cfg_med_config_path c = Some path
    ∧ bert_config_from_json_file path = Some c0
    ∧ bert_from_pretrained "bert-base-uncased" (set_fusion_layer c0 6)
      = Some te
    ∧ cfg_queue_size c = Some n ∧ n ≠ 0%Z
    ∧ __init__ ie te n (default 256%Z (cfg_embed_dim c))
               (default (15 # 100)%Q (cfg_mlm_mask_prob c))
               (default 0.07 (cfg_temp c)) (default 0.995 (cfg_momentum c))
               (default 0.4 (cfg_alpha c))
               (default 30%nat (cfg_max_txt_len c)) ω
      = Some self.
Proof.
  unfold _build_from_cfg. intros Hb.
  destruct (vit_build_from_cfg cfg true) as [ie|] eqn:Hie; [|done].
  destruct cfg as [c|]; [|done]. cbn in Hb.
  destruct (cfg_med_config_path c) as [path|] eqn:Hp; [|done]. cbn in Hb.
  destruct (bert_config_from_json_file path) as [c0|] eqn:Hc0; [|done].
  cbn in Hb.
  destruct (bert_from_pretrained _ _) as [te|] eqn:Hte; [|done]. cbn in Hb.
  destruct (cfg_queue_size c) as [n|] eqn:Hn; [|done]. cbn in Hb.
  destruct (n =? 0)%Z eqn:En; [done|]. cbn in Hb.
  apply Z.eqb_neq in En.
  by exists c, ie, path, c0, te, n.
Qed.

(** X18. [_build_from_cfg] raises unless it is given a configuration
    that names the file of the text encoder's configuration and a capacity
    of the queues that is positive: no capacity, or 0, fails the
    assertion, and a negative capacity fails in the constructor. The
    embedding dimension, given or defaulted to 256, must not be negative;
    and the text encoder is loaded with 6 as its fusion layer whatever the
    file says. *)
Theorem build_from_cfg_requires cfg ω self :
  _build_from_cfg cfg ω = Some self →
  ∃ c path n c0 te,
    cfg = Some c
    ∧ cfg_med_config_path c = Some path
    ∧ cfg_queue_size c = Some n ∧ (0 < n)%Z
    ∧ (0 ≤ default 256 (cfg_embed_dim c))%Z
    ∧ bert_config_from_json_file path = Some c0
    ∧ bert_from_pretrained "bert-base-uncased"
        {| hidden_size := hidden_size c0; fusion_layer := 6 |} = Some te
    ∧ text_encoder self = bert_parameters te.
Proof.
  intros (c & ie & path & c0 & te & n & -> & _ & Hp & Hc0 & Hte & Hn & Hn0
          & Hi)%build_from_cfg_inv.
  pose proof Hi as (? & ? & ? & iq & ? & _ & _ & _ & Hiq & _ & ->)%init_inv.
  apply randn_Some in Hiq as (Hed & Hqs & _).
  exists c, path, n, c0, te. split_and!; try done. lia.
Qed.

(** X19. The values that [_build_from_cfg] takes when the configuration
    leaves a key out suit [forward]: the temperature 0.07 lies in the
    range of the clamp, which will leave it as it is; the weight 0.4 lies
    in [[0, 1]]; the masking probability 0.15 is a probability. A value
    that the configuration gives is the one of the model. The queues have
    the capacity of the configuration, and columns of 256 entries unless
    the configuration says otherwise. *)
Theorem build_from_cfg_defaults c ω self :
  _build_from_cfg (Some c) ω = Some self →
  (temp self = default 0.07 (cfg_temp c)
   ∧ (cfg_temp c = None → clamp (temp self) 0.001 0.5 = temp self))
  ∧ (alpha self = default 0.4 (cfg_alpha c)
     ∧ (cfg_alpha c = None → 0 <= alpha self <= 1))
  ∧ (mlm_probability self = default (15 # 100)%Q (cfg_mlm_mask_prob c)
     ∧ (cfg_mlm_mask_prob c = None → is_prob (mlm_probability self) = true))
  ∧ momentum self = default 0.995 (cfg_momentum c)
  ∧ max_txt_len self = default 30%nat (cfg_max_txt_len c)
  ∧ (Some (Z.of_nat (queue_size self)) = cfg_queue_size c
     ∧ length (image_queue self) = queue_size self
     ∧ length (text_queue self) = queue_size self)
  ∧ Forall (λ col, length col = Z.to_nat (default 256%Z (cfg_embed_dim c)))
           (image_queue self ++ text_queue self).
Proof.
  intros (c' & ie & path & c0 & te & n & [= <-] & _ & _ & _ & _ & Hn & Hn0
          & Hi)%build_from_cfg_inv.
  pose proof Hi as (? & ? & ? & iq & tq & _ & _ & _ & Hiq & Htq & ->)%init_inv.
  destruct (fresh_queue _ _ _ _ Hiq) as [Hl1 Hc1].
  destruct (fresh_queue _ _ _ _ Htq) as [Hl2 Hc2].
  apply randn_Some in Hiq as (_ & Hqs & _).
  simpl. split_and!; try done.
  - lra.
  - intros ->. simpl. unfold clamp.
    rewrite Rmax_left by lra. rewrite Rmin_left by lra. done.
  - intros ->. simpl. lra.
  - by intros ->.
  - rewrite Hn. f_equal. lia.
  - apply Forall_app. split; apply Forall_lookup; intros j col Hcol.
    + by destruct (Hc1 j col Hcol) as (_ & ? & _).
    + by destruct (Hc2 j col Hcol) as (_ & ? & _).
Qed.

End Build.

End ConstructionFacts.

Section ConstructionForward.
Context `{Backbone}.
Local Open Scope R_scope.

(** The shape of the four similarity matrices. *)
Lemma similarities_shape self samples ω h self' lcs out h' :
  forward self samples ω h = Some (self', lcs, out, h') →
  let bs := length (image samples) in
  shape (l_sim_i2t lcs) = replicate bs (bs + length (text_queue self))%nat
  ∧ shape (l_sim_i2t_m lcs) = replicate bs (bs + length (text_queue self))%nat
  ∧ shape (l_sim_t2i lcs) = replicate bs (bs + length (image_queue self))%nat
  ∧ shape (l_sim_t2i_m lcs)
    = replicate bs (bs + length (image_queue self))%nat.
Proof.
  intros Hf bs.
  pose proof (forward_batch_sizes _ _ _ _ _ _ _ _ Hf) as Hcap.
  destruct (forward_inv _ _ _ _ _ _ _ _ Hf)
    as (_ & _ & (Hs1 & Hs2 & Hs3 & Hs4) & (Hl1 & Hl2 & Hl3 & Hl4 & Ha1 & Ha2)
        & _).
  rewrite Hs1, Hs2, Hs3, Hs4, !shape_mdiv_matmul.
  rewrite Ha1, Ha2, !length_app, Hl1, Hl2, Hl3, Hl4, Hcap. done.
Qed.

(** X20. [__init__] followed by [forward]: on a model as it is
    constructed, whatever the samples drawn for the queues, the four
    similarity matrices of a call that returns have one row per sample and
    one column per sample and per slot of the queue, and all their entries
    lie in [[-1000, 1000]]; the temperature of the call is the clamped
    argument of the constructor. *)
Theorem init_then_forward ie te qs ed p t m a L ω0 self samples ω h self'
    lcs out h' :
  __init__ ie te qs ed p t m a L ω0 = Some self →
  forward self samples ω h = Some (self', lcs, out, h') →
  l_temp lcs = clamp t 0.001 0.5
  ∧ ∀ sim,
      sim = l_sim_i2t lcs ∨ sim = l_sim_t2i lcs
      ∨ sim = l_sim_i2t_m lcs ∨ sim = l_sim_t2i_m lcs →
      shape sim
      = replicate (length (image samples))
                  (length (image samples) + Z.to_nat qs)%nat
      ∧ ∀ i j x, tget sim i j = Some x → -1000 <= x <= 1000.
Proof.
  intros Hi Hf.
  destruct (init_queues_unit_ball _ _ _ _ _ _ _ _ _ _ _ Hi) as (Hlen & Hiq & Htq).
  pose proof Hi as (vp & tp & ih & iq & tq & _ & _ & _ & Hriq & Hrtq & Hself)%init_inv.
  destruct (fresh_queue _ _ _ _ Hriq) as [Hl1 _].
  destruct (fresh_queue _ _ _ _ Hrtq) as [Hl2 _].
  assert (Hqi : length (image_queue self) = Z.to_nat qs) by (by rewrite Hself).
  assert (Hqt : length (text_queue self) = Z.to_nat qs) by (by rewrite Hself).
  assert (Ht : temp self = t) by (rewrite Hself; simpl; lra).
  destruct (forward_inv _ _ _ _ _ _ _ _ Hf) as (_ & (Htemp & _) & _).
  split; [by rewrite Htemp, Ht|].
  destruct (similarities_shape _ _ _ _ _ _ _ _ Hf) as (S1 & S2 & S3 & S4).
  rewrite Hqi in S3, S4. rewrite Hqt in S1, S2.
  intros sim Hsim. split.
  - by destruct Hsim as [-> | [-> | [-> | ->]]].
  - intros i j x Hx.
    by destruct (similarities_unit_ball _ _ _ _ _ _ _ _ Hf Hiq Htq sim Hsim
                   i j x Hx).
Qed.

End ConstructionForward.

(** The constructor returns when no size is negative. *)
Lemma init_total ie te qs ed p t m a L ω :
  (0 ≤ vision_width ie)%Z → (0 ≤ hidden_size (config te))%Z →
  (0 ≤ qs)%Z → (0 ≤ ed)%Z →
  is_Some (__init__ ie te qs ed p t m a L ω).
Proof.
  intros Hv Ht Hq He. unfold __init__, nn_Linear, randn.
  apply Z.leb_le in Hv as ->, Ht as ->, Hq as ->, He as ->. simpl. done.
Qed.

Section HardTargets.
Local Open Scope R_scope.

Local Arguments log_softmax : simpl never.

(** The sum of a row against a row of the identity matrix picks one
    entry. *)
Lemma rsum_onehot (b k : nat) (ls mrow : list R) :
  length ls = length mrow →
  rsum (zip_with Rmult ls
          (imap (λ j (_ : R), if decide (b = (k + j)%nat) then 1 else 0) mrow))
  = if decide (k ≤ b)%nat then default 0 (ls !! (b - k)%nat) else 0.
Proof.
  revert k mrow. induction ls as [|x ls IH]; intros k [|y mrow] Hl; try done.
  - unfold rsum. simpl. by case_decide.
  - rewrite imap_cons. cbn [zip_with]. rewrite rsum_cons.
    rewrite (imap_ext _ (λ j (_ : R), if decide (b = (S k + j)%nat) then 1 else 0));
      [|intros; simpl; repeat case_decide; try lia; done].
    rewrite IH by (simpl in Hl; lia).
    destruct (decide (b = k)) as [->|Hne].
    + rewrite decide_True by lia. rewrite decide_False by lia.
      rewrite decide_True by lia. rewrite Nat.sub_diag. simpl. lra.
    + rewrite (decide_False (P := b = (k + 0)%nat)) by lia.
      destruct (decide (k ≤ b)%nat) as [Hle|Hgt].
      * rewrite decide_True by lia.
        replace (b - k)%nat with (S (b - S k)) by lia. simpl. lra.
      * rewrite decide_False by lia. lra.
Qed.

(** [F.cross_entropy] against the labels [k, k+1, ...]. *)
Lemma nll_arange (k : nat) (sim : list (list R)) :
  (∀ i row, sim !! i = Some row → (k + i < length row)%nat) →
  mapM (λ zl : list R * Z,
          if (zl.2 <? 0)%Z then None
          else x ← log_softmax zl.1 !! Z.to_nat zl.2; Some (- x))
       (zip sim (Z.of_nat <$> seq k (length sim)))
  = Some (Ropp <$> imap (λ i row, default 0 (log_softmax row !! (k + i)%nat))
                        sim).
Proof.
  revert k. induction sim as [|row sim IH]; intros k Hd; [done|].
  cbn [length seq fmap list_fmap zip zip_with]. rewrite imap_cons.
  cbn [mapM]. cbn [fst snd].
  assert ((Z.of_nat k <? 0)%Z = false) as -> by (apply Z.ltb_ge; lia).
  rewrite Nat2Z.id.
  destruct (lookup_lt_is_Some_2 (log_softmax row) k) as [y Hy].
  { unfold log_softmax. rewrite length_fmap.
    specialize (Hd 0%nat row eq_refl). lia. }
  rewrite Hy. cbn [mbind option_bind].
  rewrite (IH (S k)); [|intros i r Hr; specialize (Hd (S i) r Hr); lia].
  cbn [mbind option_bind mret option_ret fmap list_fmap].
  rewrite Nat.add_0_r, Hy. simpl. do 3 f_equal.
  apply imap_ext. intros i r _. simpl. by rewrite Nat.add_succ_r.
Qed.

Lemma onehot_rows (k : nat) (sim m : list (list R)) :
  shape m = shape sim →
  (λ row, rsum row)
    <$> tzip Rmult (log_softmax <$> sim)
          (imap (λ i (mrow : list R),
                   imap (λ j (_ : R),
                           if decide ((k + i)%nat = j) then 1 else 0) mrow) m)
  = imap (λ i row, default 0 (log_softmax row !! (k + i)%nat)) sim.
Proof.
  revert k m. induction sim as [|row sim IH]; intros k [|mrow m] Hs; try done.
  rewrite fmap_cons, !imap_cons. unfold tzip. cbn [zip_with]. rewrite fmap_cons.
  injection Hs as Hl Hs. f_equal.
  - pose proof (rsum_onehot (k + 0) 0 (log_softmax row) mrow) as Ho.
    rewrite decide_True in Ho by lia. rewrite Nat.sub_0_r in Ho.
    rewrite <- Ho by (unfold log_softmax; rewrite length_fmap; lia).
    done.
  - specialize (IH (S k) m Hs). unfold tzip in IH.
    rewrite (imap_ext _ (λ i (mrow : list R),
               imap (λ j (_ : R),
                       if decide ((S k + i)%nat = j) then 1 else 0) mrow));
      [|intros i r _; simpl; apply imap_ext; intros j ? _; simpl;
        repeat case_decide; try lia; done].
    rewrite IH. apply imap_ext. intros i r _. simpl.
    by rewrite Nat.add_succ_r.
Qed.

(** Against the identity matching matrix the loss of [forward] is
    [F.cross_entropy] with the labels [0, 1, ..., n-1]. *)
Lemma hard_targets_cross_entropy (sim m : list (list R)) :
  shape m = shape sim →
  (∀ b row, sim !! b = Some row → (b < length row)%nat) →
  cross_entropy sim (Z.of_nat <$> seq 0 (length sim))
  = Some (soft_cross_entropy sim (identity_like m)).
Proof.
  intros Hs Hd. unfold cross_entropy.
  rewrite bool_decide_eq_true_2 by (by rewrite length_fmap, length_seq).
  rewrite (nll_arange 0 sim Hd). cbn [mbind option_bind].
  f_equal. rewrite mean_opp. unfold soft_cross_entropy. do 2 f_equal.
  symmetry. exact (onehot_rows 0 sim m Hs).
Qed.

End HardTargets.

Section ForwardExtras3.
Context `{Backbone}.
Local Open Scope R_scope.
Implicit Types (h : gmap positive tval).

(** X21. What [forward] leaves of the model (the momentum and the queue
    mixins being as the specification describes them): the parameters of
    the online modules and the configured values are as they were, and
    the temperature is the clamped one. A second call finds the
    temperature in range and leaves it as it is. *)
Theorem forward_model_update self samples ω h self' lcs out h' :
  forward self samples ω h = Some (self', lcs, out, h') →
  (visual_encoder self' = visual_encoder self
   ∧ text_encoder self' = text_encoder self
   ∧ vision_proj self' = vision_proj self
   ∧ text_proj self' = text_proj self
   ∧ itm_head self' = itm_head self)
  ∧ (alpha self' = alpha self ∧ momentum self' = momentum self
     ∧ queue_size self' = queue_size self
     ∧ max_txt_len self' = max_txt_len self
     ∧ mlm_probability self' = mlm_probability self)
  ∧ temp self' = clamp (temp self) 0.001 0.5
  ∧ ∀ samples2 ω2 h2 self'' lcs2 out2 h2',
      forward self' samples2 ω2 h2 = Some (self'', lcs2, out2, h2') →
      l_temp lcs2 = temp self' ∧ temp self'' = temp self'.
Proof.
  intros Hf.
  destruct (forward_features_inv _ _ _ _ _ _ _ _ Hf)
    as (_ & _ & _ & _ & Hself & _).
  destruct (forward_inv _ _ _ _ _ _ _ _ Hf) as (_ & (Ht & Ht' & _) & _).
  split_and!; try (by rewrite Hself).
  intros samples2 ω2 h2 self'' lcs2 out2 h2' Hf2.
  destruct (forward_inv _ _ _ _ _ _ _ _ Hf2) as (_ & (Ht2 & Ht2' & _) & _).
  assert (Hb : 0.001 <= temp self' <= 0.5).
  { rewrite Ht', Ht. apply clamp_bounds. lra. }
  assert (Hc : clamp (temp self') 0.001 0.5 = temp self').
  { unfold clamp. rewrite Rmax_left by lra. apply Rmin_left. lra. }
  split; congruence.
Qed.

(** X22. At the very first step of a schedule the weight of the teacher
    is 0, and the contrastive loss of either direction is the plain
    [F.cross_entropy] of the similarities against the labels
    [0, 1, ..., bs-1]: every sample is to be matched with its own
    partner. *)
Theorem forward_first_step_loss self samples ω h self' lcs out h' :
  forward self samples ω h = Some (self', lcs, out, h') →
  (0 < num_iters_per_epoch samples)%Z →
  epoch samples = 0%Z → iters samples = 0%Z →
  let labels := Z.of_nat <$> seq 0 (length (image samples)) in
  cross_entropy (l_sim_i2t lcs) labels = Some (l_loss_i2t lcs)
  ∧ cross_entropy (l_sim_t2i lcs) labels = Some (l_loss_t2i lcs).
Proof.
  intros Hf HN He Hi labels.
  pose proof (forward_batch_sizes _ _ _ _ _ _ _ _ Hf) as Hcap.
  destruct (forward_inv _ _ _ _ _ _ _ _ Hf)
    as ((r & Hr & Hal) & _ & (Hs1 & Hs2 & Hs3 & Hs4)
        & (Hl1 & Hl2 & Hl3 & Hl4 & Ha1 & Ha2) & (Htg & Hm1 & Hm2)
        & (Hloss1 & Hloss2 & _) & _).
  assert (Hr0 : (r == 0)%Q).
  { assert (Hstep : (epoch samples * num_iters_per_epoch samples
                     + iters samples
                     ≤ 2 * num_iters_per_epoch samples)%Z) by nia.
    rewrite (rampup_factor_linear _ _ _ _ HN Hstep Hr).
    rewrite He, Hi. simpl. unfold Qdiv. apply Qmult_0_l. }
  assert (H0 : l_alpha lcs = 0).
  { rewrite Hal, (Qreals.Qeq_eqR _ _ Hr0), RMicromega.Q2R_0. lra. }
  rewrite Htg, H0 in Hm1, Hm2.
  apply soft_targets_madd in Hm1 as [_ Hm1], Hm2 as [_ Hm2].
  assert (Hid : ∀ m, soft_targets 0 m = identity_like m).
  { intros m. unfold soft_targets. apply tzip_right.
    - by rewrite shape_fmap_softmax, shape_identity_like.
    - intros; lra. }
  rewrite Hid in Hm1, Hm2.
  assert (Hlen1 : length (l_sim_i2t lcs) = length (image samples))
    by (by rewrite Hs3, length_mdiv_matmul).
  assert (Hlen2 : length (l_sim_t2i lcs) = length (image samples))
    by (rewrite Hs4, length_mdiv_matmul; congruence).
  unfold labels. split.
  - rewrite <- Hlen1, Hloss1, Hm1. apply hard_targets_cross_entropy.
    + rewrite Hs1, Hs3, !shape_mdiv_matmul. congruence.
    + rewrite Hs3. intros b row. apply sim_diagonal_inside.
      rewrite Ha2, length_app. lia.
  - rewrite <- Hlen2, Hloss2, Hm2. apply hard_targets_cross_entropy.
    + rewrite Hs2, Hs4, !shape_mdiv_matmul. congruence.
    + rewrite Hs4. intros b row. apply sim_diagonal_inside.
      rewrite Ha1, length_app. lia.
Qed.

End ForwardExtras3.

(** ** The further properties at concrete inputs *)

(** Iteration 5 of epoch 0 and iteration 2 of epoch 1, ten iterations
    per epoch. *)
Lemma rampup_factor_monotone_witness :
  (0 < 10)%Z
  ∧ _rampup_factor 0 5 10 = Some (5 # 20)%Q
  ∧ _rampup_factor 1 2 10 = Some (12 # 20)%Q
  ∧ ((5 # 20) <= (12 # 20))%Q.
Proof.
  assert (H : (0 < 10)%Z) by lia.
  assert (H1 : _rampup_factor 0 5 10 = Some (5 # 20)%Q) by reflexivity.
  assert (H2 : _rampup_factor 1 2 10 = Some (12 # 20)%Q) by reflexivity.
  split; [exact H|]. split; [exact H1|]. split; [exact H2|].
  apply (proj1 (rampup_factor_monotone 10 0 5 1 2 _ _ H H1 H2)). lia.
Defined.

Lemma rampup_factor_saturates_witness :
  (0 < 10)%Z ∧ _rampup_factor 2 0 10 = Some 1%Q
  ∧ _rampup_factor 1 9 10 = Some (19 # 20)%Q
  ∧ ((19 # 20) == inject_Z (1 * 10 + 9) / inject_Z (2 * 10))%Q.
Proof.
  assert (H : (0 < 10)%Z) by lia.
  assert (H1 : _rampup_factor 1 9 10 = Some (19 # 20)%Q) by reflexivity.
  split; [exact H|]. split; [reflexivity|]. split; [exact H1|].
  apply (proj1 (proj2 (rampup_factor_saturates 10 1 9 _ H H1))). lia.
Defined.


(** The token 2023, masked and with a first sample of 0, becomes the mask
    token; the classification token before it stays. *)
Lemma mask_outcome_by_draws_witness :
  match mask_body bert_ids 1 30522 (Some 2%positive) None (Some ex_probs)
                  ex_draws ex_heap with
  | Some (lc, res, h') =>
      ∃ fm out f,
        h' !! masked_indices lc = Some (TBool fm)
        ∧ h' !! 1%positive = Some (TLong out)
        ∧ tget fm 0 1 = Some f
        ∧ f = true
        ∧ tget out 0 1 = Some 103%Z
  | None => False
  end.
Proof.
  destruct (mask_body bert_ids 1 30522 (Some 2%positive) None (Some ex_probs)
              ex_draws ex_heap) as [[[lc res] h']|] eqn:E.
  - destruct (mask_outcome_by_draws bert_ids 1 30522 (Some 2%positive) None
                (Some ex_probs) ex_draws ex_heap lc res h'
                [[101; 2023; 0]]%Z 0 1 2023%Z E)
      as (fm & out & f & Hfm & Hout & Hf & _ & Ht);
      [reflexivity | discriminate | reflexivity |].
    assert (Hft : f = true).
    { vm_compute in E. injection E as <- _ <-.
      vm_compute in Hfm. injection Hfm as <-.
      vm_compute in Hf. by injection Hf as <-. }
    exists fm, out, f. split; [exact Hfm|]. split; [exact Hout|].
    split; [exact Hf|]. split; [exact Hft|].
    apply (proj1 (Ht Hft)). reflexivity.
  - vm_compute in E. discriminate E.
Defined.

Lemma mask_ids_stay_in_vocabulary_witness :
  match mask_body bert_ids 1 30522 (Some 2%positive) None (Some ex_probs)
                  ex_draws ex_heap with
  | Some (lc, res, h') =>
      ∃ out, h' !! 1%positive = Some (TLong out)
        ∧ shape out = shape [[101; 2023; 0]]%Z
        ∧ ∀ i j y, tget out i j = Some y → (0 ≤ y < 30522)%Z
  | None => False
  end.
Proof.
  destruct (mask_body bert_ids 1 30522 (Some 2%positive) None (Some ex_probs)
              ex_draws ex_heap) as [[[lc res] h']|] eqn:E.
  - destruct (mask_ids_stay_in_vocabulary bert_ids 1 30522 (Some 2%positive)
                None (Some ex_probs) ex_draws ex_heap lc res h'
                [[101; 2023; 0]]%Z E) as (out & Hout & Hs & Hin & _).
    + reflexivity.
    + intros [|[|]] [|[|[|]]] x Hx; try discriminate Hx;
        injection Hx as <-; lia.
    + simpl. lia.
    + intros i j. simpl. lia.
    + exists out. split; [exact Hout|]. split; [exact Hs|].
      apply Hin. discriminate.
  - vm_compute in E. discriminate E.
Defined.

(** With probability 0 the caption comes back as it was, and all its
    labels are [-100]. *)
Lemma mask_degenerate_probabilities_witness :
  match mask_body bert_ids 1 30522 (Some 2%positive) None
                  (Some (full (shape [[101; 2023; 0]]%Z) 0%Q))
                  ex_draws ex_heap with
  | Some (lc, res, h') =>
      h' !! 1%positive = Some (TLong [[101; 2023; 0]]%Z)
      ∧ h' !! 2%positive = Some (TLong [[-100; -100; -100]]%Z)
  | None => False
  end.
Proof.
  destruct (mask_body bert_ids 1 30522 (Some 2%positive) None
              (Some (full (shape [[101; 2023; 0]]%Z) 0%Q))
              ex_draws ex_heap) as [[[lc res] h']|] eqn:E.
  - destruct (mask_degenerate_probabilities bert_ids 1 30522 (Some 2%positive)
                ex_draws ex_heap lc res h' [[101; 2023; 0]]%Z 0%Q E)
      as (fm & _ & H0 & _).
    + reflexivity.
    + intros i j. simpl. split; [apply Qle_refl | reflexivity].
    + destruct (H0 (Qeq_refl 0)) as (_ & Hout & _ & Hlab).
      split; [apply Hout; discriminate|].
      apply (Hlab 2%positive eq_refl). discriminate.
  - vm_compute in E. discriminate E.
Defined.

(** The ids passed as their own labels: the classification token and the
    padding are lost. *)
Lemma mask_aliased_targets_witness :
  match mask_body bert_ids 1 30522 (Some 1%positive) None (Some ex_probs)
                  ex_draws ex_heap with
  | Some (lc, res, h') =>
      res = (1%positive, Some 1%positive)
      ∧ ∃ out, h' !! 1%positive = Some (TLong out)
               ∧ tget out 0 0 = Some (-100)%Z
  | None => False
  end.
Proof.
  destruct (mask_body bert_ids 1 30522 (Some 1%positive) None (Some ex_probs)
              ex_draws ex_heap) as [[[lc res] h']|] eqn:E.
  - destruct (mask_aliased_targets bert_ids 1 30522 None (Some ex_probs)
                ex_draws ex_heap lc res h' [[101; 2023; 0]]%Z E eq_refl)
      as (Hres & fm & out & _ & Hout & Hpt).
    split; [exact Hres|]. exists out. split; [exact Hout|].
    destruct (Hpt 0 0 101%Z eq_refl) as (f & _ & _ & _ & Hsp).
    apply Hsp. right. reflexivity.
  - vm_compute in E. discriminate E.
Defined.

(** The caller's mask at location 3 is the mask of the call, and keeps
    its only bit, which is not at a special token. *)
Lemma mask_supplied_mask_in_place_witness :
  match mask_body bert_ids 1 30522 (Some 2%positive) (Some 3%positive) None
                  ex_draws cx_heap with
  | Some (lc, res, h') =>
      masked_indices lc = 3%positive
      ∧ ∃ fm, h' !! 3%positive = Some (TBool fm) ∧ tget fm 0 0 = Some true
  | None => False
  end.
Proof.
  destruct (mask_body bert_ids 1 30522 (Some 2%positive) (Some 3%positive) None
              ex_draws cx_heap) as [[[lc res] h']|] eqn:E.
  - destruct (proj1 (mask_supplied_mask_in_place bert_ids 1 30522
                       (Some 2%positive) (Some 3%positive) None
                       ex_draws cx_heap lc res h' [[2023]]%Z E eq_refl)
                3%positive eq_refl)
      as (Hl & m0 & fm & Hm0 & Hfm & _ & Hpt).
    split; [exact Hl|]. exists fm. split; [exact Hfm|].
    vm_compute in Hm0. injection Hm0 as <-.
    apply (Hpt 0 0 2023%Z true eq_refl eq_refl).
  - vm_compute in E. discriminate E.
Defined.

(** The toy batch meets every requirement of [forward]. *)
Lemma forward_requires_witness :
  ∃ self' lcs out h',
    @forward toy toy_model toy_batch toy_draws ∅ = Some (self', lcs, out, h')
    ∧ num_iters_per_epoch toy_batch ≠ 0%Z
    ∧ length (text_input toy_batch) = length (image toy_batch)
    ∧ 2 ≤ length (image toy_batch)
    ∧ length (image_queue toy_model) = length (text_queue toy_model)
    ∧ (0 < @vocab_size toy)%Z.
Proof.
  destruct (@forward_total toy toy_model toy_batch toy_draws ∅ toy_well_formed)
    as [[[[self' lcs] out] h'] Hf].
  exists self', lcs, out, h'. split; [exact Hf|].
  destruct (@forward_requires toy _ _ _ _ _ _ _ _ Hf)
    as (H1 & H2 & H3 & H4 & H5 & _).
  split; [exact H1|]. split; [exact H2|]. split; [exact H3|].
  split; [exact H4 | exact H5].
Defined.

Lemma forward_soft_targets_are_distributions_witness :
  ∃ self' lcs out h',
    @forward toy toy_model toy_batch toy_draws ∅ = Some (self', lcs, out, h')
    ∧ (0 < num_iters_per_epoch toy_batch)%Z
    ∧ (0 <= alpha toy_model <= 1)%R
    ∧ length (l_sim_i2t_targets lcs) = 2
    ∧ Forall (λ row, Forall (λ x, (0 <= x)%R) row ∧ rsum row = 1%R)
             (l_sim_i2t_targets lcs).
Proof.
  destruct (@forward_total toy toy_model toy_batch toy_draws ∅ toy_well_formed)
    as [[[[self' lcs] out] h'] Hf].
  exists self', lcs, out, h'. split; [exact Hf|].
  assert (HN : (0 < num_iters_per_epoch toy_batch)%Z) by (simpl; lia).
  assert (Ha : (0 <= alpha toy_model <= 1)%R) by (simpl; lra).
  split; [exact HN|]. split; [exact Ha|].
  apply (@forward_soft_targets_are_distributions toy _ _ _ _ _ _ _ _ Hf HN
           ltac:(simpl; lia) ltac:(simpl; lia) Ha).
  left. reflexivity.
Defined.

Lemma forward_losses_nonneg_witness :
  ∃ self' lcs out h',
    @forward toy toy_model toy_batch toy_draws ∅ = Some (self', lcs, out, h')
    ∧ (0 <= loss_itm out)%R ∧ (0 <= loss_ita out)%R.
Proof.
  destruct (@forward_total toy toy_model toy_batch toy_draws ∅ toy_well_formed)
    as [[[[self' lcs] out] h'] Hf].
  exists self', lcs, out, h'. split; [exact Hf|].
  destruct (@forward_losses_nonneg toy _ _ _ _ _ _ _ _ Hf) as [H1 H2].
  split; [exact H1|].
  apply H2; simpl; try lia; lra.
Defined.

(** The toy batch is at iteration 5 of epoch 0: the weight of the teacher
    is at most the configured 0.4. *)
Lemma forward_alpha_ramp_witness :
  ∃ self' lcs out h',
    @forward toy toy_model toy_batch toy_draws ∅ = Some (self', lcs, out, h')
    ∧ (0 <= l_alpha lcs <= 0.4)%R.
Proof.
  destruct (@forward_total toy toy_model toy_batch toy_draws ∅ toy_well_formed)
    as [[[[self' lcs] out] h'] Hf].
  exists self', lcs, out, h'. split; [exact Hf|].
  apply (@forward_alpha_ramp toy _ _ _ _ _ _ _ _ Hf); simpl; try lia; lra.
Defined.

(** The classification token of the first caption of the toy batch is
    not supervised and is fed as it is. *)
Lemma forward_mlm_supervision_witness :
  ∃ self' lcs out h' ids lab,
    @forward toy toy_model toy_batch toy_draws ∅ = Some (self', lcs, out, h')
    ∧ h' !! l_input_ids lcs = Some (TLong ids)
    ∧ h' !! l_labels lcs = Some (TLong lab)
    ∧ tget lab 0 0 = Some (-100)%Z ∧ tget ids 0 0 = Some 101%Z.
Proof.
  destruct (@forward_total toy toy_model toy_batch toy_draws ∅ toy_well_formed)
    as [[[[self' lcs] out] h'] Hf].
  destruct (@forward_mlm_supervision toy _ _ _ _ _ _ _ _ Hf)
    as (ids & lab & Hi & Hl & _ & _ & Hpt).
  exists self', lcs, out, h', ids, lab. split; [exact Hf|].
  split; [exact Hi|]. split; [exact Hl|].
  destruct (Hpt 0 0 101%Z eq_refl) as (Hlab & _ & Hunm & _).
  split; [exact Hlab | exact (Hunm eq_refl)].
Defined.

Lemma forward_features_normalised_witness :
  ∃ self' lcs out h',
    @forward toy toy_model toy_batch toy_draws ∅ = Some (self', lcs, out, h')
    ∧ length (l_image_feat lcs) = 2
    ∧ Forall (λ v, (0 <= rsum ((λ x, x * x) <$> v) <= 1)%R) (l_image_feat lcs).
Proof.
  destruct (@forward_total toy toy_model toy_batch toy_draws ∅ toy_well_formed)
    as [[[[self' lcs] out] h'] Hf].
  exists self', lcs, out, h'. split; [exact Hf|].
  apply (@forward_features_normalised toy _ _ _ _ _ _ _ _ Hf). left. reflexivity.
Defined.

(** The columns of the queues of the toy model are unit vectors. *)
Lemma forward_similarities_bounded_witness :
  ∃ self' lcs out h',
    @forward toy toy_model toy_batch toy_draws ∅ = Some (self', lcs, out, h')
    ∧ Forall (λ v, (rsum ((λ x, x * x) <$> v) <= 1)%R) (image_queue toy_model)
    ∧ Forall (λ v, (rsum ((λ x, x * x) <$> v) <= 1)%R) (text_queue toy_model)
    ∧ ∀ i j x, tget (l_sim_i2t lcs) i j = Some x → (-1000 <= x <= 1000)%R.
Proof.
  destruct (@forward_total toy toy_model toy_batch toy_draws ∅ toy_well_formed)
    as [[[[self' lcs] out] h'] Hf].
  exists self', lcs, out, h'. split; [exact Hf|].
  assert (Hq : Forall (λ v, (rsum ((λ x, x * x) <$> v) <= 1)%R)
                      [[1; 0]; [0; 1]]%R).
  { repeat constructor; unfold rsum; simpl; lra. }
  split; [exact Hq|]. split; [exact Hq|]. intros i j x Hx.
  apply (@forward_similarities_bounded toy _ _ _ _ _ _ _ _ Hf Hq Hq
           (l_sim_i2t lcs) (or_introl eq_refl) i j x Hx).
Defined.

Lemma forward_batch_of_two_witness :
  ∃ self' lcs out h',
    @forward toy toy_model toy_batch toy_draws ∅ = Some (self', lcs, out, h')
    ∧ valid_forward_draws toy_draws
    ∧ length (image toy_batch) = 2
    ∧ l_neg_image lcs = [1; 0] ∧ l_neg_text lcs = [1; 0].
Proof.
  destruct (@forward_total toy toy_model toy_batch toy_draws ∅ toy_well_formed)
    as [[[[self' lcs] out] h'] Hf].
  exists self', lcs, out, h'. split; [exact Hf|].
  pose proof toy_well_formed as (_ & _ & _ & _ & _ & _ & Hu).
  split; [exact Hu|]. split; [reflexivity|].
  apply (@forward_batch_of_two toy _ _ _ _ _ _ _ _ Hf Hu eq_refl).
Defined.

(** Four columns of two samples each, every column drawn as [(3, 4)]: the
    columns of the queue have norm one. *)
Lemma init_state_witness :
  ∃ self,
    __init__ toy_image_encoder toy_text_encoder 4 2 (15 # 100)%Q
             0.07%R 0.995%R 0.4%R 30 toy_init_draws = Some self
    ∧ visual_encoder_m self = visual_encoder self
    ∧ length (image_queue self) = 4
    ∧ ∀ j col, image_queue self !! j = Some col →
        length col = 2 ∧ rsum ((λ x, x * x)%R <$> col) = 1%R.
Proof.
  destruct (init_total toy_image_encoder toy_text_encoder 4 2 (15 # 100)%Q
              0.07%R 0.995%R 0.4%R 30 toy_init_draws)
    as [self Hi]; [simpl; lia..|].
  exists self. split; [exact Hi|].
  destruct (init_state _ _ _ _ _ _ _ _ _ _ _ Hi)
    as (_ & (Hm & _) & (_ & Hqs) & Hq).
  destruct (Hq (image_queue self) (randn_image toy_init_draws)
              (or_introl (conj eq_refl eq_refl))) as [Hl Hc].
  split; [exact Hm|]. split; [by rewrite Hl, Hqs|].
  intros j col Hcol. destruct (Hc j col Hcol) as (_ & Hlen & _ & Hone).
  split; [exact Hlen|]. apply Hone. simpl.
  apply Rle_trans with (sqrt 1); [rewrite sqrt_1; lra|].
  apply sqrt_le_1_alt. unfold rsum. simpl. lra.
Defined.

Lemma build_from_cfg_requires_witness :
  ∃ self,
    @_build_from_cfg toy_loaders (Some toy_cfg) toy_init_draws = Some self
    ∧ cfg_queue_size toy_cfg = Some 4%Z
    ∧ text_encoder self = [1%R].
Proof.
  destruct (@_build_from_cfg toy_loaders (Some toy_cfg) toy_init_draws)
    as [self|] eqn:E.
  - exists self. split; [reflexivity|]. split; [reflexivity|].
    destruct (@build_from_cfg_requires toy_loaders _ _ _ E)
      as (c & path & n & c0 & te & _ & _ & _ & _ & _ & Hc0 & Hte & ->).
    simpl in Hc0. injection Hc0 as <-. simpl in Hte. by injection Hte as <-.
  - exfalso. unfold _build_from_cfg in E. cbn -[__init__] in E.
    destruct (init_total
                {| vit_parameters := [1%R]; vision_width := 2 |}
                {| bert_parameters := [1%R];
                   config := set_fusion_layer
                               {| hidden_size := 2; fusion_layer := 0 |} 6 |}
                4 256 (15 # 100)%Q 0.07%R 0.995%R 0.4%R 30 toy_init_draws)
      as [self Hi]; [simpl; lia..|].
    rewrite Hi in E. discriminate E.
Defined.

(** The configuration that leaves every optional key out. *)
Lemma build_from_cfg_defaults_witness :
  ∃ self,
    @_build_from_cfg toy_loaders (Some toy_cfg) toy_init_draws = Some self
    ∧ temp self = 0.07%R
    ∧ clamp (temp self) 0.001 0.5 = temp self
    ∧ is_prob (mlm_probability self) = true
    ∧ length (image_queue self) = 4.
Proof.
  destruct (@_build_from_cfg toy_loaders (Some toy_cfg) toy_init_draws)
    as [self|] eqn:E.
  - exists self. split; [reflexivity|].
    destruct (@build_from_cfg_defaults toy_loaders _ _ _ E)
      as ((Ht & Hc) & _ & (_ & Hp) & _ & _ & (Hq & Hl & _) & _).
    split; [exact Ht|]. split; [exact (Hc eq_refl)|].
    split; [exact (Hp eq_refl)|].
    rewrite Hl. simpl in Hq. injection Hq as Hq. lia.
  - exfalso. unfold _build_from_cfg in E. cbn -[__init__] in E.
    destruct (init_total
                {| vit_parameters := [1%R]; vision_width := 2 |}
                {| bert_parameters := [1%R];
                   config := set_fusion_layer
                               {| hidden_size := 2; fusion_layer := 0 |} 6 |}
                4 256 (15 # 100)%Q 0.07%R 0.995%R 0.4%R 30 toy_init_draws)
      as [self Hi]; [simpl; lia..|].
    rewrite Hi in E. discriminate E.
Defined.

(** A model constructed with the temperature 0.9 and queues of two
    slots, on the toy batch of two samples. *)
Lemma init_then_forward_witness :
  ∃ self self' lcs out h',
    __init__ toy_image_encoder toy_text_encoder 2 2 (15 # 100)%Q
             0.9%R 0.995%R 0.4%R 3 toy_init_draws = Some self
    ∧ @forward toy self toy_batch toy_draws ∅ = Some (self', lcs, out, h')
    ∧ l_temp lcs = clamp 0.9 0.001 0.5
    ∧ shape (l_sim_i2t lcs) = [4; 4]
    ∧ ∀ i j x, tget (l_sim_i2t lcs) i j = Some x → (-1000 <= x <= 1000)%R.
Proof.
  destruct (init_total toy_image_encoder toy_text_encoder 2 2 (15 # 100)%Q
              0.9%R 0.995%R 0.4%R 3 toy_init_draws)
    as [self Hi]; [simpl; lia..|].
  assert (Hwf : @well_formed toy self toy_batch toy_draws).
  { destruct (init_queues_unit_ball _ _ _ _ _ _ _ _ _ _ _ Hi) as (Hlen & _).
    pose proof Hi as (vp & tp & ih & iq & tq & _ & _ & _ & _ & _ & Hself)%init_inv.
    pose proof toy_well_formed as (H1 & H2 & H3 & _ & _ & H6 & H7).
    unfold well_formed. split; [exact H1|]. split; [exact H2|].
    split; [exact H3|]. split; [exact Hlen|]. split; [by rewrite Hself|].
    split; [exact H6 | exact H7]. }
  destruct (@forward_total toy self toy_batch toy_draws ∅ Hwf)
    as [[[[self' lcs] out] h'] Hf].
  exists self, self', lcs, out, h'. split; [exact Hi|]. split; [exact Hf|].
  destruct (@init_then_forward toy _ _ _ _ _ _ _ _ _ _ _ _ _ _ _ _ _ _ Hi Hf)
    as [Ht Hs].
  split; [exact Ht|].
  destruct (Hs (l_sim_i2t lcs) (or_introl eq_refl)) as [Hsh Hb].
  split; [exact Hsh | exact Hb].
Defined.

(** The toy model enters with the temperature 0.9: it leaves with 0.5, and
    with the weight 0.4 it came with. *)
Lemma forward_model_update_witness :
  ∃ self' lcs out h',
    @forward toy toy_model toy_batch toy_draws ∅ = Some (self', lcs, out, h')
    ∧ alpha self' = alpha toy_model
    ∧ visual_encoder self' = visual_encoder toy_model
    ∧ temp self' = clamp 0.9 0.001 0.5.
Proof.
  destruct (@forward_total toy toy_model toy_batch toy_draws ∅ toy_well_formed)
    as [[[[self' lcs] out] h'] Hf].
  exists self', lcs, out, h'. split; [exact Hf|].
  destruct (@forward_model_update toy _ _ _ _ _ _ _ _ Hf)
    as ((Hv & _) & (Ha & _) & Ht & _).
  split; [exact Ha|]. split; [exact Hv | exact Ht].
Defined.

(** The toy batch at iteration 0 of epoch 0 is well formed. *)
Lemma toy_first_well_formed :
  @well_formed toy toy_model toy_first_batch toy_draws.
Proof.
  unfold well_formed, valid_forward_draws. simpl.
  split_and!; try done; try lia; intros b; lra.
Defined.

Lemma forward_first_step_loss_witness :
  ∃ self' lcs out h',
    @forward toy toy_model toy_first_batch toy_draws ∅
    = Some (self', lcs, out, h')
    ∧ (0 < num_iters_per_epoch toy_first_batch)%Z
    ∧ epoch toy_first_batch = 0%Z ∧ iters toy_first_batch = 0%Z
    ∧ cross_entropy (l_sim_i2t lcs) [0; 1]%Z = Some (l_loss_i2t lcs)
    ∧ cross_entropy (l_sim_t2i lcs) [0; 1]%Z = Some (l_loss_t2i lcs).
Proof.
  destruct (@forward_total toy toy_model toy_first_batch toy_draws ∅
              toy_first_well_formed) as [[[[self' lcs] out] h'] Hf].
  exists self', lcs, out, h'. split; [exact Hf|].
  assert (HN : (0 < num_iters_per_epoch toy_first_batch)%Z) by (simpl; lia).
  split; [exact HN|]. split; [reflexivity|]. split; [reflexivity|].
  exact (@forward_first_step_loss toy _ _ _ _ _ _ _ _ Hf HN eq_refl eq_refl).
Defined.
